(** * lcov-report-action: a shallow embedding of [index.js]

    The action parses an LCOV file, aggregates line coverage for all files
    and for the files changed by a pull request, checks two thresholds,
    renders a Markdown report and creates or updates one pull-request
    comment.  Every function of [index.js] that carries logic is embedded
    below as a Rocq function with the name it has in the source.

    Modelling conventions.
    - A JavaScript Number is an IEEE 754 binary64 value, a [spec_float] of
      the Standard Library with precision 53 and exponent bound 1024: the
      two zeros, the two infinities, NaN and the finite doubles.  The
      arithmetic is the correctly rounded one (to nearest, ties to even) of
      [SpecFloat]; the doubles that exist are those for which
      [valid_binary] holds.
    - A JavaScript string is kept as the [string] of the bytes of its UTF-8
      encoding: the text of a file read with the ['utf8'] option (as the
      decoder delivers it), the value of an environment variable, the body
      of a comment.  The prefixes and separators that the program looks for
      are ASCII, so that positions after them are the same in bytes and in
      code units.
    - [null] is [None]; a [Set] of paths is a [gset string].
    - What the action obtains from its environment (file system, working
      directory, event name, the two GitHub endpoints, the stack traces of
      the runtime) is an explicit [World]; a thrown exception is the
      [Throw] case of [result]. *)

From stdpp Require Import base option list strings gmap sets sorting pretty.
From Stdlib Require Import Ascii ZArith Lia.
From Stdlib Require Import Floats.SpecFloat.

Local Open Scope Z_scope.
Local Open Scope string_scope.
Local Open Scope list_scope.

(** ** JavaScript numbers *)

(** The parameters of binary64. *)
Definition prec : Z := 53.
Definition emax : Z := 1024.

Definition number : Type := spec_float.

Abbreviation NaN := S754_nan.

(** The Number nearest to the integer [z]: what a decimal integer literal
    denotes, and what [parseInt] returns for the digits of [z]. *)
Definition num (z : Z) : number := binary_normalize prec emax z 0 false.

(** [a < b] *)
Definition js_lt (a b : number) : bool := SFltb a b.

(** [a > b] *)
Definition js_gt (a b : number) : bool := SFltb b a.

(** [a === b] on numbers *)
Definition js_eq (a b : number) : bool := SFeqb a b.

(** [a !== b] *)
Definition js_ne (a b : number) : bool := negb (SFeqb a b).

(** [a >= b] *)
Definition js_ge (a b : number) : bool := SFleb b a.

(** [a + b] *)
Definition js_add (a b : number) : number := SFadd prec emax a b.

(** [a - b] *)
Definition js_sub (a b : number) : number := SFsub prec emax a b.

(** [a * b] *)
Definition js_mul (a b : number) : number := SFmul prec emax a b.

(** [a / b].  A zero divisor yields an infinity or NaN. *)
Definition js_div (a b : number) : number := SFdiv prec emax a b.

(** [ToBoolean] on a number: NaN and the two zeros are falsy. *)
Definition truthy (a : number) : bool :=
  match a with
  | S754_nan | S754_zero _ => false
  | _ => true
  end.

(** [a || b] on numbers. *)
Definition js_or (a b : number) : number := if truthy a then a else b.

(** A finite Number: a zero or a finite double. *)
Definition is_fin (a : number) : Prop :=
  valid_binary prec emax a = true
  /\ match a with
     | S754_zero _ | S754_finite _ _ _ => True
     | _ => False
     end.

(** ** JavaScript strings *)

(** [s.startsWith(p)] *)
Fixpoint startsWith (s p : string) {struct p} : bool :=
  match p with
  | EmptyString => true
  | String c p' =>
      match s with
      | String d s' => Ascii.eqb d c && startsWith s' p'
      | EmptyString => false
      end
  end.

(** [s.substring(n)] *)
Fixpoint substring_from (n : nat) (s : string) : string :=
  match n, s with
  | O, _ => s
  | S n', String _ s' => substring_from n' s'
  | S _, EmptyString => EmptyString
  end.

(** [s.split(sep)] for a one-character separator. *)
Fixpoint split (sep : ascii) (s : string) : list string :=
  match s with
  | EmptyString => [EmptyString]
  | String c s' =>
      if Ascii.eqb c sep then EmptyString :: split sep s'
      else match split sep s' with
           | [] => [String c EmptyString]
           | w :: ws => String c w :: ws
           end
  end.

(** [parts.join(sep)] *)
Fixpoint join (sep : string) (parts : list string) : string :=
  match parts with
  | [] => EmptyString
  | [p] => p
  | p :: ps => p +:+ sep +:+ join sep ps
  end.

(** [s.includes(m)] *)
Fixpoint includes (s m : string) : bool :=
  startsWith s m ||
  match s with
  | EmptyString => false
  | String _ s' => includes s' m
  end.

Definition LF_char : ascii := ascii_of_nat 10.
Definition nl : string := String LF_char EmptyString.

(** *** White space *)

(** The white space and line terminators of JavaScript, which [trim] and
    [parseInt] strip, in UTF-8: TAB, LF, VT, FF, CR and SP take one byte,
    U+00A0 takes two, and U+1680, U+2000 to U+200A, U+2028, U+2029, U+202F,
    U+205F, U+3000 and U+FEFF take three. *)
Definition isWhiteSpace1 (c : ascii) : bool :=
  let n := nat_of_ascii c in
  ((9 <=? n) && (n <=? 13) || (n =? 32))%nat.

Definition isWhiteSpace2 (c1 c2 : ascii) : bool :=
  ((nat_of_ascii c1 =? 194) && (nat_of_ascii c2 =? 160))%nat.

Definition isWhiteSpace3 (c1 c2 c3 : ascii) : bool :=
  let a := nat_of_ascii c1 in
  let b := nat_of_ascii c2 in
  let c := nat_of_ascii c3 in
  ((a =? 225) && (b =? 154) && (c =? 128)
   || (a =? 226) && (b =? 128)
      && ((128 <=? c) && (c <=? 138) || (c =? 168) || (c =? 169)
          || (c =? 175))
   || (a =? 226) && (b =? 129) && (c =? 159)
   || (a =? 227) && (b =? 128) && (c =? 128)
   || (a =? 239) && (b =? 187) && (c =? 191))%nat.

(** [s.trimStart()] *)
Fixpoint trimStart (s : string) : string :=
  match s with
  | String c1 r1 =>
      if isWhiteSpace1 c1 then trimStart r1
      else
        match r1 with
        | String c2 r2 =>
            if isWhiteSpace2 c1 c2 then trimStart r2
            else
              match r2 with
              | String c3 r3 =>
                  if isWhiteSpace3 c1 c2 c3 then trimStart r3 else s
              | EmptyString => s
              end
        | EmptyString => s
        end
  | EmptyString => EmptyString
  end.

(** The string is one white space character. *)
Definition isWhiteSpaceChar (s : string) : bool :=
  match s with
  | String c1 EmptyString => isWhiteSpace1 c1
  | String c1 (String c2 EmptyString) => isWhiteSpace2 c1 c2
  | String c1 (String c2 (String c3 EmptyString)) => isWhiteSpace3 c1 c2 c3
  | _ => false
  end.

(** [s.trimEnd()]: what is left of the rest, with the character in front
    of it, unless that is one white space character. *)
Fixpoint trimEnd (s : string) : string :=
  match s with
  | EmptyString => EmptyString
  | String c s' =>
      let t := String c (trimEnd s') in
      if isWhiteSpaceChar t then EmptyString else t
  end.

(** [s.trim()] *)
Definition trim (s : string) : string := trimEnd (trimStart s).

(** *** [parseInt(s, 10)] *)

Definition digitValue (c : ascii) : option Z :=
  let n := nat_of_ascii c in
  if ((48 <=? n) && (n <=? 57))%nat then Some (Z.of_nat n - 48) else None.

(** The value of the longest prefix of decimal digits, [None] when that
    prefix is empty. *)
Fixpoint digitsPrefix (acc : option Z) (s : string) : option Z :=
  match s with
  | String c s' =>
      match digitValue c with
      | Some d => digitsPrefix (Some (10 * default 0 acc + d)) s'
      | None => acc
      end
  | EmptyString => acc
  end.

(** An optional sign in front ([true] for minus), and the rest. *)
Definition splitSign (t : string) : bool * string :=
  match t with
  | String "-" r => (true, r)
  | String "+" r => (false, r)
  | _ => (false, t)
  end.

(** [parseInt(s, 10)]: leading white space is skipped, a sign is read, the
    decimal digits that follow are read up to the first other character,
    and the result is the Number nearest to the integer they denote, with
    the sign ([-0] for a negative zero); without a digit it is NaN.  (The
    nearest Number is what V8 returns; the language lets an engine read
    the digits after the twentieth as zeros.) *)
Definition parseInt (s : string) : number :=
  let '(negative, body) := splitSign (trimStart s) in
  match digitsPrefix None body with
  | None => NaN
  | Some n =>
      binary_normalize prec emax (if negative then - n else n) 0 negative
  end.

(** A well-formed base-10 integer: an optional sign, then one or more
    decimal digits. *)
Fixpoint allDigits (s : string) : bool :=
  match s with
  | EmptyString => true
  | String c s' => bool_decide (is_Some (digitValue c)) && allDigits s'
  end.
Definition wellFormedInt (s : string) : bool :=
  let body := snd (splitSign s) in
  negb (String.eqb body EmptyString) && allDigits body.

(** ** Node's [path] module (POSIX flavour) *)

(** Segments of a path after normalisation: empty segments and ["."] are
    dropped, [".."] removes the segment before it (and is dropped at the
    root). *)
Definition normalizeStep (acc : list string) (seg : string) : list string :=
  if String.eqb seg EmptyString || String.eqb seg "." then acc
  else if String.eqb seg ".." then removelast acc
  else acc ++ [seg].

Definition normalizeSegments (segs : list string) : list string :=
  fold_left normalizeStep segs [].

Definition isAbsolute (p : string) : bool := startsWith p "/".

(** The segments of [path.resolve(cwd, p)]; [cwd] is [process.cwd()], an
    absolute path. *)
Definition resolvedSegments (cwd p : string) : list string :=
  normalizeSegments
    (split "/" (if isAbsolute p then p else cwd +:+ "/" +:+ p)).

(** [path.resolve(cwd, p)] *)
Definition resolve (cwd p : string) : string :=
  "/" +:+ join "/" (resolvedSegments cwd p).

Fixpoint stripCommon (from to : list string) : list string * list string :=
  match from, to with
  | f :: from', t :: to' =>
      if String.eqb f t then stripCommon from' to' else (from, to)
  | _, _ => (from, to)
  end.

(** [path.relative(from, to)], both resolved against [cwd] first. *)
Definition relative (cwd from to : string) : string :=
  let '(up, down) :=
    stripCommon (resolvedSegments cwd from) (resolvedSegments cwd to) in
  join "/" (replicate (length up) ".." ++ down).

(** ** The coverage model *)

(** [{ found, hit }], the [lines] object of a record. *)
Record Lines : Type := { found : number; hit : number }.

(** [{ file, lines }], one record of the parsed report. *)
Record FileCoverage : Type := { file : string; lines : Lines }.

(** The object [calculateCoverage] returns, [{ found, hit, percentage,
    files }]; its counters are prefixed here to keep them apart from those
    of [Lines]. *)
Record Coverage : Type := {
  total_found : number;
  total_hit : number;
  percentage : number;
  files : list FileCoverage
}.

(** ** Exceptions and the environment *)

Record error : Type := { message : string; stack : string }.

Inductive result (A : Type) : Type :=
| Ok (a : A)
| Throw (e : error).
Arguments Ok {A} a.
Arguments Throw {A} e.

Definition bind {A B : Type} (m : result A) (k : A -> result B) : result B :=
  match m with
  | Ok a => k a
  | Throw e => Throw e
  end.

Notation "'try!' x ':=' m 'in' k" := (bind m (fun x => k))
  (at level 10, x name, m at level 100, k at level 200).

Inductive node : Type :=
| FileNode (content : string)
| DirNode.

(** A comment of the pull request; [body] may be absent. *)
Record Comment : Type := { id : Z; body : option string }.

Record World : Type := {
  (** the file system seen by [existsSync] and [readFileSync] *)
  fs : string -> option node;
  (** [process.cwd()] *)
  cwd : string;
  (** [github.context.eventName] *)
  eventName : string;
  (** the file names in the answer of [compareCommitsWithBasehead] *)
  compareCommits : result (list string);
  (** the error the comment endpoints answer with, if they fail *)
  commentsOutage : option error;
  (** the comments of the pull request, oldest first *)
  comments : list Comment;
  (** the stack frames that the runtime puts into [error.stack], after its
      first line, for an error with the given message that is created under
      the call at the given line of [index.js] *)
  stackFrames : nat -> string -> string
}.

(** [new Error(msg)], created under the call at line [line]. *)
Definition mkError (w : World) (line : nat) (msg : string) : error :=
  {| message := msg;
     stack := "Error: " +:+ msg +:+ stackFrames w line msg |}.

Definition existsSync (w : World) (p : string) : bool :=
  bool_decide (is_Some (fs w p)).

(** [readFileSync(p, 'utf8')], called at line [line]. *)
Definition readFileSync (w : World) (line : nat) (p : string)
  : result string :=
  match fs w p with
  | Some (FileNode content) => Ok content
  | Some DirNode =>
      Throw (mkError w line "EISDIR: illegal operation on a directory, read")
  | None =>
      Throw (mkError w line
               ("ENOENT: no such file or directory, open '" +:+ p +:+ "'"))
  end.

(** ** [parseLcovFile] *)

Definition updateFound (n : number) (f : FileCoverage) : FileCoverage :=
  {| file := file f; lines := {| found := n; hit := hit (lines f) |} |}.

Definition updateHit (n : number) (f : FileCoverage) : FileCoverage :=
  {| file := file f; lines := {| found := found (lines f); hit := n |} |}.

(** The state of the scan: the records pushed so far and [currentFile]. *)
Definition ParseState : Type := (list FileCoverage * option FileCoverage)%type.

(** The body of the loop over the lines.  The three branches guarded by
    [&& currentFile] in the source are the branches of the [Some] case. *)
Definition parseLine (cwd : string) (st : ParseState) (line : string)
  : ParseState :=
  let '(files, currentFile) := st in
  if startsWith line "SF:" then
    let filePath := substring_from 3 line in
    let absolutePath := resolve cwd filePath in
    let relativePath := relative cwd cwd absolutePath in
    (files,
     Some {| file := relativePath;
             lines := {| found := num 0; hit := num 0 |} |})
  else
    match currentFile with
    | Some cur =>
        if startsWith line "LF:" then
          (files, Some (updateFound (parseInt (substring_from 3 line)) cur))
        else if startsWith line "LH:" then
          (files, Some (updateHit (parseInt (substring_from 3 line)) cur))
        else if String.eqb line "end_of_record" then
          (files ++ [cur], None)
        else st
    | None => st
    end.

Definition parseLines (cwd : string) (lines : list string)
  : list FileCoverage :=
  fst (fold_left (parseLine cwd) lines ([], None)).

(** The scan of the text of the file. *)
Definition parseLcov (cwd : string) (content : string) : list FileCoverage :=
  parseLines cwd (split LF_char content).

Definition parseLcovFile (w : World) (filePath : string)
  : result (list FileCoverage) :=
  try! content := readFileSync w 56 filePath in
  Ok (parseLcov (cwd w) content).

(** ** [calculatePercentage] and [calculateCoverage] *)

(** The arithmetic of [calculatePercentage] is evaluated with its
    divisions observed: a computation yields its value together with the
    divisors of the divisions it has performed, in order, each recorded by
    the division itself. *)
Definition Traced (A : Type) : Type := (A * list number)%type.

Definition ret {A : Type} (a : A) : Traced A := (a, []).

Definition bindT {A B : Type} (m : Traced A) (k : A -> Traced B) : Traced B :=
  let '(a, divisors) := m in
  let '(b, more) := k a in
  (b, divisors ++ more).

(** [a / b], observed. *)
Definition js_div_traced (a b : number) : Traced number := (js_div a b, [b]).

(** The body of [calculatePercentage]:
    [found > 0 ? (hit / found) * 100 : 0]. *)
Definition calculatePercentage_traced (hit found : number) : Traced number :=
  if js_gt found (num 0)
  then bindT (js_div_traced hit found) (fun q => ret (js_mul q (num 100)))
  else ret (num 0).

(** The value that [calculatePercentage] returns. *)
Definition calculatePercentage (hit found : number) : number :=
  fst (calculatePercentage_traced hit found).

Definition emptyCoverage : Coverage :=
  {| total_found := num 0; total_hit := num 0;
     percentage := num 0; files := [] |}.

(** The accumulator of the [reduce], [{ found, hit, files }]. *)
Record Acc : Type := {
  acc_found : number;
  acc_hit : number;
  acc_files : list FileCoverage
}.

Definition reducer (acc : Acc) (f : FileCoverage) : Acc :=
  {| acc_found := js_add (acc_found acc) (found (lines f));
     acc_hit := js_add (acc_hit acc) (hit (lines f));
     acc_files := acc_files acc ++ [f] |}.

Definition calculateCoverage
  (coverage : list FileCoverage) (changedFiles : option (gset string))
  : Coverage :=
  let filtered :=
    match changedFiles with
    | Some changed =>
        if bool_decide (0 < size changed)%nat
        then filter (fun f => file f ∈ changed) coverage
        else coverage
    | None => coverage
    end in
  if bool_decide (length filtered = 0%nat) then emptyCoverage
  else
    let total :=
      fold_left reducer filtered
        {| acc_found := num 0; acc_hit := num 0; acc_files := [] |} in
    {| total_found := acc_found total;
       total_hit := acc_hit total;
       percentage := calculatePercentage (acc_hit total) (acc_found total);
       files := acc_files total |}.

(** ** Rendering *)

Definition LCOV_COMMENT_MARKER : string := "<!-- lcov-comment -->".
Definition MAX_FILES_PER_PAGE : nat := 100.

(** The number-to-text conversions of the JavaScript runtime that the
    renderer calls: [n.toFixed(1)], [n.toLocaleString()] and the conversion
    of a template literal. *)
Record NumberFormat : Type := {
  toFixed1 : number -> string;
  toLocaleString : number -> string;
  toString : number -> string
}.

(** The lines that compute [pct], [passed], [emoji] and [threshold], which
    [buildAllFilesSection] and [buildChangedFilesSection] have in common. *)
Definition thresholdLine
  (fmt : NumberFormat) (cov : Coverage) (min : number) : string :=
  let pct := toFixed1 fmt (percentage cov) in
  let passed := js_ge (percentage cov) min in
  let emoji := if passed then "✅" else "❌" in
  if js_gt min (num 0)
  then emoji +:+ " **" +:+ pct +:+ "%** of "
       +:+ toLocaleString fmt (total_found cov)
       +:+ " lines (threshold: " +:+ toString fmt min +:+ "%)"
  else "**" +:+ pct +:+ "%** of "
       +:+ toLocaleString fmt (total_found cov) +:+ " lines".

Definition buildAllFilesSection
  (fmt : NumberFormat) (cov : Coverage) (min : number) : string :=
  if js_eq (total_found cov) (num 0)
  then "### All files" +:+ nl +:+ nl +:+ "No coverage data available"
  else "### All files" +:+ nl +:+ nl +:+ thresholdLine fmt cov min.

(** The comparator handed to [sort] in [buildChangedFilesSection]. *)
Definition compareFiles (a b : FileCoverage) : number :=
  if js_eq (found (lines a)) (num 0) && js_eq (found (lines b)) (num 0)
  then num 0
  else if js_eq (found (lines a)) (num 0) then num 1
  else if js_eq (found (lines b)) (num 0) then num (-1)
  else
    let aPct := calculatePercentage (hit (lines a)) (found (lines a)) in
    let bPct := calculatePercentage (hit (lines b)) (found (lines b)) in
    if js_ne aPct bPct then js_sub aPct bPct
    else js_sub (found (lines b)) (found (lines a)).

(** [Array.prototype.sort(cmp)], as a stable insertion sort: [x] goes
    behind [y] exactly when [cmp(x, y) > 0] (a NaN answer counts as [+0],
    as in the comparison step of the language specification).  For a
    comparator that is a consistent ordering of the elements every
    conforming engine returns this list (lemma [stable_sorted_unique]
    below: the stable order is unique).  For any other comparator the
    language leaves the order to the engine; the list below is then one of
    the permitted results. *)
Fixpoint sortInsert {A : Type} (cmp : A -> A -> number) (x : A) (l : list A)
  : list A :=
  match l with
  | [] => [x]
  | y :: l' =>
      if js_gt (cmp x y) (num 0) then y :: sortInsert cmp x l'
      else x :: y :: l'
  end.

Definition sort {A : Type} (cmp : A -> A -> number) (l : list A) : list A :=
  foldr (sortInsert cmp) [] l.

(** [sortedFiles] of [buildChangedFilesSection]. *)
Definition sortedFiles (cov : Coverage) : list FileCoverage :=
  sort compareFiles (files cov).

(** [s.replace(/^\//, '')] *)
Definition stripLeadingSlash (s : string) : string :=
  match s with
  | String "/" r => r
  | _ => s
  end.

Definition tableRow (fmt : NumberFormat) (f : FileCoverage) : string :=
  let fileName := stripLeadingSlash (file f) in
  if js_eq (found (lines f)) (num 0)
  then "| `" +:+ fileName +:+ "` | - |"
  else
    let pct :=
      toFixed1 fmt (calculatePercentage (hit (lines f)) (found (lines f))) in
    "| `" +:+ fileName +:+ "` | " +:+ pct +:+ "% of "
    +:+ toString fmt (found (lines f)) +:+ " lines |".

Definition buildEnhancedTable
  (fmt : NumberFormat) (files : list FileCoverage) : string :=
  if bool_decide (length files = 0%nat) then EmptyString
  else
    let rows := join nl (tableRow fmt <$> files) in
    "| File | Coverage |" +:+ nl +:+ "| --- | --- |" +:+ nl +:+ rows.

Definition buildChangedFilesSection
  (fmt : NumberFormat) (cov : Coverage) (min : number) : string :=
  if js_eq (total_found cov) (num 0)
  then "### Changed files" +:+ nl +:+ nl +:+ "Changed files not in coverage"
  else
    let table := buildEnhancedTable fmt (sortedFiles cov) in
    "### Changed files" +:+ nl +:+ nl +:+ thresholdLine fmt cov min
    +:+ nl +:+ nl +:+ table.

Definition buildPerformanceSection (summary : string) : string :=
  if String.eqb summary EmptyString then EmptyString
  else nl +:+ nl +:+ "### Test performance" +:+ nl +:+ nl
       +:+ "```" +:+ nl +:+ summary +:+ nl +:+ "```".

Definition buildComment
  (fmt : NumberFormat) (allCov changedCov : Coverage)
  (allMin changedMin : number) (passed hasChanged : bool)
  (testSummary : option string) : string :=
  let hasThresholds := js_gt allMin (num 0) || js_gt changedMin (num 0) in
  let emoji :=
    if hasThresholds then (if passed then "✅" else "❌") else EmptyString in
  let header := "## " +:+ emoji +:+ " LCOV report" in
  let allSection := buildAllFilesSection fmt allCov allMin in
  let changedSection :=
    if hasChanged then buildChangedFilesSection fmt changedCov changedMin
    else "### Changed files" +:+ nl +:+ nl +:+ "> No files changed" in
  let performanceSection :=
    match testSummary with
    | Some summary =>
        if String.eqb summary EmptyString then EmptyString
        else buildPerformanceSection summary
    | None => EmptyString
    end in
  LCOV_COMMENT_MARKER +:+ nl +:+ header +:+ nl +:+ nl +:+ allSection
  +:+ nl +:+ nl +:+ changedSection +:+ performanceSection.

(** ** The comment store and [postComment] *)

(** [c.body?.includes(LCOV_COMMENT_MARKER)], as the condition of [find]. *)
Definition hasMarker (c : Comment) : bool :=
  match body c with
  | Some b => includes b LCOV_COMMENT_MARKER
  | None => false
  end.

(** [issues.listComments] with [per_page: MAX_FILES_PER_PAGE]: the first
    page only. *)
Definition listComments (store : list Comment) : list Comment :=
  take MAX_FILES_PER_PAGE store.

(** [issues.updateComment]: the comment with that identifier gets the new
    body and keeps its place. *)
Definition updateComment
  (store : list Comment) (comment_id : Z) (new_body : string)
  : list Comment :=
  (fun c => if Z.eqb (id c) comment_id
            then {| id := id c; body := Some new_body |} else c) <$> store.

Definition freshId (store : list Comment) : Z :=
  foldr Z.max 0 (id <$> store) + 1.

(** [issues.createComment]: a new comment, with a new identifier, after
    the others. *)
Definition createComment (store : list Comment) (new_body : string)
  : list Comment :=
  store ++ [{| id := freshId store; body := Some new_body |}].

(** [postComment], on the comments of the pull request; [outage] is the
    error of the endpoints when they fail. *)
Definition postComment
  (outage : option error) (store : list Comment) (comment : string)
  : result (list Comment) :=
  match outage with
  | Some e => Throw e
  | None =>
      let comments := listComments store in
      match List.find hasMarker comments with
      | Some existing => Ok (updateComment store (id existing) comment)
      | None => Ok (createComment store comment)
      end
  end.

(** ** [getChangedFiles] and [run] *)

Definition getChangedFiles (w : World) : result (gset string) :=
  if negb (String.eqb (eventName w) "pull_request") then Ok ∅
  else
    try! filenames := compareCommits w in
    Ok (list_to_set filenames).

(** The inputs of the action as the runner hands them over, in the
    environment variables [INPUT_...]: an input that is not supplied is the
    empty string.  The two thresholds are given as the numbers that
    [parseFloat] reads from the values that [core.getInput] returns. *)
Record Inputs : Type := {
  lcov_file : string;
  github_token : string;
  test_summary_file : string;
  all_files_minimum_coverage : number;
  changed_files_minimum_coverage : number
}.

(** [core.getInput(name, { required })], called at line [line]: the test
    for a required input is made on the value as supplied, and the value
    returned is trimmed. *)
Definition getInput
  (w : World) (line : nat) (name value : string) (required : bool)
  : result string :=
  if required && String.eqb value EmptyString
  then Throw (mkError w line ("Input required and not supplied: " +:+ name))
  else Ok (trim value).

(** What [run] has computed when it reaches the threshold check. *)
Record Checked : Type := {
  allCoverage : Coverage;
  changedCoverage : Coverage;
  allFilesMin : number;
  changedFilesMin : number;
  changedFiles : gset string;
  testSummary : option string;
  allPassed : bool;
  changedPassed : bool;
  passed : bool
}.

(** Lines 11 to 32 of [run]: everything up to the value of [passed]. *)
Definition evaluate (w : World) (i : Inputs) : result Checked :=
  try! lcovFile := getInput w 11 "lcov-file" (lcov_file i) true in
  try! githubToken := getInput w 12 "github-token" (github_token i) true in
  try! summaryInput :=
    getInput w 13 "test-summary-file" (test_summary_file i) false in
  let testSummaryFile :=
    if String.eqb summaryInput EmptyString then None
    else Some summaryInput in
  let allFilesMin := js_or (all_files_minimum_coverage i) (num 0) in
  let changedFilesMin := js_or (changed_files_minimum_coverage i) (num 0) in
  if negb (existsSync w lcovFile)
  then Throw (mkError w 18 ("LCOV file not found: " +:+ lcovFile))
  else
    try! coverage := parseLcovFile w lcovFile in
    try! changedFiles := getChangedFiles w in
    try! testSummary :=
      match testSummaryFile with
      | Some f =>
          if existsSync w f
          then try! text := readFileSync w 24 f in Ok (Some (trim text))
          else Ok None
      | None => Ok None
      end in
    let allCoverage := calculateCoverage coverage None in
    let changedCoverage := calculateCoverage coverage (Some changedFiles) in
    let allPassed := js_ge (percentage allCoverage) allFilesMin in
    let changedPassed :=
      bool_decide (size changedFiles = 0%nat)
      || js_ge (percentage changedCoverage) changedFilesMin in
    Ok {| allCoverage := allCoverage;
          changedCoverage := changedCoverage;
          allFilesMin := allFilesMin;
          changedFilesMin := changedFilesMin;
          changedFiles := changedFiles;
          testSummary := testSummary;
          allPassed := allPassed;
          changedPassed := changedPassed;
          passed := allPassed && changedPassed |}.

(** What a run leaves behind: the messages given to [core.setFailed], in
    order, and the comments of the pull request. *)
Record Outcome : Type := {
  failures : list string;
  store : list Comment
}.

Definition actionFailed (e : error) : string :=
  "Action failed: " +:+ message e +:+ nl +:+ stack e.

Definition belowThreshold : string :=
  "Coverage is below the minimum threshold".

Definition run (fmt : NumberFormat) (w : World) (i : Inputs) : Outcome :=
  match evaluate w i with
  | Throw e => {| failures := [actionFailed e]; store := comments w |}
  | Ok c =>
      let signalled := if passed c then [] else [belowThreshold] in
      if String.eqb (eventName w) "pull_request" then
        let comment :=
          buildComment fmt (allCoverage c) (changedCoverage c)
            (allFilesMin c) (changedFilesMin c) (passed c)
            (bool_decide (0 < size (changedFiles c))%nat) (testSummary c) in
        match postComment (commentsOutage w) (comments w) comment with
        | Ok store' => {| failures := signalled; store := store' |}
        | Throw e =>
            {| failures := signalled ++ [actionFailed e];
               store := comments w |}
        end
      else {| failures := signalled; store := comments w |}
  end.

(** The exit status is a failure once [core.setFailed] has been called. *)
Definition failed (o : Outcome) : bool :=
  bool_decide (failures o ≠ []).

(** ** Reference notions used by the statements *)

(** *** Numbers *)

(** A zero, an infinity or a finite double with the sign [s]
    ([true] is minus). *)
Definition signed (s : bool) (x : number) : Prop :=
  x = S754_zero s \/ x = S754_infinity s
  \/ exists m e, x = S754_finite s m e.

(** A double that is not NaN. *)
Definition wf (x : number) : Prop :=
  valid_binary prec emax x = true /\ x <> NaN.

(** [x] is the double of the non-negative integer [v], held exactly. *)
Definition repr (v : Z) (x : number) : Prop :=
  (v = 0 /\ x = S754_zero false)
  \/ (exists m e, x = S754_finite false m e
                  /\ bounded prec emax m e = true
                  /\ e <= 0 /\ Z.pos m = v * 2 ^ (- e)).

(** The magnitude of a finite double, in units of [2^-1074]. *)
Definition mag (m : positive) (e : Z) : Z := Z.pos m * 2 ^ (e + 1074).

(** A bound above every finite magnitude, standing for the infinities. *)
Definition huge : Z := 2 ^ 2200.

(** The place of a double on the number line, in units of [2^-1074]. *)
Definition valZ (x : number) : Z :=
  match x with
  | S754_zero _ | S754_nan => 0
  | S754_infinity s => if s then - huge else huge
  | S754_finite s m e => if s then - mag m e else mag m e
  end.

(** *** Reports *)

(** A record whose two counters are integers. *)
Definition entry (path : string) (nFound nHit : Z) : FileCoverage :=
  {| file := path; lines := {| found := num nFound; hit := num nHit |} |}.

(** A report given by the path and the two integer counters, found and
    hit, of each of its records. *)
Definition entries (l : list (string * Z * Z)) : list FileCoverage :=
  (fun '(p, nf, nh) => entry p nf nh) <$> l.

(** The integer sums of the two counters. *)
Definition foundTotal (l : list (string * Z * Z)) : Z :=
  foldr Z.add 0 ((fun '(p, nf, nh) => nf) <$> l).
Definition hitTotal (l : list (string * Z * Z)) : Z :=
  foldr Z.add 0 ((fun '(p, nf, nh) => nh) <$> l).

(** The counters are non-negative integers whose sums are safe integers
    (below [2^53]), which binary64 holds exactly. *)
Definition safeCounters (l : list (string * Z * Z)) : Prop :=
  Forall (fun '(p, nf, nh) => 0 <= nf /\ 0 <= nh) l
  /\ foundTotal l < 2 ^ 53 /\ hitTotal l < 2 ^ 53.

(** The records whose path is in the set. *)
Definition keptBy (changed : gset string) (l : list (string * Z * Z))
  : list (string * Z * Z) :=
  filter (fun '(p, nf, nh) => p ∈ changed) l.

(** A record whose counters are finite numbers. *)
Definition finiteCounters (f : FileCoverage) : Prop :=
  is_fin (found (lines f)) /\ is_fin (hit (lines f)).

(** The percentage shown in the row of a file. *)
Definition filePercentage (f : FileCoverage) : number :=
  calculatePercentage (hit (lines f)) (found (lines f)).

(** The file has no measurable line. *)
Definition zeroFound (f : FileCoverage) : bool :=
  js_eq (found (lines f)) (num 0).

(** Whether the comparator of the table puts a file behind another one,
    from the places on the number line of their found counters [fa], [fb]
    and of their percentages [pa], [pb]. *)
Definition behindZ (fa pa fb pb : Z) : bool :=
  if ((fa =? 0) && (fb =? 0))%Z then false
  else if (fa =? 0)%Z then true
  else if (fb =? 0)%Z then false
  else if negb (pa =? pb)%Z then (pb <? pa)%Z
  else (fa <? fb)%Z.

(** The comparator puts neither of the two files behind the other. *)
Definition tied (x y : FileCoverage) : bool :=
  negb (js_gt (compareFiles x y) (num 0))
  && negb (js_gt (compareFiles y x) (num 0)).

(** *** Texts and lines *)

(** [c] occurs in [s]. *)
Fixpoint hasChar (c : ascii) (s : string) : bool :=
  match s with
  | EmptyString => false
  | String d s' => Ascii.eqb d c || hasChar c s'
  end.

(** A segment that normalisation keeps. *)
Definition isProper (seg : string) : bool :=
  negb (String.eqb seg EmptyString || String.eqb seg "."
        || String.eqb seg "..").

(** A segment as normalisation leaves it: kept, and free of separators. *)
Definition keptSegment (w : string) : Prop :=
  isProper w = true /\ hasChar "/" w = false.

(** [currentFile] after the scan of the lines [before]. *)
Definition openRecord (cwd : string) (before : list string)
  : option FileCoverage :=
  snd (fold_left (parseLine cwd) before ([], None)).

(** The line closes a record. *)
Definition isEndOfRecord (line : string) : bool :=
  String.eqb line "end_of_record".

(** The record that an [SF:] line with the path [p] opens. *)
Definition openedRecord (cwd p : string) : FileCoverage :=
  {| file := relative cwd cwd (resolve cwd p);
     lines := {| found := num 0; hit := num 0 |} |}.

(** The two counters of a record, with the tags of their lines. *)
Inductive Counter : Type := Found | Hit.

Definition counterTag (k : Counter) : string :=
  match k with Found => "LF:" | Hit => "LH:" end.

Definition counterOf (k : Counter) (f : FileCoverage) : number :=
  match k with Found => found (lines f) | Hit => hit (lines f) end.

Definition setCounter (k : Counter) (n : number) (f : FileCoverage)
  : FileCoverage :=
  match k with Found => updateFound n f | Hit => updateHit n f end.

(** A line that neither opens nor closes a record nor sets the counter
    [k]. *)
Definition keepsCounter (k : Counter) (line : string) : bool :=
  negb (startsWith line "SF:") && negb (startsWith line (counterTag k))
  && negb (String.eqb line "end_of_record").

(** After its leading white space and an optional sign, the field goes on
    with a decimal digit. *)
Definition leadingDigit (field : string) : bool :=
  match snd (splitSign (trimStart field)) with
  | String c _ => bool_decide (is_Some (digitValue c))
  | EmptyString => false
  end.

(** *** Work spaces for the examples *)

(** Stack frames for the examples. *)
Definition exampleFrames (line : nat) (msg : string) : string :=
  nl +:+ "    at index.js:" +:+ pretty (Z.of_nat line).

(** A work space with one LCOV file, for a push event. *)
Definition lcovWorld (text : string) : World :=
  {| fs := fun p =>
       if String.eqb p "cover/lcov.info" then Some (FileNode text) else None;
     cwd := "/home/runner/work/app";
     eventName := "push";
     compareCommits := Ok [];
     commentsOutage := None;
     comments := [];
     stackFrames := exampleFrames |}.

Definition lcovInputs (allMin changedMin : number) : Inputs :=
  {| lcov_file := "cover/lcov.info";
     github_token := "token";
     test_summary_file := EmptyString;
     all_files_minimum_coverage := allMin;
     changed_files_minimum_coverage := changedMin |}.

(** The decimal digits of a non-negative integer in groups of three,
    separated by commas. *)
Fixpoint groupThousands (fuel : nat) (n : Z) : string :=
  match fuel with
  | O => pretty n
  | S fuel' =>
      if (n <? 1000)%Z then pretty n
      else
        let low := n mod 1000 in
        let pad :=
          if (low <? 10)%Z then "00"
          else if (low <? 100)%Z then "0" else EmptyString in
        groupThousands fuel' (n / 1000) +:+ "," +:+ pad +:+ pretty low
  end.

(** A number format for the examples.  [toFixed(1)] gives the nearest
    number with one decimal (the upper one of two that are equally near).
    The other two conversions are exact on the integers below [10^21], on
    which [toLocaleString] groups the digits as the locale [en-US] does; a
    number that is no integer is given with one decimal by them as well. *)
Definition exampleFormat : NumberFormat :=
  let sign (s : bool) : string := if s then "-" else EmptyString in
  let tenths (m : positive) (e : Z) : Z :=
    if (0 <=? e)%Z then Z.pos m * 2 ^ e * 10
    else (Z.pos m * 20 + 2 ^ (- e)) / (2 * 2 ^ (- e)) in
  let fixed1 (a : number) : string :=
    match a with
    | S754_nan => "NaN"
    | S754_infinity s => sign s +:+ "Infinity"
    | S754_zero _ => "0.0"
    | S754_finite s m e =>
        sign s +:+ pretty (tenths m e / 10) +:+ "."
        +:+ pretty (tenths m e mod 10)
    end in
  let integer (digits : Z -> string) (zero : bool -> string) (a : number)
    : string :=
    match a with
    | S754_zero s => zero s
    | S754_finite s m e =>
        if (0 <=? e)%Z then sign s +:+ digits (Z.pos m * 2 ^ e)
        else if (Z.pos m mod 2 ^ (- e) =? 0)%Z
             then sign s +:+ digits (Z.pos m / 2 ^ (- e))
             else fixed1 a
    | _ => fixed1 a
    end in
  {| toFixed1 := fixed1;
     toLocaleString := integer (groupThousands 8) (fun s => sign s +:+ "0");
     toString := integer pretty (fun _ => "0") |}.

(** A work space with the LCOV file [text], for a pull request that
    changes the files [changed] and has the comments [discussion]. *)
Definition pullRequestWorld
  (text : string) (changed : list string) (discussion : list Comment)
  : World :=
  {| fs := fun p =>
       if String.eqb p "cover/lcov.info" then Some (FileNode text) else None;
     cwd := "/home/runner/work/app";
     eventName := "pull_request";
     compareCommits := Ok changed;
     commentsOutage := None;
     comments := discussion;
     stackFrames := exampleFrames |}.

(** The error of an endpoint that refuses the token. *)
Definition deniedError : error :=
  {| message := "Resource not accessible by integration";
     stack := "HttpError: Resource not accessible by integration" |}.

(** The report of the two files [a.ex], fully covered, and [b.ex], not
    covered at all. *)
Definition twoFilesText : string :=
  "SF:a.ex" +:+ nl +:+ "LF:10" +:+ nl +:+ "LH:10" +:+ nl
  +:+ "end_of_record" +:+ nl
  +:+ "SF:b.ex" +:+ nl +:+ "LF:10" +:+ nl +:+ "LH:0" +:+ nl
  +:+ "end_of_record" +:+ nl.

(** A decimal integer of 310 digits, [10^309], which is above every finite
    double. *)
Definition overflowingField : string :=
  "1000000000000000000000000000000000000000000000000000000000000000000000000000000000000000000000000000000000000000000000000000000000000000000000000000000000000000000000000000000000000000000000000000000000000000000000000000000000000000000000000000000000000000000000000000000000000000000000000000000000000000000000".

(** The comments of the store that bear the marker, oldest first. *)
Definition markerComments (store : list Comment) : list Comment :=
  filter (fun c => hasMarker c = true) store.

(** Every marker-bearing comment is on the first page, and a store that
    has none does not fill its first page. *)
Definition pageSuffices (store : list Comment) : Prop :=
  markerComments (listComments store) = markerComments store
  /\ (markerComments store = [] ->
      (length store < MAX_FILES_PER_PAGE)%nat).

(** The world after a run: the same environment, with the comments the
    run has left. *)
Definition withComments (w : World) (discussion : list Comment) : World :=
  {| fs := fs w; cwd := cwd w; eventName := eventName w;
     compareCommits := compareCommits w;
     commentsOutage := commentsOutage w;
     comments := discussion;
     stackFrames := stackFrames w |}.

(** A discussion of [n] comments without the marker, numbered from 1. *)
Definition chatter (n : nat) : list Comment :=
  (fun k => {| id := Z.of_nat (S k); body := Some "ping" |}) <$> seq 0 n.

(** * Properties *)

(** ** Binary64 arithmetic *)

(** The lemmas of this part establish, for the operations of [SpecFloat]
    at precision 53, what the later proofs use: results are doubles, addition
    is exact on the safe integers, comparisons follow the places on the
    number line, and the sign of a difference is the order of its
    operands. *)

Section Binary64.
Local Open Scope Z_scope.

Lemma fexp_eq (x : Z) : fexp prec emax x = Z.max (x - 53) (-1074).
Proof. reflexivity. Qed.

Lemma digits2_pos_bounds (p : positive) :
  2 ^ (Z.pos (digits2_pos p) - 1) <= Z.pos p < 2 ^ Z.pos (digits2_pos p).
Proof.
  induction p as [p IH|p IH|]; cbn [digits2_pos].
  - rewrite Pos2Z.inj_succ.
    replace (Z.succ (Z.pos (digits2_pos p)) - 1) with (Z.succ (Z.pos (digits2_pos p) - 1)) by lia.
    rewrite !Z.pow_succ_r by lia. lia.
  - rewrite Pos2Z.inj_succ.
    replace (Z.succ (Z.pos (digits2_pos p)) - 1) with (Z.succ (Z.pos (digits2_pos p) - 1)) by lia.
    rewrite !Z.pow_succ_r by lia. lia.
  - cbn. lia.
Qed.

Lemma Zdigits2_bounds (m : Z) :
  0 < m -> 0 < Zdigits2 m /\ 2 ^ (Zdigits2 m - 1) <= m < 2 ^ Zdigits2 m.
Proof.
  destruct m as [|p|p]; try lia. intros _. cbn [Zdigits2].
  split; [lia | apply digits2_pos_bounds].
Qed.

Lemma Zdigits2_unique (m k : Z) :
  0 < k -> 2 ^ (k - 1) <= m < 2 ^ k -> Zdigits2 m = k.
Proof.
  intros Hk [Hlo Hhi].
  assert (0 < m) as Hm by (pose proof (Z.pow_pos_nonneg 2 (k - 1)); lia).
  destruct (Zdigits2_bounds m Hm) as (Hd & Hdlo & Hdhi).
  destruct (Z.lt_trichotomy (Zdigits2 m) k) as [H|[H|H]]; [|exact H|].
  - assert (2 ^ Zdigits2 m <= 2 ^ (k - 1)) by (apply Z.pow_le_mono_r; lia). lia.
  - assert (2 ^ k <= 2 ^ (Zdigits2 m - 1)) by (apply Z.pow_le_mono_r; lia). lia.
Qed.

Lemma Zdigits2_nonneg (m : Z) : 0 <= Zdigits2 m.
Proof. destruct m; cbn; lia. Qed.

Lemma Zdigits2_mono (m n : Z) : 0 < m -> m <= n -> Zdigits2 m <= Zdigits2 n.
Proof.
  intros Hm Hmn.
  destruct (Zdigits2_bounds m Hm) as (Hd & Hlo & Hhi).
  destruct (Zdigits2_bounds n ltac:(lia)) as (Hd' & Hlo' & Hhi').
  destruct (Z.le_gt_cases (Zdigits2 m) (Zdigits2 n)) as [H|H]; [exact H|].
  assert (2 ^ Zdigits2 n <= 2 ^ (Zdigits2 m - 1)) by (apply Z.pow_le_mono_r; lia).
  lia.
Qed.

Lemma Zdigits2_mul_pow2 (m k : Z) :
  0 < m -> 0 <= k -> Zdigits2 (m * 2 ^ k) = Zdigits2 m + k.
Proof.
  intros Hm Hk. destruct (Zdigits2_bounds m Hm) as (Hd & Hlo & Hhi).
  apply Zdigits2_unique; [lia|].
  replace (Zdigits2 m + k - 1) with ((Zdigits2 m - 1) + k) by lia.
  rewrite !Z.pow_add_r by lia.
  pose proof (Z.pow_pos_nonneg 2 k). nia.
Qed.

Lemma div_pow2_pos (m n : Z) :
  0 < m -> 0 <= n -> n < Zdigits2 m ->
  0 < m / 2 ^ n /\ Zdigits2 (m / 2 ^ n) = Zdigits2 m - n.
Proof.
  intros Hm Hn Hlt. destruct (Zdigits2_bounds m Hm) as (Hd & Hlo & Hhi).
  pose proof (Z.pow_pos_nonneg 2 n ltac:(lia) Hn) as Hp.
  assert (2 ^ (Zdigits2 m - n - 1) <= m / 2 ^ n < 2 ^ (Zdigits2 m - n)) as Hb.
  { split.
    - apply Z.div_le_lower_bound; [lia|].
      rewrite <- Z.pow_add_r by lia.
      now replace (n + (Zdigits2 m - n - 1)) with (Zdigits2 m - 1) by lia.
    - apply Z.div_lt_upper_bound; [lia|].
      rewrite <- Z.pow_add_r by lia.
      now replace (n + (Zdigits2 m - n)) with (Zdigits2 m) by lia. }
  split.
  - pose proof (Z.pow_pos_nonneg 2 (Zdigits2 m - n - 1)). lia.
  - apply Zdigits2_unique; [lia|]. exact Hb.
Qed.

Lemma div_pow2_zero (m n : Z) :
  0 <= m -> Zdigits2 m <= n -> m / 2 ^ n = 0.
Proof.
  intros Hm Hn. destruct (Z.eq_dec m 0) as [->|Hne]; [apply Z.div_0_l|].
  { pose proof (Z.pow_pos_nonneg 2 n ltac:(lia)). pose proof (Zdigits2_nonneg 0). cbn in *. lia. }
  destruct (Zdigits2_bounds m ltac:(lia)) as (Hd & Hlo & Hhi).
  apply Z.div_small. split; [lia|].
  assert (2 ^ Zdigits2 m <= 2 ^ n) by (apply Z.pow_le_mono_r; lia). lia.
Qed.

Lemma iter_pos_nat {A : Type} (f : A -> A) (p : positive) (x : A) :
  iter_pos f p x = Nat.iter (Pos.to_nat p) f x.
Proof.
  revert x. induction p as [q IH|q IH|]; intros x; cbn [iter_pos].
  - rewrite !IH, Pos2Nat.inj_xI.
    replace (S (2 * Pos.to_nat q))
      with (Pos.to_nat q + (Pos.to_nat q + 1))%nat by lia.
    now rewrite !Nat.iter_add.
  - rewrite !IH, Pos2Nat.inj_xO.
    replace (2 * Pos.to_nat q)%nat with (Pos.to_nat q + Pos.to_nat q)%nat by lia.
    now rewrite Nat.iter_add.
  - reflexivity.
Qed.

Lemma shr_m_shr_1 (r : shr_record) :
  0 <= shr_m r -> shr_m (shr_1 r) = shr_m r / 2.
Proof.
  destruct r as [m r s]. cbn [shr_m]. intros Hm.
  destruct m as [|[p|p|]|p]; cbn [shr_1 shr_m]; try lia; try reflexivity.
  - apply (Z.div_unique (Z.pos p~1) 2 (Z.pos p) 1); lia.
  - apply (Z.div_unique (Z.pos p~0) 2 (Z.pos p) 0); lia.
Qed.

Lemma shr_m_iter (n : nat) (r : shr_record) :
  0 <= shr_m r ->
  shr_m (Nat.iter n shr_1 r) = shr_m r / 2 ^ Z.of_nat n.
Proof.
  intros Hm. induction n as [|n IH].
  - cbn. now rewrite Z.div_1_r.
  - change (Nat.iter (S n) shr_1 r) with (shr_1 (Nat.iter n shr_1 r)).
    rewrite shr_m_shr_1.
    + rewrite IH, Nat2Z.inj_succ, Z.pow_succ_r by lia.
      rewrite Z.div_div by (try apply Z.pow_pos_nonneg; lia). f_equal. lia.
    + rewrite IH. apply Z.div_pos; [lia | apply Z.pow_pos_nonneg; lia].
Qed.

Lemma shr_1_exact (m : Z) :
  0 <= m ->
  shr_1 {| shr_m := 2 * m; shr_r := false; shr_s := false |}
  = {| shr_m := m; shr_r := false; shr_s := false |}.
Proof. destruct m; try lia; reflexivity. Qed.

Lemma shr_iter_exact (n : nat) (m : Z) :
  0 <= m ->
  Nat.iter n shr_1
    {| shr_m := m * 2 ^ Z.of_nat n; shr_r := false; shr_s := false |}
  = {| shr_m := m; shr_r := false; shr_s := false |}.
Proof.
  intros Hm. revert m Hm. induction n as [|n IH]; intros m Hm.
  - change (Z.of_nat 0) with 0. rewrite Z.pow_0_r, Z.mul_1_r. reflexivity.
  - replace (S n) with (n + 1)%nat by lia. rewrite Nat.iter_add.
    change (Nat.iter 1 shr_1 ?r) with (shr_1 r).
    replace (m * 2 ^ Z.of_nat (n + 1)) with (2 * (m * 2 ^ Z.of_nat n))
      by (rewrite Nat2Z.inj_add, Z.pow_add_r by lia; change (2 ^ Z.of_nat 1) with 2; lia).
    rewrite shr_1_exact by (pose proof (Z.pow_pos_nonneg 2 (Z.of_nat n)); nia).
    now apply IH.
Qed.

(** [shr] by a non-negative amount. *)
Lemma shr_spec (mrs : shr_record) (e n : Z) :
  0 <= shr_m mrs -> 0 <= n ->
  snd (shr mrs e n) = e + n
  /\ shr_m (fst (shr mrs e n)) = shr_m mrs / 2 ^ n.
Proof.
  intros Hm Hn. destruct n as [|p|p]; try lia; cbn [shr fst snd].
  - rewrite Z.add_0_r. cbn. now rewrite Z.div_1_r.
  - split; [reflexivity|]. rewrite iter_pos_nat, shr_m_iter by exact Hm.
    now rewrite positive_nat_Z.
Qed.

Lemma shr_record_of_loc_m (m : Z) (l : location) :
  shr_m (shr_record_of_loc m l) = m.
Proof. destruct l as [|[]]; reflexivity. Qed.

Lemma shr_fexp_spec (m e : Z) (l : location) :
  0 <= m -> e <= fexp prec emax (Zdigits2 m + e) ->
  snd (shr_fexp prec emax m e l) = fexp prec emax (Zdigits2 m + e)
  /\ shr_m (fst (shr_fexp prec emax m e l))
     = m / 2 ^ (fexp prec emax (Zdigits2 m + e) - e).
Proof.
  intros Hm He. unfold shr_fexp.
  destruct (shr_spec (shr_record_of_loc m l) e
              (fexp prec emax (Zdigits2 m + e) - e)) as [H1 H2];
    [rewrite shr_record_of_loc_m; lia | lia |].
  rewrite H1, H2, shr_record_of_loc_m. split; [lia | reflexivity].
Qed.

Lemma round_nearest_even_cases (m : Z) (l : location) :
  round_nearest_even m l = m \/ round_nearest_even m l = m + 1.
Proof.
  destruct l as [|[]]; cbn; auto. destruct (Z.even m); auto.
Qed.

Lemma fexp_mono (x y : Z) : x <= y -> fexp prec emax x <= fexp prec emax y.
Proof. rewrite !fexp_eq. lia. Qed.

Lemma fexp_ge_emin (x : Z) : -1074 <= fexp prec emax x.
Proof. rewrite fexp_eq. lia. Qed.

Lemma binary_round_aux_spec (s : bool) (m e : Z) (l : location) :
  0 <= m -> e <= fexp prec emax (Zdigits2 m + e) ->
  valid_binary prec emax (binary_round_aux prec emax s m e l) = true
  /\ signed s (binary_round_aux prec emax s m e l)
  /\ (fexp prec emax (Zdigits2 m + e) < Zdigits2 m + e ->
      binary_round_aux prec emax s m e l <> S754_zero s).
Proof.
  intros Hm He. unfold binary_round_aux.
  destruct (shr_fexp_spec m e l Hm He) as [He1 Hm1].
  destruct (shr_fexp prec emax m e l) as [mrs1 e1]. cbn [fst snd] in He1, Hm1.
  rewrite <- He1 in Hm1.
  set (D := Zdigits2 m + e) in *.
  set (m1 := shr_m mrs1) in *.
  set (m2 := round_nearest_even m1 (loc_of_shr_record mrs1)).
  assert (0 <= m1) as Hm1pos
    by (rewrite Hm1; apply Z.div_pos; [lia | apply Z.pow_pos_nonneg; lia]).
  assert (m2 = m1 \/ m2 = m1 + 1) as Hm2 by apply round_nearest_even_cases.
  assert (0 <= m2) as Hm2pos by lia.
  (* the exponent after the first shift is below what the second needs *)
  assert (0 < m2 -> e1 <= fexp prec emax (Zdigits2 m2 + e1)) as Hpre.
  { intros Hpos. destruct (Z.eq_dec m1 0) as [Hz|Hnz].
    - (* everything was shifted out: the exponent is the least one *)
      assert (D <= e1) as HD.
      { destruct (Z.eq_dec m 0) as [->|Hmz]; [unfold D; cbn; lia|].
        destruct (Z.lt_ge_cases (e1 - e) (Zdigits2 m)) as [Hlt|Hge]; [|unfold D; lia].
        destruct (div_pow2_pos m (e1 - e) ltac:(lia) ltac:(lia) Hlt) as [Hq _].
        lia. }
      assert (e1 = -1074) as -> by (rewrite He1, fexp_eq in *; lia).
      apply fexp_ge_emin.
    - assert (0 < m) as Hmpos.
      { destruct (Z.eq_dec m 0) as [->|]; [|lia].
        rewrite Z.div_0_l in Hm1; [lia|].
        pose proof (Z.pow_pos_nonneg 2 (e1 - e)); lia. }
      assert (e1 - e < Zdigits2 m) as Hlt.
      { destruct (Z.lt_ge_cases (e1 - e) (Zdigits2 m)) as [Hlt|Hge]; [exact Hlt|].
        rewrite (div_pow2_zero m (e1 - e)) in Hm1 by lia. lia. }
      destruct (div_pow2_pos m (e1 - e) Hmpos ltac:(lia) Hlt) as [_ Hd].
      rewrite <- Hm1 in Hd.
      assert (Zdigits2 m1 <= Zdigits2 m2) by (apply Zdigits2_mono; lia).
      rewrite He1 at 1. apply fexp_mono. unfold D. lia. }
  destruct (Z.eq_dec m2 0) as [Hz2|Hnz2].
  - (* the rounded mantissa is zero *)
    assert (shr_m (fst (shr_fexp prec emax m2 e1 loc_Exact)) = 0) as Hzero.
    { rewrite Hz2. unfold shr_fexp. cbn [Zdigits2 shr_record_of_loc].
      destruct (fexp prec emax (0 + e1) - e1) as [|p|p] eqn:En; cbn [shr fst shr_m];
        try reflexivity.
      rewrite iter_pos_nat, shr_m_iter by (cbn; lia). cbn [shr_m]. apply Z.div_0_l.
      pose proof (Z.pow_pos_nonneg 2 (Z.of_nat (Pos.to_nat p))); lia. }
    destruct (shr_fexp prec emax m2 e1 loc_Exact) as [mrs2 e2].
    cbn [fst] in Hzero. rewrite Hzero.
    split; [reflexivity|]. split; [left; reflexivity|].
    intros Hlt. exfalso.
    assert (0 < m) as Hmpos.
    { destruct (Z.eq_dec m 0) as [->|]; [|lia]. unfold D in *. cbn in *. lia. }
    assert (e1 - e < Zdigits2 m) by (unfold D in *; lia).
    destruct (div_pow2_pos m (e1 - e) Hmpos ltac:(lia) ltac:(lia)) as [Hq _].
    lia.
  - assert (0 < m2) as Hpos by lia. specialize (Hpre Hpos).
    destruct (shr_fexp_spec m2 e1 loc_Exact Hm2pos Hpre) as [He2 Hm3].
    destruct (shr_fexp prec emax m2 e1 loc_Exact) as [mrs2 e2].
    cbn [fst snd] in He2, Hm3.
    destruct (Zdigits2_bounds m2 Hpos) as (Hd2 & _).
    assert (e2 - e1 < Zdigits2 m2) as Hlt2.
    { rewrite He2, fexp_eq. pose proof (fexp_ge_emin D). lia. }
    destruct (div_pow2_pos m2 (e2 - e1) Hpos ltac:(lia) Hlt2) as [Hq Hd].
    rewrite <- He2 in Hm3. rewrite <- Hm3 in Hq, Hd.
    destruct (shr_m mrs2) as [|m3|m3] eqn:E3; try lia.
    destruct (Z.leb_spec e2 (emax - prec)) as [Hle|Hgt].
    + split; [|split].
      * cbn [valid_binary]. unfold bounded, canonical_mantissa.
        apply andb_true_intro. split; [|apply Z.leb_le; exact Hle].
        apply Z.eqb_eq. change (Z.pos (digits2_pos m3)) with (Zdigits2 (Z.pos m3)).
        rewrite Hd. replace (Zdigits2 m2 - (e2 - e1) + e2) with (Zdigits2 m2 + e1) by lia.
        now rewrite <- He2.
      * right. right. eauto.
      * discriminate.
    + split; [reflexivity|]. split; [right; left; reflexivity | discriminate].
Qed.

(** *** [binary_round] and [binary_normalize] *)

Lemma iter_xO (p m : positive) :
  Z.pos (Pos.iter xO m p) = Z.pos m * 2 ^ Z.pos p.
Proof.
  induction p as [|p IH] using Pos.peano_ind.
  - cbn. lia.
  - rewrite Pos.iter_succ, Pos2Z.inj_xO, IH, Pos2Z.inj_succ, Z.pow_succ_r by lia.
    lia.
Qed.

Lemma shl_align_spec (m : positive) (e e' : Z) :
  snd (shl_align m e e') = Z.min e e'
  /\ Z.pos (fst (shl_align m e e')) = Z.pos m * 2 ^ (e - Z.min e e').
Proof.
  unfold shl_align. destruct (e' - e) as [|d|d] eqn:E; cbn [fst snd].
  - replace (Z.min e e') with e by lia. rewrite Z.sub_diag. cbn. lia.
  - replace (Z.min e e') with e by lia. rewrite Z.sub_diag. cbn. lia.
  - replace (Z.min e e') with e' by lia. split; [reflexivity|].
    rewrite iter_xO. f_equal. f_equal. lia.
Qed.

Lemma binary_round_spec (s : bool) (m : positive) (e : Z) :
  valid_binary prec emax (binary_round prec emax s m e) = true
  /\ signed s (binary_round prec emax s m e)
  /\ (-1074 < Zdigits2 (Z.pos m) + e ->
      binary_round prec emax s m e <> S754_zero s).
Proof.
  unfold binary_round.
  change (Z.pos (digits2_pos m)) with (Zdigits2 (Z.pos m)).
  destruct (shl_align_spec m e (fexp prec emax (Zdigits2 (Z.pos m) + e)))
    as [He Hm].
  destruct (shl_align m e (fexp prec emax (Zdigits2 (Z.pos m) + e)))
    as [mz ez]. cbn [fst snd] in He, Hm.
  assert (Zdigits2 (Z.pos mz) + ez = Zdigits2 (Z.pos m) + e) as Hd.
  { rewrite Hm, Zdigits2_mul_pow2 by lia. lia. }
  destruct (binary_round_aux_spec s (Z.pos mz) ez loc_Exact) as (H1 & H2 & H3);
    [lia | rewrite Hd; lia |].
  split; [exact H1|]. split; [exact H2|].
  intros Hlt. apply H3. rewrite Hd, fexp_eq. lia.
Qed.

Lemma shr_exact (m e n : Z) :
  0 <= m -> 0 <= n ->
  shr {| shr_m := m * 2 ^ n; shr_r := false; shr_s := false |} e n
  = ({| shr_m := m; shr_r := false; shr_s := false |}, e + n).
Proof.
  intros Hm Hn. destruct n as [|p|p]; try lia; cbn [shr].
  - rewrite Z.pow_0_r, Z.mul_1_r, Z.add_0_r. reflexivity.
  - rewrite iter_pos_nat. rewrite <- (positive_nat_Z p) at 1.
    now rewrite shr_iter_exact.
Qed.

(** Rounding a value that has a canonical representation [m0 * 2^e0] gives
    that representation. *)
Lemma binary_round_exact (s : bool) (M m0 : positive) (E e0 : Z) :
  bounded prec emax m0 e0 = true ->
  Z.pos M * 2 ^ (E - Z.min E e0) = Z.pos m0 * 2 ^ (e0 - Z.min E e0) ->
  binary_round prec emax s M E = S754_finite s m0 e0.
Proof.
  intros Hb Heq. unfold bounded, canonical_mantissa in Hb.
  apply andb_prop in Hb as [Hc Hle]. apply Z.eqb_eq in Hc. apply Z.leb_le in Hle.
  change (Z.pos (digits2_pos m0)) with (Zdigits2 (Z.pos m0)) in Hc.
  assert (Zdigits2 (Z.pos M) + E = Zdigits2 (Z.pos m0) + e0) as Hd.
  { apply (f_equal Zdigits2) in Heq.
    rewrite !Zdigits2_mul_pow2 in Heq by lia. lia. }
  unfold binary_round.
  change (Z.pos (digits2_pos M)) with (Zdigits2 (Z.pos M)).
  rewrite Hd, Hc.
  destruct (shl_align_spec M E e0) as [He Hm].
  destruct (shl_align M E e0) as [mz ez]. cbn [fst snd] in He, Hm.
  rewrite Heq in Hm. subst ez.
  unfold binary_round_aux, shr_fexp.
  assert (Zdigits2 (Z.pos mz) + Z.min E e0 = Zdigits2 (Z.pos m0) + e0) as Hd'.
  { rewrite Hm, Zdigits2_mul_pow2 by lia. lia. }
  rewrite Hd', Hc. cbn [shr_record_of_loc]. rewrite Hm.
  rewrite shr_exact by lia.
  replace (Z.min E e0 + (e0 - Z.min E e0)) with e0 by lia.
  cbn [loc_of_shr_record shr_m round_nearest_even].
  rewrite Hc, Z.sub_diag. cbn [shr shr_m].
  now rewrite (proj2 (Z.leb_le _ _) Hle).
Qed.

(** *** Numbers *)

Lemma num_spec (z : Z) :
  valid_binary prec emax (num z) = true
  /\ (z = 0 -> num z = S754_zero false)
  /\ (0 < z -> signed false (num z) /\ num z <> S754_zero false)
  /\ (z < 0 -> signed true (num z) /\ num z <> S754_zero true).
Proof.
  unfold num. destruct z as [|p|p]; cbn [binary_normalize].
  - repeat split; try reflexivity; lia.
  - destruct (binary_round_spec false p 0) as (H1 & H2 & H3).
    repeat split; try assumption; try lia; try discriminate.
    apply H3. pose proof (Zdigits2_bounds (Z.pos p)); lia.
  - destruct (binary_round_spec true p 0) as (H1 & H2 & H3).
    repeat split; try assumption; try lia; try discriminate.
    apply H3. pose proof (Zdigits2_bounds (Z.pos p)); lia.
Qed.

Lemma repr_pos (v : Z) (x : number) : repr v x -> 0 <= v.
Proof.
  intros [[-> _]|(m & e & _ & _ & He & Hm)]; [lia|].
  pose proof (Z.pow_pos_nonneg 2 (- e)). nia.
Qed.

Lemma binary_round_repr (s : bool) (M m0 : positive) (E e0 v : Z) :
  bounded prec emax m0 e0 = true ->
  E <= 0 -> e0 <= 0 ->
  Z.pos M = v * 2 ^ (- E) -> Z.pos m0 = v * 2 ^ (- e0) ->
  binary_round prec emax s M E = S754_finite s m0 e0.
Proof.
  intros Hb HE He0 HM Hm0. apply binary_round_exact; [exact Hb|].
  rewrite HM, Hm0, <- !Z.mul_assoc, <- !Z.pow_add_r by lia.
  f_equal. f_equal. lia.
Qed.

Lemma num_of_repr (v : Z) (x : number) : repr v x -> x = num v.
Proof.
  intros [[-> ->]|(m & e & -> & Hb & He & Hm)]; [reflexivity|].
  assert (0 < v) as Hv by (pose proof (Z.pow_pos_nonneg 2 (- e)); nia).
  unfold num. destruct v as [|p|p]; try lia. cbn [binary_normalize].
  symmetry. apply (binary_round_repr false p m 0 e (Z.pos p)); try lia; try assumption.
Qed.

Lemma num_repr (v : Z) : 0 <= v < 2 ^ 53 -> repr v (num v).
Proof.
  intros [H0 Hlt]. destruct (Z.eq_dec v 0) as [->|Hne]; [left; now split|].
  right. destruct (Zdigits2_bounds v ltac:(lia)) as (Hd & Hlo & Hhi).
  assert (Zdigits2 v <= 53) as Hd53.
  { destruct (Z.le_gt_cases (Zdigits2 v) 53) as [H|H]; [exact H|].
    assert (2 ^ 53 <= 2 ^ (Zdigits2 v - 1)) by (apply Z.pow_le_mono_r; lia).
    lia. }
  set (e := Zdigits2 v - 53).
  assert (0 < v * 2 ^ (- e)) as Hpos
    by (pose proof (Z.pow_pos_nonneg 2 (- e)); nia).
  destruct (v * 2 ^ (- e)) as [|m|m] eqn:Em; try lia.
  assert (bounded prec emax m e = true) as Hb.
  { unfold bounded, canonical_mantissa. apply andb_true_intro. split.
    - apply Z.eqb_eq. change (Z.pos (digits2_pos m)) with (Zdigits2 (Z.pos m)).
      rewrite <- Em, Zdigits2_mul_pow2, fexp_eq by lia. unfold e. lia.
    - apply Z.leb_le. unfold e, emax, prec. lia. }
  exists m, e.
  split; [|split; [exact Hb|split; [unfold e; lia | now symmetry]]].
  destruct v as [|p|p]; try lia. unfold num. cbn [binary_normalize].
  apply (binary_round_repr false p m 0 e (Z.pos p)); try assumption;
    try (unfold e; lia); try (now symmetry).
Qed.

(** Addition is exact on the safe integers. *)
Lemma js_add_repr (a b : Z) (x y : number) :
  repr a x -> repr b y -> a + b < 2 ^ 53 -> js_add x y = num (a + b).
Proof.
  intros Hx Hy Hlt.
  pose proof (repr_pos _ _ Hx) as Ha. pose proof (repr_pos _ _ Hy) as Hb.
  destruct Hx as [[-> ->]|(mx & ex & -> & Hbx & Hex & Hmx)].
  { destruct Hy as [[-> ->]|(my & ey & -> & Hby & Hey & Hmy)]; [reflexivity|].
    cbn [js_add SFadd]. unfold js_add; cbn [SFadd]. rewrite Z.add_0_l.
    apply num_of_repr. right. now exists my, ey. }
  destruct Hy as [[-> ->]|(my & ey & -> & Hby & Hey & Hmy)].
  { unfold js_add; cbn [SFadd]. rewrite Z.add_0_r.
    apply num_of_repr. right. now exists mx, ex. }
  assert (0 < a) as Hapos by (pose proof (Z.pow_pos_nonneg 2 (- ex)); nia).
  assert (0 < b) as Hbpos by (pose proof (Z.pow_pos_nonneg 2 (- ey)); nia).
  destruct (num_repr (a + b) ltac:(lia)) as [[H0 _]|(m0 & e0 & Hn & Hb0 & He0 & Hm0)];
    [lia|].
  rewrite Hn. unfold js_add; cbn [SFadd cond_Zopp].
  destruct (shl_align_spec mx ex (Z.min ex ey)) as [_ Hsx].
  destruct (shl_align_spec my ey (Z.min ex ey)) as [_ Hsy].
  replace (Z.min ex (Z.min ex ey)) with (Z.min ex ey) in Hsx by lia.
  replace (Z.min ey (Z.min ex ey)) with (Z.min ex ey) in Hsy by lia.
  set (ez := Z.min ex ey) in *.
  change (Z.pos (fst (shl_align mx ex ez)) + Z.pos (fst (shl_align my ey ez)))
    with (Z.pos (fst (shl_align mx ex ez) + fst (shl_align my ey ez))).
  cbn [binary_normalize].
  apply (binary_round_repr false _ m0 ez e0 (a + b)); try assumption;
    [unfold ez; lia|].
  rewrite Pos2Z.inj_add, Hsx, Hsy, Hmx, Hmy.
  rewrite <- !Z.mul_assoc, <- !Z.pow_add_r by (unfold ez; lia).
  replace (- ex + (ex - ez)) with (- ez) by lia.
  replace (- ey + (ey - ez)) with (- ez) by lia. lia.
Qed.

(** *** Multiplication and division *)

Lemma Zdigits2_pow2 (k : Z) : 0 <= k -> Zdigits2 (2 ^ k) = k + 1.
Proof.
  intros Hk. replace (2 ^ k) with (1 * 2 ^ k) by lia.
  rewrite Zdigits2_mul_pow2 by lia. change (Zdigits2 1) with 1. lia.
Qed.

Lemma Zdigits2_div (a b : Z) :
  0 < a -> 0 < b -> Zdigits2 a - Zdigits2 b <= Zdigits2 (a / b).
Proof.
  intros Ha Hb.
  destruct (Zdigits2_bounds a Ha) as (Hda & Hlo & _).
  destruct (Zdigits2_bounds b Hb) as (Hdb & _ & Hhi).
  destruct (Z.le_gt_cases (Zdigits2 a - Zdigits2 b) 0) as [H|H];
    [pose proof (Zdigits2_nonneg (a / b)); lia|].
  set (k := Zdigits2 a - Zdigits2 b) in *.
  assert (2 ^ (k - 1) <= a / b) as Hq.
  { apply Z.div_le_lower_bound; [lia|].
    assert (2 ^ Zdigits2 b * 2 ^ (k - 1) = 2 ^ (Zdigits2 a - 1)) as E
      by (rewrite <- Z.pow_add_r by lia; f_equal; unfold k; lia).
    pose proof (Z.pow_pos_nonneg 2 (k - 1)). nia. }
  assert (0 < 2 ^ (k - 1)) as Hp by (apply Z.pow_pos_nonneg; lia).
  pose proof (Zdigits2_mono (2 ^ (k - 1)) (a / b) Hp Hq) as Hm.
  rewrite Zdigits2_pow2 in Hm by lia. lia.
Qed.

Lemma Zdigits2_mul (a b : Z) :
  0 < a -> 0 < b -> Zdigits2 a + Zdigits2 b - 1 <= Zdigits2 (a * b).
Proof.
  intros Ha Hb.
  destruct (Zdigits2_bounds a Ha) as (Hda & Hloa & _).
  destruct (Zdigits2_bounds b Hb) as (Hdb & Hlob & _).
  assert (2 ^ (Zdigits2 a + Zdigits2 b - 2) <= a * b) as Hq.
  { replace (Zdigits2 a + Zdigits2 b - 2)
      with ((Zdigits2 a - 1) + (Zdigits2 b - 1)) by lia.
    rewrite Z.pow_add_r by lia.
    pose proof (Z.pow_pos_nonneg 2 (Zdigits2 a - 1)).
    pose proof (Z.pow_pos_nonneg 2 (Zdigits2 b - 1)). nia. }
  assert (0 < 2 ^ (Zdigits2 a + Zdigits2 b - 2)) as Hp
    by (apply Z.pow_pos_nonneg; lia).
  pose proof (Zdigits2_mono _ _ Hp Hq) as Hm.
  rewrite Zdigits2_pow2 in Hm by lia. lia.
Qed.

Lemma bounded_inv (m : positive) (e : Z) :
  bounded prec emax m e = true ->
  e = Z.max (Zdigits2 (Z.pos m) + e - 53) (-1074) /\ e <= 971.
Proof.
  unfold bounded, canonical_mantissa. intros [Hc Hle]%andb_prop.
  apply Z.eqb_eq in Hc. apply Z.leb_le in Hle.
  change (Z.pos (digits2_pos m)) with (Zdigits2 (Z.pos m)) in Hc.
  rewrite fexp_eq in Hc. unfold emax, prec in Hle. lia.
Qed.

Lemma SFdiv_finite (sx : bool) (mx : positive) (ex : Z)
  (sy : bool) (my : positive) (ey : Z) :
  valid_binary prec emax
    (js_div (S754_finite sx mx ex) (S754_finite sy my ey)) = true
  /\ signed (xorb sx sy)
       (js_div (S754_finite sx mx ex) (S754_finite sy my ey)).
Proof.
  unfold js_div; cbn [SFdiv]. unfold SFdiv_core_binary.
  set (X := Zdigits2 (Z.pos mx) + ex - (Zdigits2 (Z.pos my) + ey)).
  set (e' := Z.min (fexp prec emax X) (ex - ey)).
  set (s := ex - ey - e').
  assert (0 <= s) as Hs by (unfold s, e'; lia).
  assert (s = ex - ey - e') as Es by reflexivity. clearbody s.
  set (m' := match s with
             | 0 => Z.pos mx
             | Z.pos _ => Z.shiftl (Z.pos mx) s
             | Z.neg _ => 0
             end).
  assert (m' = Z.pos mx * 2 ^ s) as Hm'.
  { unfold m'. destruct s as [|p|p]; try lia.
    now rewrite Z.shiftl_mul_pow2 by lia. }
  clearbody m'.
  assert (0 < m') as Hpos by (pose proof (Z.pow_pos_nonneg 2 s); nia).
  destruct (Z.div_eucl m' (Z.pos my)) as [q r] eqn:E.
  assert (q = m' / Z.pos my) as Hq by (unfold Z.div; now rewrite E).
  destruct (binary_round_aux_spec (xorb sx sy) q e'
              (new_location (Z.pos my) r)) as (H1 & H2 & _).
  - rewrite Hq. apply Z.div_pos; lia.
  - pose proof (Zdigits2_div m' (Z.pos my) Hpos ltac:(lia)) as Hd.
    rewrite <- Hq, Hm', Zdigits2_mul_pow2 in Hd by lia.
    transitivity (fexp prec emax X); [unfold e'; lia|].
    apply fexp_mono. unfold X. lia.
  - split; assumption.
Qed.

Lemma SFmul_finite (sx : bool) (mx : positive) (ex : Z)
  (sy : bool) (my : positive) (ey : Z) :
  bounded prec emax mx ex = true -> bounded prec emax my ey = true ->
  valid_binary prec emax
    (js_mul (S754_finite sx mx ex) (S754_finite sy my ey)) = true
  /\ signed (xorb sx sy)
       (js_mul (S754_finite sx mx ex) (S754_finite sy my ey)).
Proof.
  intros [Hx _]%bounded_inv [Hy _]%bounded_inv.
  unfold js_mul; cbn [SFmul].
  destruct (binary_round_aux_spec (xorb sx sy) (Z.pos (mx * my)) (ex + ey)
              loc_Exact) as (H1 & H2 & _); [lia| |split; assumption].
  pose proof (Zdigits2_mul (Z.pos mx) (Z.pos my) ltac:(lia) ltac:(lia)) as Hd.
  pose proof (Zdigits2_bounds (Z.pos mx) ltac:(lia)) as (Hdx & _).
  pose proof (Zdigits2_bounds (Z.pos my) ltac:(lia)) as (Hdy & _).
  rewrite Pos2Z.inj_mul, fexp_eq. lia.
Qed.

Lemma signed_not_nan (s : bool) (x : number) : signed s x -> x <> NaN.
Proof. intros [->|[->|(m & e & ->)]]; discriminate. Qed.

Lemma js_div_valid (x y : number) :
  valid_binary prec emax x = true -> valid_binary prec emax y = true ->
  valid_binary prec emax (js_div x y) = true.
Proof.
  intros _ _. destruct x as [sx|sx| |sx mx ex], y as [sy|sy| |sy my ey];
    try reflexivity.
  apply SFdiv_finite.
Qed.

Lemma js_mul_valid (x y : number) :
  valid_binary prec emax x = true -> valid_binary prec emax y = true ->
  valid_binary prec emax (js_mul x y) = true.
Proof.
  intros Hx Hy. destruct x as [sx|sx| |sx mx ex], y as [sy|sy| |sy my ey];
    try reflexivity.
  now apply SFmul_finite.
Qed.

Lemma binary_normalize_valid (z e : Z) (s : bool) :
  valid_binary prec emax (binary_normalize prec emax z e s) = true.
Proof.
  destruct z; cbn [binary_normalize]; [reflexivity| |]; apply binary_round_spec.
Qed.

Lemma js_sub_valid (x y : number) :
  valid_binary prec emax x = true -> valid_binary prec emax y = true ->
  valid_binary prec emax (js_sub x y) = true.
Proof.
  intros Hx Hy. destruct x as [sx|sx| |sx mx ex], y as [sy|sy| |sy my ey];
    try reflexivity; try exact Hx; try exact Hy;
    unfold js_sub; cbn [SFsub].
  - now destruct sx, sy.
  - now destruct sx, sy.
  - apply binary_normalize_valid.
Qed.

Lemma js_add_valid (x y : number) :
  valid_binary prec emax x = true -> valid_binary prec emax y = true ->
  valid_binary prec emax (js_add x y) = true.
Proof.
  intros Hx Hy. destruct x as [sx|sx| |sx mx ex], y as [sy|sy| |sy my ey];
    try reflexivity; try exact Hx; try exact Hy;
    unfold js_add; cbn [SFadd].
  - now destruct sx, sy.
  - now destruct sx, sy.
  - apply binary_normalize_valid.
Qed.

(** *** Comparisons *)

Lemma huge_pos : 0 < huge.
Proof. apply Z.pow_pos_nonneg; lia. Qed.

Lemma mag_bounds (m : positive) (e : Z) :
  bounded prec emax m e = true -> 0 < mag m e < huge.
Proof.
  intros [Hc Hle]%bounded_inv. unfold mag, huge.
  destruct (Zdigits2_bounds (Z.pos m) ltac:(lia)) as (Hd & _ & Hhi).
  pose proof (Z.pow_pos_nonneg 2 (e + 1074) ltac:(lia) ltac:(lia)) as Hp.
  split; [nia|].
  assert (2 ^ Zdigits2 (Z.pos m) <= 2 ^ 53) as H53
    by (apply Z.pow_le_mono_r; lia).
  assert (2 ^ (e + 1074) <= 2 ^ 2045) as H2045
    by (apply Z.pow_le_mono_r; lia).
  assert (2 ^ 53 * 2 ^ 2045 < 2 ^ 2200) as Hlt
    by (rewrite <- Z.pow_add_r by lia; apply Z.pow_lt_mono_r; lia).
  set (A := 2 ^ 53) in *. set (B := 2 ^ 2045) in *. set (C := 2 ^ 2200) in *.
  set (P := 2 ^ (e + 1074)) in *. set (Dg := 2 ^ Zdigits2 (Z.pos m)) in *.
  clearbody A B C P Dg.
  assert (Z.pos m * P <= A * B); [|lia].
  transitivity (A * P); nia.
Qed.

Lemma mag_lt (m1 : positive) (e1 : Z) (m2 : positive) (e2 : Z) :
  bounded prec emax m1 e1 = true -> bounded prec emax m2 e2 = true ->
  e1 < e2 -> mag m1 e1 < mag m2 e2.
Proof.
  intros [H1 _]%bounded_inv [H2 _]%bounded_inv Hlt. unfold mag.
  destruct (Zdigits2_bounds (Z.pos m1) ltac:(lia)) as (Hd1 & _ & Hhi1).
  destruct (Zdigits2_bounds (Z.pos m2) ltac:(lia)) as (Hd2 & Hlo2 & _).
  assert (Zdigits2 (Z.pos m2) = 53) as E2 by lia. rewrite E2 in Hlo2.
  assert (2 ^ Zdigits2 (Z.pos m1) <= 2 ^ 53) as H53
    by (apply Z.pow_le_mono_r; lia).
  pose proof (Z.pow_pos_nonneg 2 (e1 + 1074) ltac:(lia) ltac:(lia)) as Hp.
  assert (2 * 2 ^ (e1 + 1074) <= 2 ^ (e2 + 1074)) as Hpow.
  { rewrite <- Z.pow_succ_r by lia. apply Z.pow_le_mono_r; lia. }
  change (2 ^ (53 - 1)) with (2 ^ 52) in Hlo2.
  assert (2 * 2 ^ 52 = 2 ^ 53) as E53 by reflexivity.
  set (A := 2 ^ 53) in *. set (B := 2 ^ 52) in *.
  set (P := 2 ^ (e1 + 1074)) in *. set (Q := 2 ^ (e2 + 1074)) in *.
  set (Dg := 2 ^ Zdigits2 (Z.pos m1)) in *.
  clearbody A B P Q Dg.
  assert (Z.pos m1 * P < A * P) by nia.
  assert (A * P <= Z.pos m2 * Q); [|lia].
  transitivity (B * Q); nia.
Qed.

Lemma mag_compare (m1 : positive) (e1 : Z) (m2 : positive) (e2 : Z) :
  bounded prec emax m1 e1 = true -> bounded prec emax m2 e2 = true ->
  match e1 ?= e2 with
  | Lt => Lt
  | Gt => Gt
  | Eq => Pos.compare_cont Eq m1 m2
  end = (mag m1 e1 ?= mag m2 e2).
Proof.
  intros H1 H2. destruct (Z.compare_spec e1 e2) as [->|Hlt|Hgt].
  - unfold mag. apply bounded_inv in H2 as [H2 _].
    rewrite <- Zmult_compare_compat_r
      by (apply Z.lt_gt, Z.pow_pos_nonneg; lia).
    reflexivity.
  - symmetry. apply Z.compare_lt_iff. now apply mag_lt.
  - symmetry. apply Z.compare_gt_iff. now apply mag_lt.
Qed.

Lemma SFcompare_valZ (x y : number) :
  wf x -> wf y -> SFcompare x y = Some (valZ x ?= valZ y).
Proof.
  intros [Vx Nx] [Vy Ny]. pose proof huge_pos as Hh.
  destruct x as [sx|sx| |sx mx ex]; try congruence;
  destruct y as [sy|sy| |sy my ey]; try congruence;
  cbn [valid_binary] in Vx, Vy;
  try (pose proof (mag_bounds _ _ Vx)); try (pose proof (mag_bounds _ _ Vy));
  cbn [SFcompare valZ]; f_equal;
  try (solve [ destruct sx, sy; symmetry;
               first [ apply Z.compare_eq_iff; lia
                     | apply Z.compare_lt_iff; lia
                     | apply Z.compare_gt_iff; lia ] ]).
  destruct sx, sy.
  - rewrite Z.compare_opp, (Z.compare_antisym (mag mx ex) (mag my ey)).
    rewrite <- (mag_compare mx ex my ey Vx Vy).
    now destruct (ex ?= ey).
  - symmetry. apply Z.compare_lt_iff; lia.
  - symmetry. apply Z.compare_gt_iff; lia.
  - apply mag_compare; assumption.
Qed.

Lemma js_lt_valZ (x y : number) :
  wf x -> wf y -> js_lt x y = (valZ x <? valZ y).
Proof.
  intros Hx Hy. unfold js_lt, SFltb, Z.ltb.
  now rewrite (SFcompare_valZ x y Hx Hy).
Qed.

Lemma js_gt_valZ (x y : number) :
  wf x -> wf y -> js_gt x y = (valZ y <? valZ x).
Proof. intros Hx Hy. now apply js_lt_valZ. Qed.

Lemma js_eq_valZ (x y : number) :
  wf x -> wf y -> js_eq x y = (valZ x =? valZ y).
Proof.
  intros Hx Hy. unfold js_eq, SFeqb.
  rewrite (SFcompare_valZ x y Hx Hy).
  destruct (Z.compare_spec (valZ x) (valZ y)) as [E|E|E]; symmetry;
    [apply Z.eqb_eq | apply Z.eqb_neq | apply Z.eqb_neq]; lia.
Qed.

Lemma js_ge_valZ (x y : number) :
  wf x -> wf y -> js_ge x y = (valZ y <=? valZ x).
Proof.
  intros Hx Hy. unfold js_ge, SFleb, Z.leb.
  rewrite (SFcompare_valZ y x Hy Hx). now destruct (valZ y ?= valZ x).
Qed.

Lemma cond_Zopp_valZ (s : bool) (m : positive) (e ez : Z) :
  bounded prec emax m e = true -> -1074 <= ez <= e ->
  valZ (S754_finite s m e)
  = cond_Zopp s (Z.pos (fst (shl_align m e ez))) * 2 ^ (ez + 1074).
Proof.
  intros Hb Hez. destruct (shl_align_spec m e ez) as [_ Hm].
  rewrite Hm. replace (Z.min e ez) with ez by lia.
  assert (mag m e = Z.pos m * 2 ^ (e - ez) * 2 ^ (ez + 1074)) as E.
  { unfold mag. rewrite <- Z.mul_assoc, <- Z.pow_add_r by lia.
    f_equal. f_equal. lia. }
  cbn [valZ]. destruct s; cbn [cond_Zopp]; rewrite E; lia.
Qed.

(** The sign of a difference is the order of its operands: no difference
    of two distinct doubles rounds to zero. *)
Lemma js_sub_sign (x y : number) :
  wf x -> wf y ->
  js_gt (js_sub x y) (S754_zero false) = (valZ y <? valZ x).
Proof.
  intros [Vx Nx] [Vy Ny]. pose proof huge_pos as Hh.
  destruct x as [sx|sx| |sx mx ex]; try congruence;
  destruct y as [sy|sy| |sy my ey]; try congruence;
  cbn [valid_binary] in Vx, Vy;
  try (pose proof (mag_bounds _ _ Vx)); try (pose proof (mag_bounds _ _ Vy));
  unfold js_gt, js_sub; cbn [SFsub valZ];
  try (solve [ destruct sx, sy; cbn [SFltb SFcompare]; symmetry;
               first [ apply Z.ltb_lt; lia | apply Z.ltb_ge; lia ] ]).
  destruct (bounded_inv _ _ Vx) as [Hex _], (bounded_inv _ _ Vy) as [Hey _].
  pose proof (cond_Zopp_valZ sx mx ex (Z.min ex ey) Vx ltac:(lia)) as Ex.
  pose proof (cond_Zopp_valZ sy my ey (Z.min ex ey) Vy ltac:(lia)) as Ey.
  cbn [valZ] in Ex, Ey. rewrite Ex, Ey.
  set (cx := cond_Zopp sx _) in *. set (cy := cond_Zopp sy _) in *.
  pose proof (Z.pow_pos_nonneg 2 (Z.min ex ey + 1074) ltac:(lia) ltac:(lia))
    as HK.
  set (K := 2 ^ (Z.min ex ey + 1074)) in *. clearbody cx cy K.
  destruct (cx - cy) as [|p|p] eqn:Ez; cbn [binary_normalize].
  - cbn. symmetry. apply Z.ltb_ge. nia.
  - destruct (binary_round_spec false p (Z.min ex ey)) as (_ & Hs & Hnz).
    specialize (Hnz ltac:(pose proof (Zdigits2_bounds (Z.pos p)); lia)).
    replace (cy * K <? cx * K) with true by (symmetry; apply Z.ltb_lt; nia).
    destruct Hs as [E|[E|(m & e & E)]]; [congruence| |]; now rewrite E.
  - destruct (binary_round_spec true p (Z.min ex ey)) as (_ & Hs & _).
    replace (cy * K <? cx * K) with false by (symmetry; apply Z.ltb_ge; nia).
    destruct Hs as [E|[E|(m & e & E)]]; now rewrite E.
Qed.

End Binary64.

Lemma num_0 : num 0 = S754_zero false.
Proof. reflexivity. Qed.

Lemma num_valid (z : Z) : valid_binary prec emax (num z) = true.
Proof. apply num_spec. Qed.




Lemma signed_js_ge_zero (x : number) :
  signed false x -> js_ge x (num 0) = true.
Proof. intros [->|[->|(m & e & ->)]]; reflexivity. Qed.

Lemma is_fin_wf (x : number) : is_fin x -> wf x.
Proof. intros [Hv Hx]. split; [exact Hv|]. now destruct x. Qed.

(** ** [calculatePercentage] *)

Lemma calculatePercentage_eq (h f : number) :
  calculatePercentage h f
  = if js_gt f (num 0) then js_mul (js_div h f) (num 100) else num 0.
Proof.
  unfold calculatePercentage, calculatePercentage_traced.
  now destruct (js_gt f (num 0)).
Qed.




(** ** [calculateCoverage] *)

Lemma fold_reducer_files (l : list FileCoverage) (acc : Acc) :
  acc_files (fold_left reducer l acc) = acc_files acc ++ l.
Proof.
  revert acc. induction l as [|f l IH]; intros acc; cbn [fold_left].
  - now rewrite app_nil_r.
  - rewrite IH. cbn [reducer acc_files]. now rewrite <- app_assoc.
Qed.

Lemma calculateCoverage_files (report : list FileCoverage) :
  files (calculateCoverage report None) = report.
Proof.
  unfold calculateCoverage. case_bool_decide as Hlen.
  - destruct report; [reflexivity | discriminate].
  - cbn [files]. now rewrite fold_reducer_files.
Qed.

Lemma foundTotal_cons (p : string) (nf nh : Z) (l : list (string * Z * Z)) :
  foundTotal ((p, nf, nh) :: l) = nf + foundTotal l.
Proof. reflexivity. Qed.

Lemma hitTotal_cons (p : string) (nf nh : Z) (l : list (string * Z * Z)) :
  hitTotal ((p, nf, nh) :: l) = nh + hitTotal l.
Proof. reflexivity. Qed.

Lemma totals_nonneg (l : list (string * Z * Z)) :
  Forall (fun '(p, nf, nh) => 0 <= nf /\ 0 <= nh) l ->
  0 <= foundTotal l /\ 0 <= hitTotal l.
Proof.
  induction 1 as [|[[p nf] nh] l [Hf Hh] _ [IHf IHh]]; [split; reflexivity|].
  rewrite foundTotal_cons, hitTotal_cons. lia.
Qed.

(** The [reduce] over records with safe integer counters computes the
    integer sums. *)
Lemma fold_reducer_safe (l : list (string * Z * Z)) (F H : Z)
  (fs : list FileCoverage) :
  Forall (fun '(p, nf, nh) => 0 <= nf /\ 0 <= nh) l ->
  0 <= F -> 0 <= H ->
  F + foundTotal l < 2 ^ 53 -> H + hitTotal l < 2 ^ 53 ->
  fold_left reducer (entries l)
    {| acc_found := num F; acc_hit := num H; acc_files := fs |}
  = {| acc_found := num (F + foundTotal l);
       acc_hit := num (H + hitTotal l);
       acc_files := fs ++ entries l |}.
Proof.
  intros Hl. revert F H fs.
  induction Hl as [|[[p nf] nh] l [Hf Hh] Hl IH]; intros F H fs HF HH HFl HHl.
  - cbn. now rewrite !Z.add_0_r, app_nil_r.
  - destruct (totals_nonneg l Hl) as [Tf Th].
    rewrite foundTotal_cons in HFl. rewrite hitTotal_cons in HHl.
    unfold entries. rewrite fmap_cons. fold (entries l). cbn [fold_left].
    unfold reducer at 2, entry. cbn [acc_found acc_hit acc_files lines found hit].
    rewrite (js_add_repr F nf), (js_add_repr H nh)
      by (try apply num_repr; lia).
    rewrite IH by lia.
    rewrite foundTotal_cons, hitTotal_cons, !Z.add_assoc, <- app_assoc.
    reflexivity.
Qed.

Lemma calculateCoverage_safe (l : list (string * Z * Z)) :
  safeCounters l ->
  calculateCoverage (entries l) None
  = {| total_found := num (foundTotal l);
       total_hit := num (hitTotal l);
       percentage :=
         calculatePercentage (num (hitTotal l)) (num (foundTotal l));
       files := entries l |}.
Proof.
  intros (Hl & HF & HH). unfold calculateCoverage.
  case_bool_decide as Hlen.
  - destruct l; [reflexivity | discriminate].
  - rewrite (fold_reducer_safe l 0 0 []) by (try assumption; lia).
    reflexivity.
Qed.

(** C4, as amended.  For a report whose counters are non-negative integers
    with sums below [2^53], the aggregate without a filter has as its found
    and hit counters the sums of those counters over the entries of the
    report; and for every report whatsoever its files are the entries of
    the report in their order. *)
Theorem calculateCoverage_sums (l : list (string * Z * Z)) :
  safeCounters l ->
  total_found (calculateCoverage (entries l) None) = num (foundTotal l)
  /\ total_hit (calculateCoverage (entries l) None) = num (hitTotal l)
  /\ files (calculateCoverage (entries l) None) = entries l
  /\ (forall report : list FileCoverage,
        files (calculateCoverage report None) = report).
Proof.
  intros Hsafe. rewrite (calculateCoverage_safe l Hsafe). cbn.
  repeat split. apply calculateCoverage_files.
Qed.

Lemma calculateCoverage_sums_witness :
  let l := [("a.ex", 10, 7); ("b.ex", 4, 0); ("c.ex", 0, 0)] in
  safeCounters l
  /\ total_found (calculateCoverage (entries l) None) = num 14
  /\ total_hit (calculateCoverage (entries l) None) = num 7.
Proof.
  cbn zeta.
  assert (safeCounters [("a.ex", 10, 7); ("b.ex", 4, 0); ("c.ex", 0, 0)])
    as Hsafe.
  { split; [repeat constructor; lia|]. split; reflexivity. }
  split; [exact Hsafe|].
  split; [exact (proj1 (calculateCoverage_sums _ Hsafe))
         | exact (proj1 (proj2 (calculateCoverage_sums _ Hsafe)))].
Defined.

(** C4, the claim as stated fails: the found counters [2^53], [1] and [1]
    (all of them values that [parseInt] returns for their digits) have the
    sum [2^53 + 2], a double, but the aggregate has [2^53]: each addition
    of [1] is rounded away. *)
Lemma unsafe_sum_counterexample :
  let report :=
    entries [("a.ex", 2 ^ 53, 0); ("b.ex", 1, 0); ("c.ex", 1, 0)] in
  parseInt "9007199254740992" = num (2 ^ 53)
  /\ total_found (calculateCoverage report None) = num (2 ^ 53)
  /\ num (2 ^ 53 + 1 + 1) = S754_finite false 4503599627370497 1
  /\ total_found (calculateCoverage report None)
     = S754_finite false 4503599627370496 1
  /\ js_eq (total_found (calculateCoverage report None))
           (num (2 ^ 53 + 1 + 1)) = false.
Proof. cbn zeta. repeat split; vm_compute; reflexivity. Qed.

Lemma calculateCoverage_no_match_aux
  (report : list FileCoverage) (changed : gset string) :
  changed ≠ ∅ ->
  (forall f, f ∈ report -> file f ∉ changed) ->
  calculateCoverage report (Some changed) = emptyCoverage.
Proof.
  intros Hne Hnone. unfold calculateCoverage.
  assert (0 < size changed)%nat as Hsize.
  { destruct (decide (size changed = 0%nat)) as [E|E]; [|lia].
    apply size_empty_inv in E. exfalso. apply Hne. now apply leibniz_equiv. }
  rewrite (bool_decide_eq_true_2 (0 < size changed)%nat) by exact Hsize.
  assert (filter (fun f => file f ∈ changed) report = []) as ->.
  { induction report as [|f report IH]; [reflexivity|].
    rewrite filter_cons_False by (apply Hnone; left).
    apply IH. intros g Hg. apply Hnone. now right. }
  reflexivity.
Qed.

(** C5.  When the filter set is not empty and none of its members is the
    path of an entry of the report, the aggregate is exactly the empty
    aggregate. *)
Theorem calculateCoverage_no_match
  (report : list FileCoverage) (changed : gset string) :
  changed ≠ ∅ ->
  (forall f, f ∈ report -> file f ∉ changed) ->
  calculateCoverage report (Some changed) = emptyCoverage
  /\ emptyCoverage = {| total_found := num 0; total_hit := num 0;
                        percentage := num 0; files := [] |}.
Proof.
  intros Hne Hnone. split; [|reflexivity].
  now apply calculateCoverage_no_match_aux.
Qed.

Lemma calculateCoverage_no_match_witness :
  let report := [entry "lib/a.ex" 10 7] in
  let changed : gset string := {["README.md"]} in
  changed ≠ ∅
  /\ (forall f, f ∈ report -> file f ∉ changed)
  /\ calculateCoverage report (Some changed) = emptyCoverage.
Proof.
  cbn zeta.
  assert (({["README.md"]} : gset string) ≠ ∅) as Hne.
  { intros E. apply (f_equal size) in E. vm_compute in E. discriminate. }
  assert (forall f, f ∈ [entry "lib/a.ex" 10 7] ->
                    file f ∉ ({["README.md"]} : gset string)) as Hnone.
  { intros f Hf. apply list_elem_of_singleton in Hf as ->.
    cbn. rewrite elem_of_singleton. discriminate. }
  split; [exact Hne|]. split; [exact Hnone|].
  apply (calculateCoverage_no_match _ _ Hne Hnone).
Defined.

(** ** Strings and paths *)

Lemma split_nonempty (sep : ascii) (s : string) : split sep s <> [].
Proof.
  destruct s as [|c s]; cbn; [discriminate|].
  destruct (Ascii.eqb c sep); [discriminate|].
  destruct (split sep s); discriminate.
Qed.

Lemma split_app_sep (sep : ascii) (a b : string) :
  split sep (a +:+ String sep b) = split sep a ++ split sep b.
Proof.
  induction a as [|c a IH]; simpl.
  - now rewrite Ascii.eqb_refl.
  - rewrite IH. destruct (Ascii.eqb c sep); [reflexivity|].
    pose proof (split_nonempty sep a).
    destruct (split sep a); [contradiction | reflexivity].
Qed.

Lemma split_pieces (sep : ascii) (s : string) :
  Forall (fun w => hasChar sep w = false) (split sep s).
Proof.
  induction s as [|c s IH]; cbn; [repeat constructor|].
  destruct (Ascii.eqb c sep) eqn:E; [constructor; [reflexivity | exact IH]|].
  destruct (split sep s) as [|w ws]; [repeat constructor; cbn; now rewrite E|].
  inversion IH; subst. constructor; [cbn; now rewrite E | assumption].
Qed.

Lemma split_plain (sep : ascii) (w : string) :
  hasChar sep w = false -> split sep w = [w].
Proof.
  induction w as [|c w IH]; cbn; [reflexivity|].
  intros [E Hw]%orb_false_elim. rewrite E, (IH Hw). reflexivity.
Qed.

Lemma split_join (sep : ascii) (parts : list string) :
  parts <> [] ->
  Forall (fun w => hasChar sep w = false) parts ->
  split sep (join (String sep EmptyString) parts) = parts.
Proof.
  induction parts as [|p [|q ps] IH]; intros Hne Hall; [contradiction| |].
  - cbn. apply split_plain. now inversion Hall.
  - change (join (String sep EmptyString) (p :: q :: ps))
      with (p +:+ String sep (join (String sep EmptyString) (q :: ps))).
    inversion Hall; subst.
    rewrite split_app_sep, split_plain, IH by (assumption || discriminate).
    reflexivity.
Qed.

Lemma Forall_removelast {A : Type} (P : A -> Prop) (l : list A) :
  Forall P l -> Forall P (removelast l).
Proof.
  induction 1 as [|x l Hx Hl IH]; cbn; [constructor|].
  destruct l; [constructor | constructor; assumption].
Qed.

Lemma normalize_kept (segs acc : list string) :
  Forall keptSegment acc ->
  Forall (fun w => hasChar "/" w = false) segs ->
  Forall keptSegment (fold_left normalizeStep segs acc).
Proof.
  revert acc. induction segs as [|seg segs IH]; intros acc Hacc Hsegs;
    [exact Hacc|].
  inversion Hsegs; subst. cbn [fold_left]. apply IH; [|assumption].
  unfold normalizeStep.
  destruct (String.eqb seg EmptyString || String.eqb seg ".") eqn:E1;
    [assumption|].
  destruct (String.eqb seg "..") eqn:E2; [now apply Forall_removelast|].
  apply Forall_app; split; [assumption|].
  constructor; [|constructor]. split; [|assumption].
  unfold isProper. now rewrite E1, E2.
Qed.

Lemma normalize_proper (segs acc : list string) :
  Forall keptSegment segs ->
  fold_left normalizeStep segs acc = acc ++ segs.
Proof.
  revert acc. induction segs as [|seg segs IH]; intros acc Hsegs; cbn.
  - now rewrite app_nil_r.
  - inversion Hsegs as [|? ? [Hp _] Hrest]; subst.
    rewrite IH by assumption. unfold normalizeStep.
    unfold isProper in Hp. apply negb_true_iff in Hp.
    apply orb_false_elim in Hp as [Hp ->]. rewrite Hp.
    now rewrite <- app_assoc.
Qed.

Lemma stripCommon_prefix (common rest : list string) :
  stripCommon common (common ++ rest) = ([], rest).
Proof.
  induction common as [|c common IH]; cbn; [now destruct rest|].
  now rewrite String.eqb_refl.
Qed.

(** A name in the working directory is resolved and made relative again
    to itself. *)
Lemma relative_resolve_x (cwd : string) :
  isAbsolute cwd = true ->
  relative cwd cwd (resolve cwd "x") = "x".
Proof.
  intros Habs.
  pose (C := normalizeSegments (split "/" cwd)).
  assert (Forall keptSegment C) as HC.
  { apply normalize_kept; [constructor | apply split_pieces]. }
  assert (resolvedSegments cwd "x" = C ++ ["x"]) as Hx.
  { unfold resolvedSegments. change (isAbsolute "x") with false. cbn iota.
    change (cwd +:+ "/" +:+ "x") with (cwd +:+ String "/" "x").
    rewrite split_app_sep. unfold normalizeSegments.
    rewrite fold_left_app. reflexivity. }
  assert (resolvedSegments cwd cwd = C) as Hc.
  { unfold resolvedSegments. now rewrite Habs. }
  unfold relative, resolve. rewrite Hc, Hx.
  assert (resolvedSegments cwd ("/" +:+ join "/" (C ++ ["x"])) = C ++ ["x"])
    as ->.
  { unfold resolvedSegments.
    change ("/" +:+ join "/" (C ++ ["x"]))
      with (String "/" (join "/" (C ++ ["x"]))).
    change (isAbsolute (String "/" (join "/" (C ++ ["x"])))) with true.
    cbn iota. cbn [split]. rewrite Ascii.eqb_refl.
    rewrite split_join.
    - unfold normalizeSegments. cbn [fold_left].
      change (normalizeStep [] EmptyString) with (@nil string).
      rewrite normalize_proper; [reflexivity|].
      apply Forall_app; split; [exact HC|]. repeat constructor.
    - now destruct C.
    - apply Forall_app; split.
      + eapply Forall_impl; [exact HC|]. now intros w [_ Hw].
      + repeat constructor. }
  rewrite stripCommon_prefix. reflexivity.
Qed.

(** ** [parseLcovFile] *)

Lemma startsWith_LF_not_SF (line : string) :
  startsWith line "LF:" = true \/ startsWith line "LH:" = true ->
  startsWith line "SF:" = false.
Proof.
  destruct line as [|c line]; [intros [H|H]; discriminate|].
  cbn [startsWith]. destruct (Ascii.eqb_spec c "S") as [->|]; [|reflexivity].
  intros [H|H]; discriminate.
Qed.

Lemma startsWith_app (p s : string) : startsWith (p +:+ s) p = true.
Proof.
  induction p as [|c p IH]; simpl; [reflexivity|].
  now rewrite Ascii.eqb_refl.
Qed.

Lemma parseLine_closed (cwd : string) (files : list FileCoverage)
  (line : string) :
  startsWith line "SF:" = false ->
  parseLine cwd (files, None) line = (files, None).
Proof. intros H. unfold parseLine. now rewrite H. Qed.

Lemma fold_parseLine_files (cwd : string) (ls : list string)
  (files : list FileCoverage) (cur : option FileCoverage) :
  fold_left (parseLine cwd) ls (files, cur) =
  (files ++ fst (fold_left (parseLine cwd) ls ([], cur)),
   snd (fold_left (parseLine cwd) ls ([], cur))).
Proof.
  revert files cur. induction ls as [|l ls IH]; intros files cur.
  - cbn. now rewrite app_nil_r.
  - cbn [fold_left].
    assert (exists pushed cur',
      forall fs, parseLine cwd (fs, cur) l = (fs ++ pushed, cur'))
      as (pushed & cur' & Hstep).
    { unfold parseLine. destruct (startsWith l "SF:");
        [eexists [], _; intros; now rewrite app_nil_r|].
      destruct cur as [c|]; [|eexists [], _; intros; now rewrite app_nil_r].
      destruct (startsWith l "LF:");
        [eexists [], _; intros; now rewrite app_nil_r|].
      destruct (startsWith l "LH:");
        [eexists [], _; intros; now rewrite app_nil_r|].
      destruct (String.eqb l "end_of_record");
        [eexists [c], _; intros; reflexivity|].
      eexists [], _; intros; now rewrite app_nil_r. }
    rewrite (Hstep files), (Hstep []). cbn [app].
    rewrite (IH (files ++ pushed)), (IH pushed). cbn [fst snd].
    now rewrite app_assoc.
Qed.

Lemma parseLine_SF (cwd : string) (files : list FileCoverage)
  (cur : option FileCoverage) (p : string) :
  parseLine cwd (files, cur) ("SF:" +:+ p)
  = (files, Some (openedRecord cwd p)).
Proof. unfold parseLine. now rewrite startsWith_app. Qed.

Lemma parseLine_LF (cwd : string) (files : list FileCoverage)
  (cur : FileCoverage) (field : string) :
  parseLine cwd (files, Some cur) ("LF:" +:+ field)
  = (files, Some (updateFound (parseInt field) cur)).
Proof.
  unfold parseLine.
  rewrite (startsWith_LF_not_SF ("LF:" +:+ field))
    by (left; apply startsWith_app).
  now rewrite startsWith_app.
Qed.

Lemma parseLine_LH (cwd : string) (files : list FileCoverage)
  (cur : FileCoverage) (field : string) :
  parseLine cwd (files, Some cur) ("LH:" +:+ field)
  = (files, Some (updateHit (parseInt field) cur)).
Proof.
  unfold parseLine.
  rewrite (startsWith_LF_not_SF ("LH:" +:+ field))
    by (right; apply startsWith_app).
  change (startsWith ("LH:" +:+ field) "LF:") with false. cbn iota.
  now rewrite startsWith_app.
Qed.

(** C7.  The text [SF:x], [LF:10], [end_of_record], which has no [LH:]
    line, parses to the one record [{ file: x, found: 10, hit: 0 }]: the hit
    counter keeps the [0] it got when the record was opened. *)
Theorem parse_record_without_LH (w : World) (path : string) :
  isAbsolute (cwd w) = true ->
  fs w path
  = Some (FileNode ("SF:x" +:+ nl +:+ "LF:10" +:+ nl +:+ "end_of_record")) ->
  parseLcovFile w path
  = Ok [{| file := "x"; lines := {| found := num 10; hit := num 0 |} |}].
Proof.
  intros Habs Hfile. unfold parseLcovFile, readFileSync. rewrite Hfile.
  cbn [bind]. f_equal. unfold parseLcov.
  replace (split LF_char ("SF:x" +:+ nl +:+ "LF:10" +:+ nl +:+ "end_of_record"))
    with ["SF:x"; "LF:10"; "end_of_record"] by reflexivity.
  unfold parseLines. cbn [fold_left].
  replace (parseLine (cwd w) ([], None) "SF:x")
    with (@nil FileCoverage,
          Some {| file := relative (cwd w) (cwd w) (resolve (cwd w) "x");
                  lines := {| found := num 0; hit := num 0 |} |})
    by reflexivity.
  rewrite relative_resolve_x by exact Habs. reflexivity.
Qed.

Lemma parse_record_without_LH_witness :
  let w := lcovWorld ("SF:x" +:+ nl +:+ "LF:10" +:+ nl +:+ "end_of_record") in
  isAbsolute (cwd w) = true
  /\ parseLcovFile w "cover/lcov.info"
     = Ok [{| file := "x"; lines := {| found := num 10; hit := num 0 |} |}].
Proof.
  split; [reflexivity|].
  apply parse_record_without_LH; reflexivity.
Defined.

(** C9.  An [LF:] or [LH:] line met while no record is open changes
    nothing: the scan state stays as it is, and the report is the one the
    text gives without that line.  No record is open before the first [SF:]
    line and after an [end_of_record] line. *)
Theorem stray_counter_ignored (cwd : string) (line : string) :
  startsWith line "LF:" = true \/ startsWith line "LH:" = true ->
  (forall files, parseLine cwd (files, None) line = (files, None))
  /\ (forall before after,
         openRecord cwd before = None ->
         parseLines cwd (before ++ line :: after)
         = parseLines cwd (before ++ after))
  /\ (forall before,
         Forall (fun l => startsWith l "SF:" = false) before ->
         openRecord cwd before = None)
  /\ (forall before, openRecord cwd (before ++ ["end_of_record"]) = None).
Proof.
  intros Hline. apply startsWith_LF_not_SF in Hline.
  split; [|split; [|split]].
  - intros files. now apply parseLine_closed.
  - intros before after Hclosed. unfold parseLines, openRecord in *.
    rewrite !fold_left_app. cbn [fold_left].
    destruct (fold_left (parseLine cwd) before ([], None)) as [files cur].
    cbn in Hclosed. subst cur. now rewrite parseLine_closed.
  - intros before Hno. unfold openRecord.
    enough (forall files,
      snd (fold_left (parseLine cwd) before (files, None)) = None) by auto.
    induction Hno as [|l before Hl _ IH]; intros files; [reflexivity|].
    cbn [fold_left]. rewrite parseLine_closed by exact Hl. apply IH.
  - intros before. unfold openRecord. rewrite fold_left_app. cbn [fold_left].
    destruct (fold_left (parseLine cwd) before ([], None)) as [files [cur|]];
      reflexivity.
Qed.

Lemma stray_counter_ignored_witness :
  startsWith "LF:7" "LF:" = true
  /\ parseLines "/srv"
       (["LH:3"; "end_of_record"] ++ "LF:7" :: ["SF:a"; "end_of_record"])
     = parseLines "/srv"
         (["LH:3"; "end_of_record"] ++ ["SF:a"; "end_of_record"]).
Proof.
  split; [reflexivity|].
  apply (stray_counter_ignored "/srv" "LF:7"); [now left | reflexivity].
Defined.

Lemma parseLine_counter (cwd : string) (files : list FileCoverage)
  (cur : FileCoverage) (k : Counter) (field : string) :
  parseLine cwd (files, Some cur) (counterTag k +:+ field)
  = (files, Some (setCounter k (parseInt field) cur)).
Proof. destruct k; [apply parseLine_LF | apply parseLine_LH]. Qed.

Lemma parseLine_keepsCounter (cwd : string) (files : list FileCoverage)
  (cur : FileCoverage) (k : Counter) (line : string) :
  keepsCounter k line = true ->
  exists cur',
    parseLine cwd (files, Some cur) line = (files, Some cur')
    /\ file cur' = file cur /\ counterOf k cur' = counterOf k cur.
Proof.
  unfold keepsCounter.
  intros [[Hsf Htag]%andb_prop Hend]%andb_prop.
  apply negb_true_iff in Hsf, Htag, Hend.
  unfold parseLine. rewrite Hsf, Hend.
  destruct k; cbn [counterTag] in Htag; rewrite Htag.
  - destruct (startsWith line "LH:"); eexists; repeat split.
  - destruct (startsWith line "LF:"); eexists; repeat split.
Qed.

Lemma fold_keepsCounter (cwd : string) (k : Counter) (middle : list string)
  (files : list FileCoverage) (cur : FileCoverage) :
  Forall (fun line => keepsCounter k line = true) middle ->
  exists cur',
    fold_left (parseLine cwd) middle (files, Some cur) = (files, Some cur')
    /\ file cur' = file cur /\ counterOf k cur' = counterOf k cur.
Proof.
  intros Hmid. revert cur.
  induction Hmid as [|line middle Hline _ IH]; intros cur.
  - exists cur. repeat split.
  - cbn [fold_left].
    destruct (parseLine_keepsCounter cwd files cur k line Hline)
      as (c1 & -> & Hf1 & Hc1).
    destruct (IH c1) as (c2 & -> & Hf2 & Hc2).
    exists c2. repeat split; congruence.
Qed.

Lemma counterOf_setCounter (k : Counter) (n : number) (f : FileCoverage) :
  counterOf k (setCounter k n f) = n /\ file (setCounter k n f) = file f.
Proof. destruct k; split; reflexivity. Qed.

Lemma digitsPrefix_Some (a : Z) (s : string) :
  is_Some (digitsPrefix (Some a) s).
Proof.
  revert a. induction s as [|c s IH]; intros a; cbn [digitsPrefix]; [eauto|].
  destruct (digitValue c); [apply IH | eauto].
Qed.

Lemma binary_normalize_not_nan (z e : Z) (s : bool) :
  binary_normalize prec emax z e s <> NaN.
Proof.
  destruct z as [|p|p]; cbn [binary_normalize]; [discriminate| |].
  - apply (signed_not_nan false), binary_round_spec.
  - apply (signed_not_nan true), binary_round_spec.
Qed.

(** [parseInt] gives NaN exactly when no digit follows the white space and
    the sign. *)
Lemma parseInt_nan (field : string) :
  (leadingDigit field = false -> parseInt field = NaN)
  /\ (leadingDigit field = true -> parseInt field <> NaN).
Proof.
  unfold leadingDigit, parseInt.
  destruct (splitSign (trimStart field)) as [negative body]. cbn [snd].
  destruct body as [|c body]; cbn [digitsPrefix]; [split; easy|].
  destruct (digitValue c) as [d|] eqn:Ed.
  - rewrite bool_decide_eq_true_2 by eauto.
    destruct (digitsPrefix_Some (10 * default 0 None + d) body) as [n ->].
    split; [discriminate|]. intros _. apply binary_normalize_not_nan.
  - rewrite bool_decide_eq_false_2 by (intros [x Hx]; discriminate).
    split; easy.
Qed.

(** C1, as amended.  For every input text containing an [LF:] or [LH:]
    line whose trailing field is not a well-formed base-10 integer, met
    while a record is open, parsing raises no error: the report is returned,
    and once an [end_of_record] line closes the record (with no [SF:] line
    and no line of the same tag in between) the report has that record, with
    the counter of the line set to what [parseInt] makes of the field, which
    is NaN exactly when no decimal digit follows the leading white space
    and the optional sign of the field. *)
Theorem malformed_counter_stored
  (w : World) (path content : string) (k : Counter)
  (before middle after : list string) (field : string)
  (cur : FileCoverage) :
  fs w path = Some (FileNode content) ->
  split LF_char content
  = before ++ (counterTag k +:+ field) :: middle ++ "end_of_record" :: after ->
  openRecord (cwd w) before = Some cur ->
  wellFormedInt field = false ->
  Forall (fun line => keepsCounter k line = true) middle ->
  exists report r,
    parseLcovFile w path = Ok report
    /\ report !! length (parseLines (cwd w) before) = Some r
    /\ file r = file cur
    /\ counterOf k r = parseInt field
    /\ (leadingDigit field = false -> counterOf k r = NaN)
    /\ (leadingDigit field = true -> counterOf k r <> NaN).
Proof.
  intros Hfile Hsplit Hopen _ Hmid.
  unfold parseLcovFile, readFileSync. rewrite Hfile. cbn [bind].
  unfold parseLcov. rewrite Hsplit.
  unfold parseLines, openRecord in *.
  rewrite fold_left_app.
  destruct (fold_left (parseLine (cwd w)) before ([], None)) as [files c0].
  cbn [snd] in Hopen. subst c0. cbn [fst fold_left].
  rewrite parseLine_counter, fold_left_app.
  destruct (fold_keepsCounter (cwd w) k middle files
              (setCounter k (parseInt field) cur) Hmid)
    as (r & -> & Hfr & Hcr).
  destruct (counterOf_setCounter k (parseInt field) cur) as [Hc Hf].
  rewrite Hc in Hcr. rewrite Hf in Hfr.
  cbn [fold_left].
  assert (parseLine (cwd w) (files, Some r) "end_of_record"
          = (files ++ [r], None)) as -> by reflexivity.
  rewrite fold_parseLine_files. cbn [fst].
  eexists _, r. split; [reflexivity|].
  split; [|split; [exact Hfr|split; [exact Hcr|]]].
  - rewrite <- app_assoc. cbn [app].
    now rewrite list_lookup_middle.
  - rewrite Hcr. apply parseInt_nan.
Qed.

Lemma malformed_counter_stored_witness :
  let text :=
    "SF:x" +:+ nl +:+ "LF:12abc" +:+ nl +:+ "LH:3" +:+ nl
    +:+ "end_of_record" in
  let w := lcovWorld text in
  exists report r,
    parseLcovFile w "cover/lcov.info" = Ok report
    /\ report !! 0%nat = Some r
    /\ file r = "x"
    /\ counterOf Found r = parseInt "12abc".
Proof.
  cbn zeta.
  destruct (malformed_counter_stored
              (lcovWorld ("SF:x" +:+ nl +:+ "LF:12abc" +:+ nl +:+ "LH:3" +:+ nl
                          +:+ "end_of_record"))
              "cover/lcov.info"
              ("SF:x" +:+ nl +:+ "LF:12abc" +:+ nl +:+ "LH:3" +:+ nl
               +:+ "end_of_record")
              Found ["SF:x"] ["LH:3"] [] "12abc"
              {| file := "x"; lines := {| found := num 0; hit := num 0 |} |}
              eq_refl eq_refl eq_refl eq_refl
              ltac:(repeat constructor))
    as (report & r & H1 & H2 & H3 & H4 & _).
  exists report, r. repeat split; assumption.
Defined.

(** C1, the claim as stated fails: [abc] is no integer, the [LF:abc] line
    comes while the record of [x] is open, and yet the parser returns a
    report, whose record has NaN as its found counter; the run does not
    abort and, with no thresholds, does not even fail. *)
Lemma malformed_found_counterexample :
  let text := "SF:x" +:+ nl +:+ "LF:abc" +:+ nl +:+ "end_of_record" in
  wellFormedInt "abc" = false
  /\ parseLcovFile (lcovWorld text) "cover/lcov.info"
     = Ok [{| file := "x"; lines := {| found := NaN; hit := num 0 |} |}]
  /\ forall fmt,
       failures (run fmt (lcovWorld text) (lcovInputs (num 0) (num 0))) = [].
Proof. repeat split. Qed.

(** ** The threshold check of [run] *)

Lemma calculateCoverage_filtered
  (coverage : list FileCoverage) (changed : gset string) :
  calculateCoverage coverage (Some changed) =
  if bool_decide (0 < size changed)%nat
  then calculateCoverage (filter (fun f => file f ∈ changed) coverage) None
  else calculateCoverage coverage None.
Proof.
  unfold calculateCoverage.
  now destruct (bool_decide (0 < size changed)%nat).
Qed.

Lemma js_or_zero_not_nan (a : number) : js_or a (num 0) <> NaN.
Proof. unfold js_or. destruct a; cbn; discriminate. Qed.

Lemma SFcompare_antisym (x y : number) :
  SFcompare y x = option_map CompOpp (SFcompare x y).
Proof.
  destruct x as [sx|sx| |sx mx ex], y as [sy|sy| |sy my ey]; cbn;
    try destruct sx; try destruct sy; try reflexivity;
    rewrite (Z.compare_antisym ex ey);
    destruct (ex ?= ey)%Z; cbn; try reflexivity;
    rewrite ?CompOpp_involutive, ?Pos.compare_cont_antisym; reflexivity.
Qed.

Lemma SFcompare_Some (x y : number) :
  x <> NaN -> y <> NaN -> exists c, SFcompare x y = Some c.
Proof.
  intros Hx Hy. destruct x, y; try congruence; cbn; eauto.
Qed.

(** For numbers, [!(p >= m)] is [p < m]. *)
Lemma js_ge_false_lt (p m : number) :
  p <> NaN -> m <> NaN -> js_ge p m = false <-> js_lt p m = true.
Proof.
  intros Hp Hm. unfold js_ge, js_lt, SFleb, SFltb.
  rewrite (SFcompare_antisym p m).
  destruct (SFcompare_Some p m Hp Hm) as [c ->]. now destruct c.
Qed.

Lemma nonempty_size (changed : gset string) :
  changed ≠ ∅ <-> (0 < size changed)%nat.
Proof.
  split.
  - intros Hne. destruct (decide (size changed = 0%nat)) as [E|E]; [|lia].
    apply size_empty_inv in E. exfalso. apply Hne. now apply leibniz_equiv.
  - intros Hpos ->. rewrite size_empty in Hpos. lia.
Qed.

Lemma evaluate_inv (w : World) (i : Inputs) (c : Checked) :
  evaluate w i = Ok c ->
  exists coverage changed,
    parseLcovFile w (trim (lcov_file i)) = Ok coverage
    /\ getChangedFiles w = Ok changed
    /\ allCoverage c = calculateCoverage coverage None
    /\ changedCoverage c = calculateCoverage coverage (Some changed)
    /\ allFilesMin c = js_or (all_files_minimum_coverage i) (num 0)
    /\ changedFilesMin c = js_or (changed_files_minimum_coverage i) (num 0)
    /\ changedFiles c = changed
    /\ allPassed c = js_ge (percentage (allCoverage c)) (allFilesMin c)
    /\ changedPassed c
       = (bool_decide (size changed = 0%nat)
          || js_ge (percentage (changedCoverage c)) (changedFilesMin c))
    /\ passed c = allPassed c && changedPassed c.
Proof.
  unfold evaluate, getInput. intros H.
  destruct (String.eqb (lcov_file i) EmptyString); [discriminate|].
  destruct (String.eqb (github_token i) EmptyString); [discriminate|].
  cbn [andb bind] in H.
  destruct (negb (existsSync w (trim (lcov_file i)))); [discriminate|].
  destruct (parseLcovFile w (trim (lcov_file i))) as [coverage|];
    [|discriminate].
  destruct (getChangedFiles w) as [changed|]; [|discriminate].
  cbn [bind] in H.
  match type of H with
  | bind ?m _ = _ => destruct m as [summary|]; [|discriminate]
  end.
  cbn [bind] in H. injection H as <-. exists coverage, changed.
  cbn. repeat split; reflexivity.
Qed.

Lemma failed_run (fmt : NumberFormat) (w : World) (i : Inputs) (c : Checked) :
  evaluate w i = Ok c ->
  (eventName w = "pull_request" -> commentsOutage w = None) ->
  failed (run fmt w i) = negb (passed c).
Proof.
  intros Hc Hup. unfold run. rewrite Hc.
  destruct (String.eqb_spec (eventName w) "pull_request") as [E|E].
  - rewrite (Hup E). cbn [postComment].
    destruct (find hasMarker _); destruct (passed c); reflexivity.
  - destruct (passed c); reflexivity.
Qed.

(** C2, as amended.  In a run that raises no error and in which neither
    coverage percentage is NaN, the failing status is signalled exactly when
    the all-files percentage is below its minimum, or the set of changed
    files is not empty and the changed-files percentage is below its
    minimum; with an empty set of changed files the changed half passes. *)
Theorem run_fails_iff_below_minimum
  (fmt : NumberFormat) (w : World) (i : Inputs)
  (coverage : list FileCoverage) (changed : gset string) (c : Checked) :
  parseLcovFile w (trim (lcov_file i)) = Ok coverage ->
  getChangedFiles w = Ok changed ->
  evaluate w i = Ok c ->
  (eventName w = "pull_request" -> commentsOutage w = None) ->
  percentage (calculateCoverage coverage None) <> NaN ->
  percentage (calculateCoverage coverage (Some changed)) <> NaN ->
  failed (run fmt w i) = true
  <-> (js_lt (percentage (calculateCoverage coverage None))
             (js_or (all_files_minimum_coverage i) (num 0)) = true
       \/ (changed ≠ ∅
           /\ js_lt (percentage (calculateCoverage coverage (Some changed)))
                    (js_or (changed_files_minimum_coverage i) (num 0))
              = true)).
Proof.
  intros Hparse Hchanged Hc Hup F1 F2.
  rewrite (failed_run fmt w i c Hc Hup).
  destruct (evaluate_inv w i c Hc)
    as (cov' & ch' & Hp' & Hc' & Hall & Hch & Hmin1 & Hmin2 & _ & Ha & Hb & Hpass).
  rewrite Hparse in Hp'. injection Hp' as <-.
  rewrite Hchanged in Hc'. injection Hc' as <-.
  rewrite Hpass, Ha, Hb, Hall, Hch, Hmin1, Hmin2.
  assert (forall p m, p <> NaN ->
            (js_ge p (js_or m (num 0)) = false
             <-> js_lt p (js_or m (num 0)) = true)) as Hlt.
  { intros p m Fp. apply js_ge_false_lt; [exact Fp|].
    apply js_or_zero_not_nan. }
  rewrite negb_true_iff, andb_false_iff, orb_false_iff.
  rewrite !Hlt by assumption.
  rewrite bool_decide_eq_false, nonempty_size.
  intuition lia.
Qed.

Lemma run_fails_iff_below_minimum_witness :
  let w := pullRequestWorld twoFilesText ["a.ex"; "b.ex"] [] in
  let i := lcovInputs (num 80) (num 0) in
  let coverage := [entry "a.ex" 10 10; entry "b.ex" 10 0] in
  let changed : gset string := list_to_set ["a.ex"; "b.ex"] in
  parseLcovFile w (trim (lcov_file i)) = Ok coverage
  /\ getChangedFiles w = Ok changed
  /\ percentage (calculateCoverage coverage None) <> NaN
  /\ percentage (calculateCoverage coverage (Some changed)) <> NaN
  /\ (failed (run exampleFormat w i) = true
      <-> (js_lt (percentage (calculateCoverage coverage None))
                 (js_or (all_files_minimum_coverage i) (num 0)) = true
           \/ (changed ≠ ∅
               /\ js_lt
                    (percentage (calculateCoverage coverage (Some changed)))
                    (js_or (changed_files_minimum_coverage i) (num 0))
                  = true))).
Proof.
  cbn zeta.
  assert (percentage
            (calculateCoverage [entry "a.ex" 10 10; entry "b.ex" 10 0] None)
          <> NaN) as F1 by (vm_compute; discriminate).
  assert (percentage
            (calculateCoverage [entry "a.ex" 10 10; entry "b.ex" 10 0]
               (Some (list_to_set ["a.ex"; "b.ex"])))
          <> NaN) as F2 by (vm_compute; discriminate).
  split; [reflexivity|]. split; [reflexivity|].
  split; [exact F1|]. split; [exact F2|].
  eapply (run_fails_iff_below_minimum exampleFormat
            (pullRequestWorld twoFilesText ["a.ex"; "b.ex"] [])
            (lcovInputs (num 80) (num 0))).
  - reflexivity.
  - reflexivity.
  - vm_compute. reflexivity.
  - reflexivity.
  - exact F1.
  - exact F2.
Defined.

(** C2, the claim as stated fails, in two ways.  When the comment
    endpoints answer with an error, the catch block of [run] signals the
    failing status although neither percentage is below its minimum.  And
    when a percentage is NaN (here the quotient of two counters that
    [parseInt] reads as Infinity), the check fails although NaN is below
    no minimum. *)
Lemma failure_without_shortfall_counterexample :
  let i := lcovInputs (num 0) (num 0) in
  (let w :=
     {| fs := fs (pullRequestWorld twoFilesText ["a.ex"] []);
        cwd := "/home/runner/work/app";
        eventName := "pull_request";
        compareCommits := Ok ["a.ex"];
        commentsOutage := Some deniedError;
        comments := [];
        stackFrames := exampleFrames |} in
   let coverage := [entry "a.ex" 10 10; entry "b.ex" 10 0] in
   let changed : gset string := list_to_set ["a.ex"] in
   parseLcovFile w (trim (lcov_file i)) = Ok coverage
   /\ getChangedFiles w = Ok changed
   /\ failed (run exampleFormat w i) = true
   /\ js_lt (percentage (calculateCoverage coverage None))
            (js_or (all_files_minimum_coverage i) (num 0)) = false
   /\ js_lt (percentage (calculateCoverage coverage (Some changed)))
            (js_or (changed_files_minimum_coverage i) (num 0)) = false)
  /\ (let w :=
        lcovWorld ("SF:a.ex" +:+ nl +:+ "LF:" +:+ overflowingField +:+ nl
                   +:+ "LH:" +:+ overflowingField +:+ nl
                   +:+ "end_of_record") in
      let coverage :=
        [{| file := "a.ex";
            lines := {| found := S754_infinity false;
                        hit := S754_infinity false |} |}] in
      parseLcovFile w (trim (lcov_file i)) = Ok coverage
      /\ getChangedFiles w = Ok ∅
      /\ (exists c, evaluate w i = Ok c)
      /\ percentage (calculateCoverage coverage None) = NaN
      /\ failures (run exampleFormat w i) = [belowThreshold]
      /\ js_lt (percentage (calculateCoverage coverage None))
               (js_or (all_files_minimum_coverage i) (num 0)) = false).
Proof.
  cbn zeta. split.
  - repeat split; vm_compute; reflexivity.
  - split; [vm_compute; reflexivity|]. split; [reflexivity|].
    split; [eexists; vm_compute; reflexivity|].
    repeat split; vm_compute; reflexivity.
Qed.

Lemma js_gt_zero_below (m : number) :
  js_gt m (num 0) = true ->
  js_or m (num 0) = m /\ js_ge (num 0) m = false.
Proof. destruct m as [s|s| |s k e]; try destruct s; easy. Qed.

(** A run whose required inputs are supplied, whose LCOV file can be
    read, whose changed-file lister answers and whose test summary, if one
    is named, is no directory, reaches the threshold check. *)
Lemma evaluate_reaches_check
  (w : World) (i : Inputs) (content : string) (changed : gset string) :
  lcov_file i <> EmptyString ->
  github_token i <> EmptyString ->
  fs w (trim (lcov_file i)) = Some (FileNode content) ->
  getChangedFiles w = Ok changed ->
  trim (test_summary_file i) = EmptyString
  \/ fs w (trim (test_summary_file i)) <> Some DirNode ->
  exists c, evaluate w i = Ok c.
Proof.
  intros H1 H2 Hfs Hchanged Hsummary. unfold evaluate, getInput.
  rewrite (proj2 (String.eqb_neq _ _) H1), (proj2 (String.eqb_neq _ _) H2).
  cbn [andb bind]. unfold existsSync at 1. rewrite Hfs.
  rewrite bool_decide_eq_true_2 by eauto. cbn [negb].
  unfold parseLcovFile, readFileSync at 1. rewrite Hfs. cbn [bind].
  rewrite Hchanged. cbn [bind].
  destruct (String.eqb_spec (trim (test_summary_file i)) EmptyString)
    as [E|E]; [eexists; reflexivity|].
  destruct Hsummary as [?|Hdir]; [contradiction|].
  unfold existsSync, readFileSync.
  destruct (fs w (trim (test_summary_file i))) as [[text|]|] eqn:Es.
  - rewrite bool_decide_eq_true_2 by eauto. eexists; reflexivity.
  - contradiction.
  - rewrite bool_decide_eq_false_2 by (intros [x Hx]; discriminate).
    eexists; reflexivity.
Qed.

(** C10.  In a run that gets as far as the check (the required inputs are
    supplied, the LCOV file can be read, the changed-file lister answers
    and the test summary, if one is named, is no directory), when the set of
    changed files is not empty and none of its paths is the path of a record
    of the report, the changed-files aggregate is the empty aggregate, whose
    percentage is [0]; the changed half of the check compares that [0] with
    the changed-files minimum, and with a minimum above [0] that half does
    not pass and the run is marked failed by the check itself, with the
    message of the threshold. *)
Theorem unmatched_changed_files_fail
  (fmt : NumberFormat) (w : World) (i : Inputs)
  (content : string) (changed : gset string) :
  lcov_file i <> EmptyString ->
  github_token i <> EmptyString ->
  fs w (trim (lcov_file i)) = Some (FileNode content) ->
  getChangedFiles w = Ok changed ->
  trim (test_summary_file i) = EmptyString
  \/ fs w (trim (test_summary_file i)) <> Some DirNode ->
  changed ≠ ∅ ->
  (forall f, f ∈ parseLcov (cwd w) content -> file f ∉ changed) ->
  exists c,
    evaluate w i = Ok c
    /\ changedFiles c = changed
    /\ changedCoverage c = emptyCoverage
    /\ percentage (changedCoverage c) = num 0
    /\ changedPassed c
       = js_ge (num 0) (js_or (changed_files_minimum_coverage i) (num 0))
    /\ (js_gt (changed_files_minimum_coverage i) (num 0) = true ->
        changedPassed c = false
        /\ passed c = false
        /\ head (failures (run fmt w i)) = Some belowThreshold
        /\ failed (run fmt w i) = true).
Proof.
  intros H1 H2 Hfs Hchanged Hsummary Hne Hnone.
  destruct (evaluate_reaches_check w i content changed
              H1 H2 Hfs Hchanged Hsummary) as [c Hc].
  exists c. split; [exact Hc|].
  assert (parseLcovFile w (trim (lcov_file i))
          = Ok (parseLcov (cwd w) content)) as Hparse
    by (unfold parseLcovFile, readFileSync; now rewrite Hfs).
  pose proof (calculateCoverage_no_match_aux _ changed Hne Hnone) as Hempty.
  destruct (evaluate_inv w i c Hc)
    as (cov' & ch' & Hp' & Hc' & _ & Hch & _ & Hmin2 & Hfiles & _ & Hb & Hpass).
  rewrite Hparse in Hp'. injection Hp' as <-.
  rewrite Hchanged in Hc'. injection Hc' as <-.
  rewrite Hempty in Hch.
  assert (changedPassed c
          = js_ge (num 0) (js_or (changed_files_minimum_coverage i) (num 0)))
    as Hcheck.
  { rewrite Hb, Hch, Hmin2. cbn [percentage emptyCoverage].
    now rewrite bool_decide_eq_false_2 by (apply nonempty_size in Hne; lia). }
  split; [exact Hfiles|]. split; [exact Hch|]. split; [now rewrite Hch|].
  split; [exact Hcheck|].
  intros Hmin. destruct (js_gt_zero_below _ Hmin) as [Hor Hbelow].
  assert (changedPassed c = false) as Hfalse
    by (now rewrite Hcheck, Hor).
  assert (passed c = false) as Hnot
    by (now rewrite Hpass, Hfalse, andb_false_r).
  split; [exact Hfalse|]. split; [exact Hnot|].
  unfold run, failed. rewrite Hc, Hnot.
  destruct (String.eqb (eventName w) "pull_request"); [|now split].
  destruct (postComment _ _ _); now split.
Qed.

Lemma unmatched_changed_files_fail_witness :
  let w := pullRequestWorld twoFilesText ["README.md"] [] in
  let i := lcovInputs (num 0) (num 50) in
  failures (run exampleFormat w i) = [belowThreshold]
  /\ exists c,
       evaluate w i = Ok c
       /\ changedCoverage c = emptyCoverage
       /\ head (failures (run exampleFormat w i)) = Some belowThreshold.
Proof.
  cbn zeta. split; [vm_compute; reflexivity|].
  assert (({["README.md"]} ∪ ∅ : gset string) ≠ ∅) as Hne.
  { intros E. apply (f_equal size) in E. vm_compute in E. discriminate. }
  destruct (unmatched_changed_files_fail exampleFormat
              (pullRequestWorld twoFilesText ["README.md"] [])
              (lcovInputs (num 0) (num 50))
              twoFilesText ({["README.md"]} ∪ ∅))
    as (c & Hc & _ & Hcov & _ & _ & Hfail).
  - discriminate.
  - discriminate.
  - reflexivity.
  - reflexivity.
  - left. reflexivity.
  - exact Hne.
  - intros f Hf. rewrite elem_of_union, elem_of_singleton.
    intros [E|E]; [|now apply not_elem_of_empty in E].
    apply list_elem_of_In in Hf. vm_compute in Hf.
    destruct Hf as [<-|[<-|[]]]; discriminate.
  - exists c. split; [exact Hc|]. split; [exact Hcov|].
    now apply Hfail.
Defined.

(** ** [postComment] *)

Lemma includes_self_prefix (m rest : string) : includes (m +:+ rest) m = true.
Proof.
  destruct (m +:+ rest) eqn:E; cbn [includes]; rewrite <- E;
    now rewrite startsWith_app.
Qed.

(** A rendered document bears the marker. *)
Lemma buildComment_hasMarker
  (fmt : NumberFormat) (allCov changedCov : Coverage)
  (allMin changedMin : number) (passed hasChanged : bool)
  (testSummary : option string) :
  includes (buildComment fmt allCov changedCov allMin changedMin passed
              hasChanged testSummary) LCOV_COMMENT_MARKER = true.
Proof. unfold buildComment. apply includes_self_prefix. Qed.

Lemma markerComments_nil_Forall (l : list Comment) :
  markerComments l = [] <-> Forall (fun c => hasMarker c = false) l.
Proof.
  unfold markerComments. induction l as [|c l IH]; [easy|].
  destruct (hasMarker c) eqn:E.
  - rewrite filter_cons_True by exact E. split; [discriminate|].
    intros H. inversion H; congruence.
  - rewrite filter_cons_False by congruence. rewrite IH.
    split; [now constructor | now inversion 1].
Qed.

Lemma find_skip (l1 l : list Comment) :
  Forall (fun c => hasMarker c = false) l1 ->
  find hasMarker (l1 ++ l) = find hasMarker l.
Proof. induction 1 as [|c l1 Hc _ IH]; cbn; [reflexivity | now rewrite Hc]. Qed.

Lemma find_none_Forall (l : list Comment) :
  find hasMarker l = None -> Forall (fun c => hasMarker c = false) l.
Proof.
  induction l as [|c l IH]; cbn; [constructor|].
  destruct (hasMarker c) eqn:E; [discriminate | auto].
Qed.

Lemma updateComment_other (l : list Comment) (k : Z) (doc : string) :
  k ∉ id <$> l -> updateComment l k doc = l.
Proof.
  unfold updateComment. induction l as [|c l IH]; [reflexivity|].
  rewrite !fmap_cons, not_elem_of_cons. intros [Hk Hl]. rewrite (IH Hl).
  destruct (Z.eqb_spec (id c) k); [congruence | reflexivity].
Qed.

Lemma freshId_above (store : list Comment) (c : Comment) :
  c ∈ store -> id c < freshId store.
Proof.
  unfold freshId. induction 1 as [c l|c d l _ IH]; cbn; lia.
Qed.

Lemma freshId_new (store : list Comment) : freshId store ∉ id <$> store.
Proof.
  intros (c & E & Hc)%list_elem_of_fmap.
  apply freshId_above in Hc. lia.
Qed.

Lemma postComment_update
  (l1 l3 : list Comment) (e : Comment) (doc : string) :
  NoDup (id <$> l1 ++ e :: l3) ->
  Forall (fun c => hasMarker c = false) l1 ->
  hasMarker e = true ->
  (length l1 < MAX_FILES_PER_PAGE)%nat ->
  postComment None (l1 ++ e :: l3) doc
  = Ok (l1 ++ {| id := id e; body := Some doc |} :: l3).
Proof.
  intros Hnd Hl1 He Hlen. unfold postComment, listComments.
  rewrite take_app_ge by lia.
  destruct (MAX_FILES_PER_PAGE - length l1)%nat as [|n] eqn:En; [lia|].
  cbn [take]. rewrite find_skip by exact Hl1. cbn [find]. rewrite He.
  f_equal. rewrite fmap_app, fmap_cons in Hnd.
  apply NoDup_app in Hnd as (_ & Hdisj & Hnd3).
  apply NoDup_cons in Hnd3 as [He3 _].
  unfold updateComment. rewrite fmap_app, fmap_cons.
  fold (updateComment l1 (id e) doc). fold (updateComment l3 (id e) doc).
  rewrite !updateComment_other, Z.eqb_refl; [reflexivity | exact He3 |].
  intros Hin. apply (Hdisj _ Hin). left.
Qed.

Lemma postComment_create (store : list Comment) (doc : string) :
  Forall (fun c => hasMarker c = false) (listComments store) ->
  postComment None store doc = Ok (createComment store doc).
Proof.
  intros Hnone. unfold postComment.
  replace (find hasMarker (listComments store)) with (@None Comment);
    [reflexivity|].
  symmetry. induction Hnone as [|c l Hc _ IH]; cbn; [reflexivity|].
  now rewrite Hc.
Qed.

Lemma markerComments_single (l1 l3 : list Comment) (e : Comment) :
  Forall (fun c => hasMarker c = false) l1 ->
  Forall (fun c => hasMarker c = false) l3 ->
  hasMarker e = true ->
  markerComments (l1 ++ e :: l3) = [e].
Proof.
  intros H1 H3 He. unfold markerComments.
  rewrite filter_app, filter_cons_True by exact He.
  apply markerComments_nil_Forall in H1, H3. unfold markerComments in H1, H3.
  now rewrite H1, H3.
Qed.

(** C8, as amended.  Take a store whose comments have distinct
    identifiers, with at most one marker-bearing comment, that comment on
    the first page, and room on the first page when there is none.  Two
    reconciliations in succession, with rendered documents [doc1] then
    [doc2], both succeed and leave exactly one marker-bearing comment, whose
    body is [doc2].  When the store had a marker-bearing comment it is
    updated in place and no comment is added; when it had none, the first
    run adds one comment and the second updates that one. *)
Theorem postComment_twice (store : list Comment) (doc1 doc2 : string) :
  NoDup (id <$> store) ->
  (length (markerComments store) <= 1)%nat ->
  pageSuffices store ->
  includes doc1 LCOV_COMMENT_MARKER = true ->
  includes doc2 LCOV_COMMENT_MARKER = true ->
  exists s1 s2 c,
    postComment None store doc1 = Ok s1
    /\ postComment None s1 doc2 = Ok s2
    /\ markerComments s2 = [c]
    /\ body c = Some doc2
    /\ (markerComments store <> [] ->
        id <$> s1 = id <$> store /\ id <$> s2 = id <$> store)
    /\ (markerComments store = [] ->
        s1 = createComment store doc1 /\ id <$> s2 = id <$> s1).
Proof.
  intros Hnd Hone [Hpage Hroom] Hdoc1 Hdoc2.
  destruct (find hasMarker (listComments store)) as [e|] eqn:Hfind.
  - apply find_some in Hfind as [Hin He].
    apply list_elem_of_In, list_elem_of_split in Hin as (l1 & l2 & Hsplit).
    assert (store = l1 ++ e :: (l2 ++ drop MAX_FILES_PER_PAGE store)) as Hstore.
    { rewrite <- (take_drop MAX_FILES_PER_PAGE store) at 1.
      unfold listComments in Hsplit. rewrite Hsplit.
      now rewrite <- app_assoc. }
    set (l3 := l2 ++ drop MAX_FILES_PER_PAGE store) in *.
    assert (length l1 < MAX_FILES_PER_PAGE)%nat as Hlen.
    { assert (length (listComments store) <= MAX_FILES_PER_PAGE)%nat as Hle
        by (unfold listComments; rewrite length_take; apply Nat.le_min_l).
      rewrite Hsplit, length_app in Hle. cbn [length] in Hle. lia. }
    assert (Forall (fun c => hasMarker c = false) l1
            /\ Forall (fun c => hasMarker c = false) l3) as [H1 H3].
    { rewrite Hstore in Hone. unfold markerComments in Hone.
      rewrite filter_app, filter_cons_True, length_app in Hone by exact He.
      cbn [length] in Hone.
      split; apply markerComments_nil_Forall; unfold markerComments.
      - destruct (filter _ l1); [reflexivity | cbn in Hone; lia].
      - destruct (filter _ l3); [reflexivity | cbn in Hone; lia]. }
    set (e1 := {| id := id e; body := Some doc1 |}).
    set (e2 := {| id := id e; body := Some doc2 |}).
    exists (l1 ++ e1 :: l3), (l1 ++ e2 :: l3), e2.
    assert (id <$> l1 ++ e1 :: l3 = id <$> store) as Hids1
      by (now rewrite Hstore, !fmap_app, !fmap_cons).
    assert (id <$> l1 ++ e2 :: l3 = id <$> store) as Hids2
      by (now rewrite Hstore, !fmap_app, !fmap_cons).
    split; [|split; [|split; [|split; [|split]]]].
    + rewrite Hstore. apply postComment_update; try assumption.
      now rewrite <- Hstore.
    + apply (postComment_update l1 l3 e1 doc2); try assumption.
      now rewrite Hids1.
    + now apply markerComments_single.
    + reflexivity.
    + intros _. now split.
    + intros Hnil. apply markerComments_nil_Forall in Hnil.
      rewrite Hstore in Hnil. apply Forall_app in Hnil as [_ Hnil].
      inversion Hnil; congruence.
  - apply find_none_Forall in Hfind.
    assert (markerComments store = []) as Hnil.
    { rewrite <- Hpage. now apply markerComments_nil_Forall. }
    specialize (Hroom Hnil). apply markerComments_nil_Forall in Hnil.
    set (n1 := {| id := freshId store; body := Some doc1 |}).
    set (n2 := {| id := freshId store; body := Some doc2 |}).
    exists (store ++ [n1]), (store ++ [n2]), n2.
    split; [|split; [|split; [|split; [|split]]]].
    + now apply postComment_create.
    + apply (postComment_update store [] n1 doc2); try assumption.
      rewrite fmap_app. apply NoDup_app. split; [exact Hnd|].
      split; [|apply NoDup_singleton].
      intros k Hk Hin. change (id <$> [n1]) with [freshId store] in Hin.
      apply list_elem_of_singleton in Hin. subst k.
      now apply freshId_new in Hk.
    + apply markerComments_single; [assumption | constructor | assumption].
    + reflexivity.
    + intros Hne. exfalso. apply Hne. now apply markerComments_nil_Forall.
    + intros _. split; [reflexivity|]. now rewrite !fmap_app.
Qed.

Lemma postComment_twice_witness :
  let store := [{| id := 41; body := Some "Looks good to me" |};
                {| id := 42; body := None |}] in
  let doc1 := LCOV_COMMENT_MARKER +:+ nl +:+ "##  LCOV report (first run)" in
  let doc2 := LCOV_COMMENT_MARKER +:+ nl +:+ "##  LCOV report (second run)" in
  exists s1 s2 c,
    postComment None store doc1 = Ok s1
    /\ postComment None s1 doc2 = Ok s2
    /\ markerComments s2 = [c]
    /\ body c = Some doc2
    /\ (markerComments store <> [] ->
        id <$> s1 = id <$> store /\ id <$> s2 = id <$> store)
    /\ (markerComments store = [] ->
        s1 = createComment store doc1 /\ id <$> s2 = id <$> s1).
Proof.
  cbn zeta. apply postComment_twice.
  - change (NoDup [41; 42]). apply NoDup_cons. split; [|apply NoDup_singleton].
    rewrite list_elem_of_singleton. discriminate.
  - vm_compute. lia.
  - split; [reflexivity|]. intros _. vm_compute. lia.
  - reflexivity.
  - reflexivity.
Defined.

(** C8, the claim as stated fails: a store that already holds two
    marker-bearing comments, both on the first page, still holds two after
    two reconciliations; only the first of them is rewritten. *)
Lemma two_marker_comments_counterexample :
  let doc := buildComment exampleFormat emptyCoverage emptyCoverage
               (num 0) (num 0) true false None in
  let quoted := Some ("> " +:+ LCOV_COMMENT_MARKER +:+ " is how it finds it") in
  let store := [{| id := 1; body := Some (LCOV_COMMENT_MARKER +:+ "old") |};
                {| id := 2; body := quoted |}] in
  let after := [{| id := 1; body := Some doc |};
                {| id := 2; body := quoted |}] in
  postComment None store doc = Ok after
  /\ postComment None after doc = Ok after
  /\ length (markerComments after) = 2%nat.
Proof. cbn zeta. repeat split. Qed.

(** ** [Array.prototype.sort] *)

Section SortFacts.
Context {A : Type} (cmp : A -> A -> number) (P : A -> Prop).

(** [x] may stand before [y]. *)
Let R (x y : A) : Prop := js_gt (cmp x y) (num 0) = false.

Hypothesis cmp_asym :
  forall x y, P x -> P y -> js_gt (cmp x y) (num 0) = true -> R y x.
Hypothesis cmp_trans :
  forall x y z, P x -> P y -> P z -> R x y -> R y z -> R x z.

Lemma sortInsert_perm (x : A) (l : list A) : sortInsert cmp x l ≡ₚ x :: l.
Proof.
  induction l as [|y l IH]; cbn [sortInsert]; [reflexivity|].
  destruct (js_gt (cmp x y) (num 0)); [|reflexivity].
  rewrite IH. apply perm_swap.
Qed.

Lemma sort_perm (l : list A) : sort cmp l ≡ₚ l.
Proof.
  induction l as [|x l IH]; [reflexivity|].
  unfold sort in *. cbn [foldr]. now rewrite sortInsert_perm, IH.
Qed.

Lemma sortInsert_sorted (x : A) (l : list A) :
  P x -> Forall P l ->
  StronglySorted R l -> StronglySorted R (sortInsert cmp x l).
Proof.
  intros Hx Hl Hs. induction Hs as [|y l Hs IH Hy]; cbn [sortInsert].
  - repeat constructor.
  - inversion Hl as [|? ? Py Pl]; subst.
    destruct (js_gt (cmp x y) (num 0)) eqn:E.
    + constructor; [now apply IH|].
      rewrite sortInsert_perm. constructor; [|exact Hy].
      now apply cmp_asym.
    + constructor; [now constructor|].
      constructor; [exact E|].
      rewrite Forall_forall in Hy, Pl |- *. intros z Hz.
      apply (cmp_trans x y z); auto.
Qed.

Lemma sort_sorted (l : list A) :
  Forall P l -> StronglySorted R (sort cmp l).
Proof.
  induction 1 as [|x l Hx Hl IH]; [constructor|].
  unfold sort. cbn [foldr]. fold (sort cmp l).
  apply sortInsert_sorted; [exact Hx | | exact IH].
  now rewrite sort_perm.
Qed.

Lemma sorted_lookup (l : list A) (i j : nat) (a b : A) :
  StronglySorted R l ->
  l !! i = Some a -> l !! j = Some b -> (i < j)%nat -> R a b.
Proof.
  intros Hs. revert i j. induction Hs as [|x l Hs IH Hx]; intros i j Ha Hb Hij.
  - discriminate.
  - destruct j as [|j]; [lia|]. destruct i as [|i]; cbn in Ha, Hb.
    + injection Ha as <-. rewrite Forall_forall in Hx. apply Hx.
      eapply list_elem_of_lookup_2, Hb.
    + apply (IH i j); [assumption | assumption | lia].
Qed.

(** In the sorted list, [a] stands before every [b] that the comparator
    puts behind it. *)
Lemma sort_before (l : list A) (i j : nat) (a b : A) :
  Forall P l ->
  sort cmp l !! i = Some a -> sort cmp l !! j = Some b ->
  js_gt (cmp b a) (num 0) = true -> (i < j)%nat.
Proof.
  intros Hl Ha Hb Hgt.
  assert (Forall P (sort cmp l)) as Hs by (now rewrite sort_perm).
  rewrite Forall_forall in Hs.
  assert (P a) as Pa by (eapply Hs, list_elem_of_lookup_2, Ha).
  assert (P b) as Pb by (eapply Hs, list_elem_of_lookup_2, Hb).
  destruct (Nat.lt_trichotomy i j) as [Hlt|[->|Hlt]]; [exact Hlt| |].
  - rewrite Ha in Hb. injection Hb as <-.
    pose proof (cmp_asym a a Pa Pa Hgt) as Hr. unfold R in Hr. congruence.
  - pose proof (sorted_lookup _ j i b a (sort_sorted l Hl) Hb Ha Hlt) as Hr.
    unfold R in Hr. congruence.
Qed.

(** Stability: the elements of a class whose members the comparator
    does not put behind one another keep their order. *)
Lemma sort_stable (Q : A -> bool) (l : list A) :
  (forall x y, Q x = true -> Q y = true ->
               js_gt (cmp x y) (num 0) = false) ->
  filter (fun x => Q x = true) (sort cmp l)
  = filter (fun x => Q x = true) l.
Proof.
  intros Hties.
  assert (forall x k,
    filter (fun x => Q x = true) (sortInsert cmp x k)
    = filter (fun x => Q x = true) (x :: k)) as Hins.
  { intros x k. induction k as [|y k IH]; cbn [sortInsert]; [reflexivity|].
    destruct (js_gt (cmp x y) (num 0)) eqn:E; [|reflexivity].
    destruct (Q x) eqn:Qx.
    - assert (Q y = false) as Qy.
      { destruct (Q y) eqn:Qy; [|reflexivity].
        rewrite (Hties x y Qx Qy) in E. discriminate. }
      rewrite (filter_cons_False _ y) by congruence. rewrite IH.
      rewrite !(filter_cons_True _ x) by exact Qx.
      now rewrite (filter_cons_False _ y) by congruence.
    - rewrite (filter_cons_False _ x) by congruence.
      destruct (Q y) eqn:Qy.
      + rewrite !(filter_cons_True _ y) by exact Qy. rewrite IH.
        now rewrite (filter_cons_False _ x) by congruence.
      + rewrite !(filter_cons_False _ y) by congruence. rewrite IH.
        now rewrite (filter_cons_False _ x) by congruence. }
  induction l as [|x l IH]; [reflexivity|].
  unfold sort. cbn [foldr]. fold (sort cmp l). rewrite Hins.
  destruct (Q x) eqn:Qx.
  - rewrite !(filter_cons_True _ x) by exact Qx. now rewrite IH.
  - rewrite !(filter_cons_False _ x) by congruence. exact IH.
Qed.
End SortFacts.

(** ** The comparator of the changed-files table *)

Lemma xorb_false_r' (s : bool) : xorb s false = s.
Proof. now destruct s. Qed.

Lemma is_fin_signed (x : number) : is_fin x -> exists s, signed s x.
Proof.
  intros [_ Hx]. destruct x as [s|s| |s m e]; try contradiction.
  - exists s. now left.
  - exists s. right. right. eauto.
Qed.

(** The quotient of a finite number by a positive finite one. *)
Lemma js_div_signed (s : bool) (x : number) (m : positive) (e : Z) :
  is_fin x -> signed s x ->
  valid_binary prec emax (js_div x (S754_finite false m e)) = true
  /\ signed s (js_div x (S754_finite false m e)).
Proof.
  intros [Vx Fx] Hs. destruct x as [sx|sx| |sx mx ex]; try contradiction.
  - destruct Hs as [E|[E|(m' & e' & E)]]; try discriminate.
    injection E as <-. split; [reflexivity|]. left.
    unfold js_div; cbn [SFdiv]. now rewrite xorb_false_r'.
  - destruct Hs as [E|[E|(m' & e' & E)]]; try discriminate.
    injection E as <- _ _.
    destruct (SFdiv_finite sx mx ex false m e) as [H1 H2].
    rewrite xorb_false_r' in H2. now split.
Qed.

(** The product of a number with a positive finite one. *)
Lemma js_mul_signed (s : bool) (x : number) (m : positive) (e : Z) :
  valid_binary prec emax x = true -> bounded prec emax m e = true ->
  signed s x ->
  valid_binary prec emax (js_mul x (S754_finite false m e)) = true
  /\ signed s (js_mul x (S754_finite false m e)).
Proof.
  intros Vx Vm [->|[->|(mx & ex & ->)]].
  - split; [reflexivity|]. left. unfold js_mul; cbn [SFmul].
    now rewrite xorb_false_r'.
  - split; [reflexivity|]. right. left. unfold js_mul; cbn [SFmul].
    now rewrite xorb_false_r'.
  - destruct (SFmul_finite s mx ex false m e Vx Vm) as [H1 H2].
    rewrite xorb_false_r' in H2. now split.
Qed.

Lemma num_100 : num 100 = S754_finite false 7036874417766400 (-46).
Proof. reflexivity. Qed.

Lemma js_gt_zero_fin (f : number) :
  is_fin f -> js_gt f (num 0) = true ->
  exists m e, f = S754_finite false m e.
Proof.
  intros [_ Ff] Hgt.
  destruct f as [s|s| |s m e]; try contradiction; try discriminate.
  destruct s; [discriminate|]. eauto.
Qed.

(** The percentage of finite counters is a double that is not NaN, with
    the sign of the hit counter, or [+0]. *)
Lemma calculatePercentage_signed (s : bool) (h f : number) :
  is_fin h -> is_fin f -> signed s h ->
  valid_binary prec emax (calculatePercentage h f) = true
  /\ (signed s (calculatePercentage h f)
      \/ calculatePercentage h f = num 0).
Proof.
  intros Fh Ff Hs. rewrite calculatePercentage_eq.
  destruct (js_gt f (num 0)) eqn:Hgt; [|split; [reflexivity | now right]].
  destruct (js_gt_zero_fin f Ff Hgt) as (m & e & ->).
  destruct (js_div_signed s h m e Fh Hs) as [Vq Sq].
  rewrite num_100.
  destruct (js_mul_signed s _ 7036874417766400 (-46) Vq eq_refl Sq)
    as [Vp Sp].
  split; [exact Vp | now left].
Qed.

Lemma calculatePercentage_wf (h f : number) :
  is_fin h -> is_fin f -> wf (calculatePercentage h f).
Proof.
  intros Fh Ff. destruct (is_fin_signed h Fh) as [s Hs].
  destruct (calculatePercentage_signed s h f Fh Ff Hs) as [V [S|E]].
  - split; [exact V | now apply (signed_not_nan s)].
  - rewrite E. split; [reflexivity | discriminate].
Qed.

Lemma wf_num_0 : wf (num 0).
Proof. split; [reflexivity | discriminate]. Qed.

Lemma js_eq_zero_valZ (x : number) :
  wf x -> js_eq x (num 0) = (valZ x =? 0)%Z.
Proof. intros Hx. now rewrite (js_eq_valZ x (num 0) Hx wf_num_0). Qed.

Lemma js_gt_zero_valZ (x : number) :
  wf x -> js_gt x (num 0) = (0 <? valZ x)%Z.
Proof. intros Hx. now rewrite (js_gt_valZ x (num 0) Hx wf_num_0). Qed.

(** On finite counters the comparator orders the files by the places of
    their counters and percentages on the number line. *)
Lemma compareFiles_behindZ (a b : FileCoverage) :
  finiteCounters a -> finiteCounters b ->
  js_gt (compareFiles a b) (num 0)
  = behindZ (valZ (found (lines a))) (valZ (filePercentage a))
            (valZ (found (lines b))) (valZ (filePercentage b)).
Proof.
  intros [Fa Ha] [Fb Hb].
  pose proof (calculatePercentage_wf _ _ Ha Fa) as Pa.
  pose proof (calculatePercentage_wf _ _ Hb Fb) as Pb.
  pose proof (is_fin_wf _ Fa) as Wa. pose proof (is_fin_wf _ Fb) as Wb.
  unfold compareFiles, behindZ, filePercentage in *.
  rewrite !js_eq_zero_valZ by assumption.
  destruct (valZ (found (lines a)) =? 0)%Z, (valZ (found (lines b)) =? 0)%Z;
    cbn [andb]; try reflexivity.
  unfold js_ne. fold (js_eq (calculatePercentage (hit (lines a)) (found (lines a)))
                            (calculatePercentage (hit (lines b)) (found (lines b)))).
  rewrite (js_eq_valZ _ _ Pa Pb).
  destruct (valZ _ =? valZ _)%Z; cbn [negb].
  - apply (js_sub_sign _ _ Wb Wa).
  - apply (js_sub_sign _ _ Pa Pb).
Qed.

Lemma behindZ_asym (fa pa fb pb : Z) :
  behindZ fa pa fb pb = true -> behindZ fb pb fa pa = false.
Proof.
  unfold behindZ.
  destruct (Z.eqb_spec fa 0), (Z.eqb_spec fb 0); cbn [andb]; try easy.
  destruct (Z.eqb_spec pa pb), (Z.eqb_spec pb pa); cbn [negb]; try lia;
    intros H; first [apply Z.ltb_lt in H | idtac]; apply Z.ltb_ge; lia.
Qed.

Lemma behindZ_trans (fa pa fb pb fc pc : Z) :
  behindZ fa pa fb pb = false -> behindZ fb pb fc pc = false ->
  behindZ fa pa fc pc = false.
Proof.
  unfold behindZ.
  destruct (Z.eqb_spec fa 0), (Z.eqb_spec fb 0), (Z.eqb_spec fc 0);
    cbn [andb]; try easy.
  destruct (Z.eqb_spec pa pb), (Z.eqb_spec pb pc), (Z.eqb_spec pa pc);
    cbn [negb]; try lia;
    intros H1%Z.ltb_ge H2%Z.ltb_ge; apply Z.ltb_ge; lia.
Qed.

Lemma compareFiles_asym (x y : FileCoverage) :
  finiteCounters x -> finiteCounters y ->
  js_gt (compareFiles x y) (num 0) = true ->
  js_gt (compareFiles y x) (num 0) = false.
Proof.
  intros Hx Hy. rewrite !compareFiles_behindZ by assumption.
  apply behindZ_asym.
Qed.

Lemma compareFiles_trans (x y z : FileCoverage) :
  finiteCounters x -> finiteCounters y -> finiteCounters z ->
  js_gt (compareFiles x y) (num 0) = false ->
  js_gt (compareFiles y z) (num 0) = false ->
  js_gt (compareFiles x z) (num 0) = false.
Proof.
  intros Hx Hy Hz. rewrite !compareFiles_behindZ by assumption.
  apply behindZ_trans.
Qed.

Lemma compareFiles_zero_ties (x y : FileCoverage) :
  zeroFound x = true -> zeroFound y = true ->
  js_gt (compareFiles x y) (num 0) = false.
Proof.
  unfold zeroFound, compareFiles. now intros -> ->.
Qed.

(** The three ways in which the comparator puts [b] behind [a]. *)
Lemma compareFiles_behind (a b : FileCoverage) :
  finiteCounters a -> finiteCounters b ->
  js_gt (found (lines a)) (num 0) = true ->
  (js_gt (found (lines b)) (num 0) = true
   /\ js_lt (filePercentage a) (filePercentage b) = true)
  \/ (js_gt (found (lines b)) (num 0) = true
      /\ js_eq (filePercentage a) (filePercentage b) = true
      /\ js_gt (found (lines a)) (found (lines b)) = true)
  \/ zeroFound b = true ->
  js_gt (compareFiles b a) (num 0) = true.
Proof.
  intros Ca Cb. rewrite compareFiles_behindZ by assumption.
  destruct Ca as [Fa Ha], Cb as [Fb Hb].
  pose proof (calculatePercentage_wf _ _ Ha Fa) as Pa.
  pose proof (calculatePercentage_wf _ _ Hb Fb) as Pb.
  pose proof (is_fin_wf _ Fa) as Wa. pose proof (is_fin_wf _ Fb) as Wb.
  unfold zeroFound, filePercentage in *.
  rewrite !js_gt_zero_valZ, js_eq_zero_valZ by assumption.
  rewrite (js_lt_valZ _ _ Pa Pb), (js_eq_valZ _ _ Pa Pb),
          (js_gt_valZ _ _ Wa Wb).
  unfold behindZ.
  intros Hfa%Z.ltb_lt
    [[Hfb%Z.ltb_lt Hlt%Z.ltb_lt]
    |[(Hfb%Z.ltb_lt & Heq%Z.eqb_eq & Hgt%Z.ltb_lt)|Hzero%Z.eqb_eq]];
    destruct (Z.eqb_spec (valZ (found (lines b))) 0),
             (Z.eqb_spec (valZ (found (lines a))) 0);
    cbn [andb]; try lia; try reflexivity;
    destruct (Z.eqb_spec
                (valZ (calculatePercentage (hit (lines b)) (found (lines b))))
                (valZ (calculatePercentage (hit (lines a)) (found (lines a)))));
    cbn [negb]; try lia; apply Z.ltb_lt; lia.
Qed.

(** C3, as amended.  For a changed-files aggregate whose counters are
    finite numbers (neither NaN nor an infinity),
    the rows of the table are the files of the aggregate, in the order
    [sortedFiles]: of two files with measurable lines, the one with the
    lower percentage stands first, and at equal percentage the one with
    more lines; every file without measurable lines stands after every file
    with measurable lines; and the files without measurable lines keep the
    order they have in the aggregate. *)
Theorem sortedFiles_order (cov : Coverage) :
  Forall finiteCounters (files cov) ->
  sortedFiles cov ≡ₚ files cov
  /\ (forall fmt min,
        js_eq (total_found cov) (num 0) = false ->
        files cov <> [] ->
        buildChangedFilesSection fmt cov min
        = "### Changed files" +:+ nl +:+ nl +:+ thresholdLine fmt cov min
          +:+ nl +:+ nl +:+ "| File | Coverage |" +:+ nl
          +:+ "| --- | --- |" +:+ nl
          +:+ join nl (tableRow fmt <$> sortedFiles cov))
  /\ (forall i j a b,
        sortedFiles cov !! i = Some a -> sortedFiles cov !! j = Some b ->
        js_gt (found (lines a)) (num 0) = true ->
        js_gt (found (lines b)) (num 0) = true ->
        js_lt (filePercentage a) (filePercentage b) = true ->
        (i < j)%nat)
  /\ (forall i j a b,
        sortedFiles cov !! i = Some a -> sortedFiles cov !! j = Some b ->
        js_gt (found (lines a)) (num 0) = true ->
        js_gt (found (lines b)) (num 0) = true ->
        js_eq (filePercentage a) (filePercentage b) = true ->
        js_gt (found (lines a)) (found (lines b)) = true ->
        (i < j)%nat)
  /\ (forall i j a b,
        sortedFiles cov !! i = Some a -> sortedFiles cov !! j = Some b ->
        js_gt (found (lines a)) (num 0) = true ->
        js_eq (found (lines b)) (num 0) = true ->
        (i < j)%nat)
  /\ filter (fun f => zeroFound f = true) (sortedFiles cov)
     = filter (fun f => zeroFound f = true) (files cov).
Proof.
  intros Hfin. unfold sortedFiles.
  assert (forall i j a b,
    sort compareFiles (files cov) !! i = Some a ->
    sort compareFiles (files cov) !! j = Some b ->
    js_gt (compareFiles b a) (num 0) = true -> (i < j)%nat) as Hbefore.
  { intros i j a b. apply (sort_before compareFiles finiteCounters);
      [apply compareFiles_asym | apply compareFiles_trans | exact Hfin]. }
  assert (forall i a, sort compareFiles (files cov) !! i = Some a ->
                      finiteCounters a) as Hin.
  { intros i a Ha. apply list_elem_of_lookup_2 in Ha.
    rewrite (sort_perm compareFiles) in Ha.
    now apply (proj1 (Forall_forall _ _) Hfin). }
  split; [apply sort_perm|]. split; [|split; [|split; [|split]]].
  - intros fmt min Hfound Hfiles. unfold buildChangedFilesSection.
    rewrite Hfound. unfold buildEnhancedTable, sortedFiles.
    rewrite bool_decide_eq_false_2; [reflexivity|].
    intros Hlen. apply Hfiles. apply length_zero_iff_nil.
    now rewrite <- (Permutation_length (sort_perm compareFiles (files cov))).
  - intros i j a b Ha Hb Hfa Hfb Hlt. apply (Hbefore i j a b Ha Hb).
    apply compareFiles_behind; eauto.
  - intros i j a b Ha Hb Hfa Hfb Heq Hgt. apply (Hbefore i j a b Ha Hb).
    apply compareFiles_behind; eauto 6.
  - intros i j a b Ha Hb Hfa Hzero. apply (Hbefore i j a b Ha Hb).
    apply compareFiles_behind; eauto.
  - apply sort_stable. apply compareFiles_zero_ties.
Qed.

Lemma sortedFiles_order_witness :
  let cov :=
    calculateCoverage
      [entry "a.ex" 10 10; entry "empty.ex" 0 0; entry "b.ex" 10 0;
       entry "small.ex" 4 2; entry "blank.ex" 0 0; entry "big.ex" 8 4]
      None in
  Forall finiteCounters (files cov)
  /\ file <$> sortedFiles cov
     = ["b.ex"; "big.ex"; "small.ex"; "a.ex"; "empty.ex"; "blank.ex"]
  /\ filter (fun f => zeroFound f = true) (sortedFiles cov)
     = filter (fun f => zeroFound f = true) (files cov).
Proof.
  cbn zeta.
  assert (Forall finiteCounters
            (files (calculateCoverage
               [entry "a.ex" 10 10; entry "empty.ex" 0 0; entry "b.ex" 10 0;
                entry "small.ex" 4 2; entry "blank.ex" 0 0;
                entry "big.ex" 8 4] None))) as Hfin.
  { rewrite calculateCoverage_files. repeat constructor. }
  split; [exact Hfin|]. split; [vm_compute; reflexivity|].
  apply (sortedFiles_order _ Hfin).
Defined.

(** C3, the claim as stated fails: after [LF:abc] the record of [f2] has
    NaN as its found counter, every comparison with it answers NaN, and the
    table keeps the order of the report: [f0] stands before [f1] although
    both have measurable lines and the same percentage, and [f1] has more
    lines. *)
Lemma nan_counter_order_counterexample :
  let text :=
    "SF:f0" +:+ nl +:+ "LF:10" +:+ nl +:+ "LH:0" +:+ nl
    +:+ "end_of_record" +:+ nl
    +:+ "SF:f2" +:+ nl +:+ "LF:abc" +:+ nl +:+ "end_of_record" +:+ nl
    +:+ "SF:f1" +:+ nl +:+ "LF:20" +:+ nl +:+ "LH:0" +:+ nl
    +:+ "end_of_record" in
  let f0 := entry "f0" 10 0 in
  let f1 := entry "f1" 20 0 in
  let f2 := {| file := "f2"; lines := {| found := NaN; hit := num 0 |} |} in
  let cov := calculateCoverage (parseLcov "/home/runner/work/app" text) None in
  files cov = [f0; f2; f1]
  /\ js_eq (total_found cov) (num 0) = false
  /\ sortedFiles cov = [f0; f2; f1]
  /\ sortedFiles cov !! 0%nat = Some f0
  /\ sortedFiles cov !! 2%nat = Some f1
  /\ js_gt (found (lines f0)) (num 0) = true
  /\ js_gt (found (lines f1)) (num 0) = true
  /\ js_eq (filePercentage f1) (filePercentage f0) = true
  /\ js_gt (found (lines f1)) (found (lines f0)) = true.
Proof. cbn zeta. repeat split; vm_compute; reflexivity. Qed.

(** * Further properties of the parser *)

Lemma startsWith_inv (s p : string) :
  startsWith s p = true -> s = p +:+ substring_from (String.length p) s.
Proof.
  revert s. induction p as [|c p IH]; intros s; [reflexivity|].
  destruct s as [|d s]; [discriminate|]. cbn [startsWith].
  intros [Hc Hp]%andb_prop. apply Ascii.eqb_eq in Hc as ->.
  change (String c s = String c (p +:+ substring_from (String.length p) s)).
  f_equal. now apply IH.
Qed.

Lemma parseLine_SF_line (cwd : string) (st : ParseState) (line : string) :
  startsWith line "SF:" = true ->
  parseLine cwd st line
  = (fst st, Some (openedRecord cwd (substring_from 3 line))).
Proof. intros H. destruct st. unfold parseLine. now rewrite H. Qed.

(** A line other than [end_of_record] leaves the pushed records alone. *)
Lemma parseLine_keeps_files (cwd : string) (st : ParseState) (line : string) :
  isEndOfRecord line = false -> fst (parseLine cwd st line) = fst st.
Proof.
  unfold isEndOfRecord. intros Hend. destruct st as [files cur].
  unfold parseLine. destruct (startsWith line "SF:"); [reflexivity|].
  destruct cur as [c|]; [|reflexivity].
  destruct (startsWith line "LF:"); [reflexivity|].
  destruct (startsWith line "LH:"); [reflexivity|].
  now rewrite Hend.
Qed.

(** X1.  The report of a text is the report of its first part followed by
    the report of the rest, whenever the rest starts at a record boundary:
    no record is open after the first part, or the rest begins with an
    [SF:] line (which discards a record left open). *)
Theorem parseLines_app (cwd : string) (before after : list string) :
  openRecord cwd before = None
  \/ (exists line rest,
        after = line :: rest /\ startsWith line "SF:" = true) ->
  parseLines cwd (before ++ after)
  = parseLines cwd before ++ parseLines cwd after.
Proof.
  intros Hboundary. unfold parseLines, openRecord in *.
  rewrite fold_left_app.
  destruct (fold_left (parseLine cwd) before ([], None)) as [files cur].
  cbn [fst snd] in *.
  destruct Hboundary as [->|(line & rest & -> & Hsf)].
  - now rewrite fold_parseLine_files.
  - cbn [fold_left]. rewrite !(parseLine_SF_line cwd _ line Hsf).
    cbn [fst]. now rewrite fold_parseLine_files.
Qed.

Lemma parseLines_app_witness :
  parseLines "/srv" (["SF:a"; "LF:3"] ++ ["SF:b"; "LH:1"; "end_of_record"])
  = parseLines "/srv" ["SF:a"; "LF:3"]
    ++ parseLines "/srv" ["SF:b"; "LH:1"; "end_of_record"].
Proof.
  apply parseLines_app. right. exists "SF:b", ["LH:1"; "end_of_record"].
  split; reflexivity.
Defined.

(** X2.  A record that no [end_of_record] line closes is not reported:
    lines after the last [end_of_record] line add nothing to the report.  In
    particular a text without any such line (for instance one whose lines
    all end in a carriage return) has an empty report. *)
Theorem parseLines_unterminated (cwd : string) (before after : list string) :
  Forall (fun line => isEndOfRecord line = false) after ->
  parseLines cwd (before ++ after) = parseLines cwd before
  /\ (before = [] -> parseLines cwd after = []).
Proof.
  intros Hno.
  assert (forall st, fst (fold_left (parseLine cwd) after st) = fst st) as Hkeep.
  { induction Hno as [|line after Hline _ IH]; intros st; [reflexivity|].
    cbn [fold_left]. rewrite IH. now apply parseLine_keeps_files. }
  split.
  - unfold parseLines. rewrite fold_left_app. apply Hkeep.
  - intros _. unfold parseLines. apply Hkeep.
Qed.

Lemma parseLines_unterminated_witness :
  let cr := String (ascii_of_nat 13) EmptyString in
  parseLines "/srv" ([] ++ ["SF:a" +:+ cr; "LF:3" +:+ cr; "end_of_record" +:+ cr])
  = parseLines "/srv" [].
Proof.
  cbn zeta. apply parseLines_unterminated. repeat constructor.
Defined.

Lemma parseLine_step_cases (cwd : string) (st : ParseState) (line : string) :
  (startsWith line "SF:" = true
   /\ parseLine cwd st line
      = (fst st, Some (openedRecord cwd (substring_from 3 line))))
  \/ (startsWith line "SF:" = false
      /\ ((exists c, snd st = Some c /\ isEndOfRecord line = true
                     /\ parseLine cwd st line = (fst st ++ [c], None))
          \/ (fst (parseLine cwd st line) = fst st
              /\ (snd (parseLine cwd st line) = None <-> snd st = None)
              /\ (forall c', snd (parseLine cwd st line) = Some c' ->
                    exists c, snd st = Some c /\ file c' = file c)))).
Proof.
  destruct (startsWith line "SF:") eqn:Hsf.
  - left. split; [reflexivity|]. now apply parseLine_SF_line.
  - right. split; [reflexivity|]. destruct st as [files [c|]];
      unfold parseLine; rewrite Hsf; cbn [fst snd].
    + destruct (startsWith line "LF:");
        [right; repeat split; try discriminate;
         intros c' [= <-]; now exists c|].
      destruct (startsWith line "LH:");
        [right; repeat split; try discriminate;
         intros c' [= <-]; now exists c|].
      unfold isEndOfRecord. destruct (String.eqb line "end_of_record").
      * left. now exists c.
      * right. repeat split; try discriminate. intros c' [= <-]. now exists c.
    + right. repeat split; intros; discriminate.
Qed.

Lemma isEndOfRecord_not_SF (line : string) :
  isEndOfRecord line = true -> startsWith line "SF:" = false.
Proof. unfold isEndOfRecord. now intros ->%String.eqb_eq. Qed.

(** The records of a scan all have a path that an [SF:] line gives. *)
Lemma parse_files_inv (Pf : string -> Prop) (cwd : string)
  (ls : list string) (st : ParseState) :
  (forall l, l ∈ ls -> startsWith l "SF:" = true ->
             Pf (file (openedRecord cwd (substring_from 3 l)))) ->
  Forall (fun f => Pf (file f)) (fst st) ->
  (forall c, snd st = Some c -> Pf (file c)) ->
  Forall (fun f => Pf (file f)) (fst (fold_left (parseLine cwd) ls st))
  /\ (forall c, snd (fold_left (parseLine cwd) ls st) = Some c -> Pf (file c)).
Proof.
  revert st. induction ls as [|l ls IH]; intros st Hsf Hfiles Hcur;
    [now split|].
  cbn [fold_left]. apply IH.
  - intros l' Hl'. apply Hsf. now right.
  - destruct (parseLine_step_cases cwd st l)
      as [[_ ->]|[_ [(c & Hc & _ & ->)|(-> & _)]]]; cbn [fst]; try assumption.
    apply Forall_app. split; [assumption|]. constructor; [|constructor].
    now apply Hcur.
  - destruct (parseLine_step_cases cwd st l)
      as [[Hl ->]|[_ [(c & Hc & _ & ->)|(_ & _ & Hsame)]]]; cbn [snd].
    + intros c [= <-]. apply Hsf; [left | exact Hl].
    + discriminate.
    + intros c' Hc'. destruct (Hsame c' Hc') as (c & Hc & ->). now apply Hcur.
Qed.

Lemma length_filter_cons_bool {A : Type} (f : A -> bool) (x : A)
  (l : list A) :
  length (filter (fun y => f y = true) (x :: l))
  = ((if f x then 1 else 0) + length (filter (fun y => f y = true) l))%nat.
Proof.
  destruct (f x) eqn:E.
  - now rewrite filter_cons_True by exact E.
  - now rewrite filter_cons_False by congruence.
Qed.

(** X3.  The parser reports no more records than the text has
    [end_of_record] lines, and no more than it has [SF:] lines; and the
    path of every reported record is the one that some [SF:] line of the
    text gives. *)
Theorem parseLines_bounded (cwd : string) (ls : list string) :
  (length (parseLines cwd ls)
   <= length (filter (fun l => isEndOfRecord l = true) ls))%nat
  /\ (length (parseLines cwd ls)
      <= length (filter (fun l => startsWith l "SF:" = true) ls))%nat
  /\ (forall f, f ∈ parseLines cwd ls ->
        exists p, ("SF:" +:+ p) ∈ ls /\ file f = file (openedRecord cwd p)).
Proof.
  pose (isOpen := fun o : option FileCoverage =>
                    match o with Some _ => 1%nat | None => 0%nat end).
  assert (forall st,
    (length (fst (fold_left (parseLine cwd) ls st))
     <= length (fst st)
        + length (filter (fun l => isEndOfRecord l = true) ls))%nat
    /\ (length (fst (fold_left (parseLine cwd) ls st))
        + isOpen (snd (fold_left (parseLine cwd) ls st))
        <= length (fst st) + isOpen (snd st)
           + length (filter (fun l => startsWith l "SF:" = true) ls))%nat)
    as Hcount.
  { induction ls as [|l ls IH]; intros st; [cbn; lia|].
    cbn [fold_left]. destruct (IH (parseLine cwd st l)) as [IH1 IH2].
    rewrite !length_filter_cons_bool.
    destruct (parseLine_step_cases cwd st l)
      as [[Hl E]|[Hl [(c & Hc & Hend & E)|(E1 & E2 & _)]]].
    - rewrite E in IH1, IH2 |- *. cbn [fst snd isOpen] in IH1, IH2 |- *.
      rewrite Hl.
      destruct (isEndOfRecord l) eqn:Hend;
        [apply isEndOfRecord_not_SF in Hend; congruence|].
      destruct (snd st); cbn [isOpen]; lia.
    - rewrite E in IH1, IH2 |- *. cbn [fst snd isOpen] in IH1, IH2 |- *.
      rewrite length_app in IH1, IH2. cbn [length] in IH1, IH2.
      rewrite Hl, Hend, Hc. cbn [isOpen]. lia.
    - rewrite E1 in IH1, IH2.
      assert (isOpen (snd (parseLine cwd st l)) = isOpen (snd st)) as Ho.
      { destruct E2 as [E2 E2'].
        destruct (snd (parseLine cwd st l)), (snd st); cbn; try reflexivity;
          [now discriminate E2' | now discriminate E2]. }
      rewrite Hl. destruct (isEndOfRecord l); lia. }
  destruct (Hcount ([], None)) as [H1 H2]. cbn [fst snd length isOpen] in H1, H2.
  unfold parseLines. split; [lia|]. split; [lia|].
  intros f Hf.
  destruct (parse_files_inv
              (fun path => exists p, ("SF:" +:+ p) ∈ ls
                                     /\ path = file (openedRecord cwd p))
              cwd ls ([], None)) as [Hall _].
  - intros l Hl Hsf. exists (substring_from 3 l). split; [|reflexivity].
    pose proof (startsWith_inv l "SF:" Hsf) as E.
    change (String.length "SF:") with 3%nat in E. now rewrite <- E.
  - constructor.
  - discriminate.
  - now apply (proj1 (Forall_forall _ _) Hall).
Qed.

(** X4.  Inside a record the order of the [LF:] and [LH:] lines does not
    matter, and of two [LF:] lines (or two [LH:] lines) in a row the later
    one decides. *)
Theorem counter_lines_order (cwd : string) (before after : list string)
  (a b : string) :
  parseLines cwd (before ++ ["LF:" +:+ a; "LH:" +:+ b] ++ after)
  = parseLines cwd (before ++ ["LH:" +:+ b; "LF:" +:+ a] ++ after)
  /\ parseLines cwd (before ++ ["LF:" +:+ a; "LF:" +:+ b] ++ after)
     = parseLines cwd (before ++ ["LF:" +:+ b] ++ after)
  /\ parseLines cwd (before ++ ["LH:" +:+ a; "LH:" +:+ b] ++ after)
     = parseLines cwd (before ++ ["LH:" +:+ b] ++ after).
Proof.
  unfold parseLines. rewrite !fold_left_app. cbn [fold_left].
  destruct (fold_left (parseLine cwd) before ([], None)) as [files [c|]].
  - rewrite !parseLine_LF, !parseLine_LH, !parseLine_LF. now repeat split.
  - rewrite !parseLine_closed
      by (apply startsWith_LF_not_SF; (left; apply startsWith_app)
                                      || (right; apply startsWith_app)).
    now repeat split.
Qed.

(** ** Paths of the records *)

Lemma startsWith_append_l (s t p : string) :
  startsWith s p = true -> startsWith (s +:+ t) p = true.
Proof.
  revert s. induction p as [|c p IH]; intros s; [reflexivity|].
  destruct s as [|d s]; [discriminate|].
  change (String d s +:+ t) with (String d (s +:+ t)). cbn [startsWith].
  intros [-> Hp]%andb_prop. now rewrite (IH s Hp).
Qed.

Lemma keptSegment_head (w : string) :
  keptSegment w -> exists c r, w = String c r /\ Ascii.eqb c "/" = false.
Proof.
  intros [Hproper Hslash]. destruct w as [|c r]; [discriminate|].
  exists c, r. split; [reflexivity|].
  cbn [hasChar] in Hslash. now apply orb_false_elim in Hslash as [-> _].
Qed.

Lemma join_head (sep : string) (c : ascii) (r : string) (ps : list string) :
  exists rest, join sep (String c r :: ps) = String c rest.
Proof. destruct ps; cbn [join]; eexists; reflexivity. Qed.

(** A path made of kept segments is a relative path. *)
Lemma join_kept_relative (segs : list string) :
  Forall keptSegment segs -> isAbsolute (join "/" segs) = false.
Proof.
  destruct 1 as [|w segs Hw _]; [reflexivity|].
  destruct (keptSegment_head w Hw) as (c & r & -> & Hc).
  destruct (join_head "/" c r segs) as [rest ->].
  unfold isAbsolute. cbn [startsWith]. now rewrite Hc.
Qed.

Lemma resolvedSegments_kept (cwd p : string) :
  Forall keptSegment (resolvedSegments cwd p).
Proof. apply normalize_kept; [constructor | apply split_pieces]. Qed.

Lemma resolvedSegments_resolve (cwd : string) (segs : list string) :
  segs <> [] -> Forall keptSegment segs ->
  resolvedSegments cwd ("/" +:+ join "/" segs) = segs.
Proof.
  intros Hne Hkept. unfold resolvedSegments.
  change ("/" +:+ join "/" segs) with (String "/" (join "/" segs)).
  change (isAbsolute (String "/" (join "/" segs))) with true.
  cbn iota. cbn [split]. rewrite Ascii.eqb_refl.
  rewrite split_join; [|exact Hne|].
  - unfold normalizeSegments. cbn [fold_left].
    change (normalizeStep [] EmptyString) with (@nil string).
    now rewrite normalize_proper.
  - eapply Forall_impl; [exact Hkept|]. now intros w [_ Hw].
Qed.

Lemma stripCommon_suffix (from to : list string) (P : string -> Prop) :
  Forall P to -> Forall P (snd (stripCommon from to)).
Proof.
  revert to. induction from as [|f from IH]; intros to Hto; [exact Hto|].
  destruct to as [|t to]; [exact Hto|]. cbn [stripCommon].
  destruct (String.eqb f t); [|exact Hto]. apply IH. now inversion Hto.
Qed.

(** X5.  With an absolute working directory, an [SF:] line that names a
    file by its absolute path inside the working directory opens the same
    record as the line that names it by its path relative to the working
    directory; and a relative path made of plain segments is kept as it
    is. *)
Theorem source_paths_relative (cwd : string) :
  isAbsolute cwd = true ->
  (forall st p,
      isAbsolute p = false ->
      parseLine cwd st ("SF:" +:+ cwd +:+ "/" +:+ p)
      = parseLine cwd st ("SF:" +:+ p))
  /\ (forall files cur segs,
        segs <> [] -> Forall keptSegment segs ->
        parseLine cwd (files, cur) ("SF:" +:+ join "/" segs)
        = (files,
           Some {| file := join "/" segs;
                   lines := {| found := num 0; hit := num 0 |} |})).
Proof.
  intros Habs. split.
  - intros [files cur] p Hrel. rewrite !parseLine_SF. do 2 f_equal.
    unfold openedRecord, resolve, resolvedSegments.
    rewrite Hrel.
    replace (isAbsolute (cwd +:+ "/" +:+ p)) with true; [reflexivity|].
    symmetry. now apply startsWith_append_l.
  - intros files cur segs Hne Hkept. rewrite parseLine_SF.
    do 2 f_equal. unfold openedRecord. f_equal.
    pose (C := resolvedSegments cwd cwd).
    assert (Forall keptSegment C) as HC by apply resolvedSegments_kept.
    assert (resolvedSegments cwd (join "/" segs) = C ++ segs) as Hx.
    { unfold C, resolvedSegments. rewrite (join_kept_relative segs Hkept), Habs.
      change (cwd +:+ "/" +:+ join "/" segs)
        with (cwd +:+ String "/" (join "/" segs)).
      rewrite split_app_sep. unfold normalizeSegments.
      rewrite fold_left_app, split_join; [|exact Hne|].
      - now apply normalize_proper.
      - eapply Forall_impl; [exact Hkept|]. now intros w [_ Hw]. }
    unfold relative, resolve. rewrite Hx.
    rewrite resolvedSegments_resolve;
      [|now destruct C | apply Forall_app; now split].
    fold C. now rewrite stripCommon_prefix.
Qed.

Lemma source_paths_relative_witness :
  parseLine "/home/runner/work/app" ([], None)
    ("SF:" +:+ "/home/runner/work/app" +:+ "/" +:+ "lib/a.ex")
  = parseLine "/home/runner/work/app" ([], None) ("SF:" +:+ "lib/a.ex").
Proof.
  exact (proj1 (source_paths_relative "/home/runner/work/app" eq_refl)
           ([], None) "lib/a.ex" eq_refl).
Defined.

Lemma relative_not_absolute (cwd from to : string) :
  isAbsolute (relative cwd from to) = false.
Proof.
  unfold relative.
  pose proof (stripCommon_suffix (resolvedSegments cwd from)
                (resolvedSegments cwd to) keptSegment
                (resolvedSegments_kept cwd to)) as Hdown.
  destruct (stripCommon _ _) as [up down]. cbn [snd] in Hdown.
  destruct up as [|u up]; cbn [length replicate app].
  - now apply join_kept_relative.
  - destruct (join_head "/" "." "." (replicate (length up) ".." ++ down))
      as [rest ->].
    reflexivity.
Qed.

(** X6.  No record of a report has a path that begins with a slash, so the
    removal of a leading slash in the rows of the table never changes the
    path of a parsed record. *)
Theorem report_paths_relative (cwd : string) (ls : list string)
  (f : FileCoverage) :
  f ∈ parseLines cwd ls ->
  startsWith (file f) "/" = false /\ stripLeadingSlash (file f) = file f.
Proof.
  intros Hf.
  assert (startsWith (file f) "/" = false) as Hrel.
  { destruct (parse_files_inv (fun path => isAbsolute path = false)
                cwd ls ([], None)) as [Hall _].
    - intros l _ _. apply relative_not_absolute.
    - constructor.
    - discriminate.
    - now apply (proj1 (Forall_forall _ _) Hall). }
  split; [exact Hrel|].
  destruct (file f) as [|c r]; [reflexivity|].
  cbn [startsWith] in Hrel. rewrite andb_true_r in Hrel.
  unfold stripLeadingSlash.
  destruct c as [[] [] [] [] [] [] [] []]; try reflexivity; discriminate.
Qed.

Lemma report_paths_relative_witness :
  let f := {| file := "../../etc/b";
              lines := {| found := num 0; hit := num 0 |} |} in
  startsWith (file f) "/" = false /\ stripLeadingSlash (file f) = file f.
Proof.
  apply (report_paths_relative "/home/r" ["SF:/etc/b"; "end_of_record"]).
  vm_compute. left.
Defined.

(** * Further properties of the aggregator *)

Lemma entries_filter (changed : gset string) (l : list (string * Z * Z)) :
  filter (fun f => file f ∈ changed) (entries l) = entries (keptBy changed l).
Proof.
  unfold keptBy, entries. induction l as [|[[p nf] nh] l IH]; [reflexivity|].
  rewrite fmap_cons. destruct (decide (p ∈ changed)) as [Hin|Hout].
  - rewrite (filter_cons_True _ (entry p nf nh)) by exact Hin.
    rewrite (filter_cons_True _ (p, nf, nh)) by exact Hin.
    rewrite fmap_cons. now rewrite IH.
  - rewrite (filter_cons_False _ (entry p nf nh)) by exact Hout.
    rewrite (filter_cons_False _ (p, nf, nh)) by exact Hout.
    exact IH.
Qed.

Lemma keptBy_bounds (changed : gset string) (l : list (string * Z * Z)) :
  Forall (fun '(p, nf, nh) => 0 <= nf /\ 0 <= nh) l ->
  Forall (fun '(p, nf, nh) => 0 <= nf /\ 0 <= nh) (keptBy changed l)
  /\ foundTotal (keptBy changed l) <= foundTotal l
  /\ hitTotal (keptBy changed l) <= hitTotal l.
Proof.
  unfold keptBy.
  induction 1 as [|[[p nf] nh] l [Hf Hh] Hl (IH1 & IH2 & IH3)];
    [repeat split; try constructor; reflexivity|].
  destruct (decide (p ∈ changed)) as [Hin|Hout].
  - rewrite (filter_cons_True _ (p, nf, nh)) by exact Hin.
    rewrite !foundTotal_cons, !hitTotal_cons.
    repeat split; [constructor; [split|]; assumption | lia | lia].
  - rewrite (filter_cons_False _ (p, nf, nh)) by exact Hout.
    rewrite !foundTotal_cons, !hitTotal_cons.
    repeat split; [assumption | lia | lia].
Qed.

Lemma safeCounters_keptBy (changed : gset string) (l : list (string * Z * Z)) :
  safeCounters l -> safeCounters (keptBy changed l).
Proof.
  intros (Hl & HF & HH).
  destruct (keptBy_bounds changed l Hl) as (H1 & H2 & H3).
  repeat split; [exact H1 | lia | lia].
Qed.

(** With or without a filter, the aggregate is the unfiltered aggregate of
    the records that are retained. *)
Lemma calculateCoverage_retained
  (l : list (string * Z * Z)) (filter_ : option (gset string)) :
  safeCounters l ->
  exists kept,
    safeCounters kept
    /\ (forall p nf nh, (p, nf, nh) ∈ kept -> (p, nf, nh) ∈ l)
    /\ calculateCoverage (entries l) filter_
       = calculateCoverage (entries kept) None.
Proof.
  intros Hsafe. destruct filter_ as [changed|]; [|now exists l].
  rewrite calculateCoverage_filtered. case_bool_decide; [|now exists l].
  exists (keptBy changed l). split; [now apply safeCounters_keptBy|].
  split; [|now rewrite entries_filter].
  intros p nf nh Hin. unfold keptBy in Hin.
  now apply list_elem_of_filter in Hin as [_ Hin].
Qed.

(** X7.  With a filter set that is not empty, the files of the aggregate
    are exactly the records of the report whose path is in the set, in
    report order; and for a report whose counters are non-negative integers
    with sums below [2^53], the counters of the aggregate are the integer
    sums over those records and its percentage is the one of these two
    sums. *)
Theorem calculateCoverage_filter_sums
  (l : list (string * Z * Z)) (changed : gset string) :
  changed ≠ ∅ ->
  safeCounters l ->
  let kept := keptBy changed l in
  (forall report : list FileCoverage,
     files (calculateCoverage report (Some changed))
     = filter (fun f => file f ∈ changed) report)
  /\ files (calculateCoverage (entries l) (Some changed)) = entries kept
  /\ total_found (calculateCoverage (entries l) (Some changed))
     = num (foundTotal kept)
  /\ total_hit (calculateCoverage (entries l) (Some changed))
     = num (hitTotal kept)
  /\ percentage (calculateCoverage (entries l) (Some changed))
     = calculatePercentage (num (hitTotal kept)) (num (foundTotal kept)).
Proof.
  intros Hne Hsafe kept.
  assert (forall report : list FileCoverage,
    calculateCoverage report (Some changed)
    = calculateCoverage (filter (fun f => file f ∈ changed) report) None)
    as Hfilter.
  { intros report. rewrite calculateCoverage_filtered.
    now rewrite bool_decide_eq_true_2 by (now apply nonempty_size). }
  split; [intros report; rewrite Hfilter; apply calculateCoverage_files|].
  rewrite Hfilter, entries_filter. fold kept.
  rewrite (calculateCoverage_safe kept) by (now apply safeCounters_keptBy).
  now cbn.
Qed.

Lemma calculateCoverage_filter_sums_witness :
  let l := [("a.ex", 10, 10); ("b.ex", 10, 0); ("c.ex", 4, 2)] in
  let changed : gset string := {["c.ex"]} ∪ {["a.ex"]} in
  changed ≠ ∅
  /\ safeCounters l
  /\ total_found (calculateCoverage (entries l) (Some changed))
     = num (foundTotal (keptBy changed l))
  /\ foundTotal (keptBy changed l) = 14.
Proof.
  cbn zeta.
  assert (({["c.ex"]} ∪ {["a.ex"]} : gset string) ≠ ∅) as Hne.
  { intros E. apply (f_equal size) in E. vm_compute in E. discriminate. }
  assert (safeCounters [("a.ex", 10, 10); ("b.ex", 10, 0); ("c.ex", 4, 2)])
    as Hsafe.
  { split; [repeat constructor; lia|]. split; reflexivity. }
  split; [exact Hne|]. split; [exact Hsafe|].
  split; [|vm_compute; reflexivity].
  exact (proj1 (proj2 (proj2 (calculateCoverage_filter_sums _ _ Hne Hsafe)))).
Defined.

Lemma totals_Permutation (l1 l2 : list (string * Z * Z)) :
  l1 ≡ₚ l2 -> foundTotal l1 = foundTotal l2 /\ hitTotal l1 = hitTotal l2.
Proof.
  induction 1 as [|[[p nf] nh] l1 l2 _ [IHf IHh]
                 |[[p nf] nh] [[q mf] mh] l|l1 l2 l3 _ [IH1 IH2] _ [IH3 IH4]].
  - now split.
  - rewrite !foundTotal_cons, !hitTotal_cons. lia.
  - rewrite !foundTotal_cons, !hitTotal_cons. lia.
  - split; congruence.
Qed.

Lemma safeCounters_Permutation (l1 l2 : list (string * Z * Z)) :
  l1 ≡ₚ l2 -> safeCounters l1 -> safeCounters l2.
Proof.
  intros Hperm (Hl & HF & HH).
  destruct (totals_Permutation l1 l2 Hperm) as [Ef Eh].
  unfold safeCounters. rewrite <- Ef, <- Eh.
  repeat split; try assumption. now rewrite <- Hperm.
Qed.

(** X8.  For reports whose counters are non-negative integers with sums
    below [2^53], the aggregate does not depend on the order of the
    records: two reports with the same records in different orders have,
    under the same filter, the same counters and the same percentage, and
    the same files up to order. *)
Theorem calculateCoverage_Permutation
  (l1 l2 : list (string * Z * Z)) (filter_ : option (gset string)) :
  l1 ≡ₚ l2 ->
  safeCounters l1 ->
  total_found (calculateCoverage (entries l1) filter_)
  = total_found (calculateCoverage (entries l2) filter_)
  /\ total_hit (calculateCoverage (entries l1) filter_)
     = total_hit (calculateCoverage (entries l2) filter_)
  /\ percentage (calculateCoverage (entries l1) filter_)
     = percentage (calculateCoverage (entries l2) filter_)
  /\ files (calculateCoverage (entries l1) filter_)
     ≡ₚ files (calculateCoverage (entries l2) filter_).
Proof.
  intros Hperm Hsafe.
  assert (forall k1 k2, k1 ≡ₚ k2 -> safeCounters k1 ->
    total_found (calculateCoverage (entries k1) None)
    = total_found (calculateCoverage (entries k2) None)
    /\ total_hit (calculateCoverage (entries k1) None)
       = total_hit (calculateCoverage (entries k2) None)
    /\ percentage (calculateCoverage (entries k1) None)
       = percentage (calculateCoverage (entries k2) None)
    /\ files (calculateCoverage (entries k1) None)
       ≡ₚ files (calculateCoverage (entries k2) None)) as Hall.
  { intros k1 k2 H S1.
    pose proof (safeCounters_Permutation k1 k2 H S1) as S2.
    rewrite (calculateCoverage_safe k1 S1), (calculateCoverage_safe k2 S2).
    destruct (totals_Permutation k1 k2 H) as [-> ->]. cbn.
    repeat split. unfold entries. now rewrite H. }
  destruct filter_ as [changed|]; [|now apply Hall].
  rewrite !calculateCoverage_filtered. case_bool_decide; [|now apply Hall].
  rewrite !entries_filter. apply Hall.
  - unfold keptBy. now rewrite Hperm.
  - now apply safeCounters_keptBy.
Qed.

Lemma calculateCoverage_Permutation_witness :
  let l1 := [("a.ex", 10, 10); ("b.ex", 10, 0)] in
  let l2 := [("b.ex", 10, 0); ("a.ex", 10, 10)] in
  l1 ≡ₚ l2
  /\ safeCounters l1
  /\ percentage (calculateCoverage (entries l1) None)
     = percentage (calculateCoverage (entries l2) None).
Proof.
  cbn zeta.
  assert ([("a.ex", 10, 10); ("b.ex", 10, 0)]
          ≡ₚ [("b.ex", 10, 0); ("a.ex", 10, 10)]) as Hperm by apply perm_swap.
  assert (safeCounters [("a.ex", 10, 10); ("b.ex", 10, 0)]) as Hsafe.
  { split; [repeat constructor; lia|]. split; reflexivity. }
  split; [exact Hperm|]. split; [exact Hsafe|].
  exact (proj1 (proj2 (proj2
           (calculateCoverage_Permutation _ _ None Hperm Hsafe)))).
Defined.

Lemma repr_is_fin (v : Z) (x : number) :
  repr v x -> is_fin x /\ signed false x.
Proof.
  intros [[_ ->]|(m & e & -> & Hb & _)].
  - split; [split; [reflexivity | exact I] | now left].
  - split; [split; [exact Hb | exact I] | right; right; eauto].
Qed.

(** The percentage of two safe integers is a number, and it is not
    negative. *)
Lemma percentage_nonneg (H F : Z) :
  0 <= H < 2 ^ 53 -> 0 <= F < 2 ^ 53 ->
  calculatePercentage (num H) (num F) <> NaN
  /\ js_ge (calculatePercentage (num H) (num F)) (num 0) = true.
Proof.
  intros HH HF.
  destruct (repr_is_fin H _ (num_repr H HH)) as [FH SH].
  destruct (repr_is_fin F _ (num_repr F HF)) as [FF _].
  destruct (calculatePercentage_signed false _ _ FH FF SH) as [_ [S|E]].
  - split; [now apply (signed_not_nan false) | now apply signed_js_ge_zero].
  - rewrite E. split; [discriminate | reflexivity].
Qed.




(** * Further properties of the table order *)

Section SortedInput.
Context {A : Type} (cmp : A -> A -> number).

(** A list that is in order already comes back from [sort] as it is. *)
Lemma sort_sorted_id (l : list A) :
  StronglySorted (fun x y => js_gt (cmp x y) (num 0) = false) l ->
  sort cmp l = l.
Proof.
  induction 1 as [|x l _ IH Hx]; [reflexivity|].
  unfold sort in *. cbn [foldr]. rewrite IH.
  destruct l as [|y l]; [reflexivity|]. cbn [sortInsert].
  inversion Hx as [|? ? Hxy _]; subst. now rewrite Hxy.
Qed.
End SortedInput.

(** X10.  Sorting is idempotent on files with finite counters: the sorted
    files, sorted again, are the same list, so a table built from an
    aggregate that is in table order already keeps that order. *)
Theorem sortedFiles_idempotent (cov : Coverage) :
  Forall finiteCounters (files cov) ->
  sort compareFiles (sortedFiles cov) = sortedFiles cov.
Proof.
  intros Hfin. apply sort_sorted_id. unfold sortedFiles.
  apply (sort_sorted compareFiles finiteCounters);
    [apply compareFiles_asym | apply compareFiles_trans | exact Hfin].
Qed.

Lemma sortedFiles_idempotent_witness :
  let cov :=
    {| total_found := num 24; total_hit := num 12; percentage := num 50;
       files := [entry "a.ex" 10 10; entry "none.ex" 0 0; entry "b.ex" 10 0;
                 entry "c.ex" 4 2] |} in
  sort compareFiles (sortedFiles cov) = sortedFiles cov.
Proof.
  apply sortedFiles_idempotent. repeat constructor.
Defined.

(** X21.  On files with finite counters the comparator of the table is a
    consistent ordering, in binary64 as well: it never puts each of two
    files behind the other, it puts no file behind itself, and with [x] not
    behind [y] and [y] not behind [z], [x] is not behind [z]. *)
Theorem compareFiles_consistent (x y z : FileCoverage) :
  finiteCounters x -> finiteCounters y -> finiteCounters z ->
  js_gt (compareFiles x x) (num 0) = false
  /\ (js_gt (compareFiles x y) (num 0) = true ->
      js_gt (compareFiles y x) (num 0) = false)
  /\ (js_gt (compareFiles x y) (num 0) = false ->
      js_gt (compareFiles y z) (num 0) = false ->
      js_gt (compareFiles x z) (num 0) = false).
Proof.
  intros Fx Fy Fz. split; [|split].
  - destruct (js_gt (compareFiles x x) (num 0)) eqn:E; [|reflexivity].
    pose proof (compareFiles_asym x x Fx Fx E). congruence.
  - now apply compareFiles_asym.
  - now apply compareFiles_trans.
Qed.

Lemma compareFiles_consistent_witness :
  let x := entry "a.ex" 3 1 in
  let y := entry "b.ex" 3 2 in
  let z := entry "c.ex" 7 7 in
  finiteCounters x /\ finiteCounters y /\ finiteCounters z
  /\ js_gt (compareFiles x z) (num 0) = false.
Proof.
  cbn zeta.
  assert (finiteCounters (entry "a.ex" 3 1)) as Fx by (repeat constructor).
  assert (finiteCounters (entry "b.ex" 3 2)) as Fy by (repeat constructor).
  assert (finiteCounters (entry "c.ex" 7 7)) as Fz by (repeat constructor).
  split; [exact Fx|]. split; [exact Fy|]. split; [exact Fz|].
  apply (proj2 (proj2 (compareFiles_consistent _ _ _ Fx Fy Fz)));
    vm_compute; reflexivity.
Defined.

(** X22.  The percentage of finite counters is a number: it is NaN only
    when a counter is NaN or an infinity.  (The quotient may overflow to an
    infinity or round to zero; neither gives NaN.) *)
Theorem calculatePercentage_number (h f : number) :
  is_fin h -> is_fin f ->
  valid_binary prec emax (calculatePercentage h f) = true
  /\ calculatePercentage h f <> NaN.
Proof. intros Fh Ff. now apply calculatePercentage_wf. Qed.

Lemma calculatePercentage_number_witness :
  is_fin (num 1) /\ is_fin (num 3)
  /\ calculatePercentage (num 1) (num 3) <> NaN.
Proof.
  assert (is_fin (num 1)) as F1 by (repeat constructor).
  assert (is_fin (num 3)) as F3 by (repeat constructor).
  split; [exact F1|]. split; [exact F3|].
  exact (proj2 (calculatePercentage_number _ _ F1 F3)).
Defined.

Section StableOrder.
Context {A : Type} (cmp : A -> A -> number) (P : A -> Prop).

Let R (x y : A) : Prop := js_gt (cmp x y) (num 0) = false.
Let ties (x y : A) : bool :=
  negb (js_gt (cmp x y) (num 0)) && negb (js_gt (cmp y x) (num 0)).

Hypothesis cmp_asym :
  forall x y, P x -> P y -> js_gt (cmp x y) (num 0) = true -> R y x.

Lemma cmp_refl (x : A) : P x -> R x x.
Proof.
  intros Px. unfold R. destruct (js_gt (cmp x x) (num 0)) eqn:E; [|reflexivity].
  pose proof (cmp_asym x x Px Px E) as H. unfold R in H. congruence.
Qed.

(** Stability on the elements at hand: the members of a class whose
    members the comparator does not put behind one another keep their
    order. *)
Lemma sort_stable_on (Q : A -> bool) (l : list A) :
  Forall P l ->
  (forall x y, P x -> P y -> Q x = true -> Q y = true ->
               js_gt (cmp x y) (num 0) = false) ->
  filter (fun x => Q x = true) (sort cmp l)
  = filter (fun x => Q x = true) l.
Proof.
  intros Hl Hties.
  assert (forall x k, P x -> Forall P k ->
    filter (fun x => Q x = true) (sortInsert cmp x k)
    = filter (fun x => Q x = true) (x :: k)) as Hins.
  { intros x k Px Hk. induction Hk as [|y k Py _ IH]; cbn [sortInsert];
      [reflexivity|].
    destruct (js_gt (cmp x y) (num 0)) eqn:E; [|reflexivity].
    destruct (Q x) eqn:Qx.
    - assert (Q y = false) as Qy.
      { destruct (Q y) eqn:Qy; [|reflexivity].
        rewrite (Hties x y Px Py Qx Qy) in E. discriminate. }
      rewrite (filter_cons_False _ y) by congruence. rewrite IH.
      rewrite !(filter_cons_True _ x) by exact Qx.
      now rewrite (filter_cons_False _ y) by congruence.
    - rewrite (filter_cons_False _ x) by congruence.
      destruct (Q y) eqn:Qy.
      + rewrite !(filter_cons_True _ y) by exact Qy. rewrite IH.
        now rewrite (filter_cons_False _ x) by congruence.
      + rewrite !(filter_cons_False _ y) by congruence. rewrite IH.
        now rewrite (filter_cons_False _ x) by congruence. }
  induction Hl as [|x l Px Hl IH]; [reflexivity|].
  unfold sort. cbn [foldr]. fold (sort cmp l).
  rewrite Hins by (try assumption; now rewrite sort_perm).
  destruct (Q x) eqn:Qx.
  - rewrite !(filter_cons_True _ x) by exact Qx. now rewrite IH.
  - rewrite !(filter_cons_False _ x) by congruence. exact IH.
Qed.

(** Two orderings of the same elements that are both in order and list
    the elements of every class of ties in the same order are the same
    list. *)
Lemma stable_sorted_unique (l1 l2 : list A) :
  Forall P l1 ->
  l1 ≡ₚ l2 ->
  StronglySorted R l1 -> StronglySorted R l2 ->
  (forall x, P x ->
     filter (fun y => ties x y = true) l1
     = filter (fun y => ties x y = true) l2) ->
  l1 = l2.
Proof.
  intros HP. revert l2.
  induction HP as [|h1 t1 Ph1 Pt1 IH]; intros l2 Hperm S1 S2 Hties.
  - apply Permutation_length in Hperm.
    destruct l2; [reflexivity | discriminate].
  - destruct l2 as [|h2 t2];
      [apply Permutation_length in Hperm; discriminate|].
    apply StronglySorted_inv in S1 as [S1 F1].
    apply StronglySorted_inv in S2 as [S2 F2].
    rewrite Forall_forall in F1, F2.
    assert (P h2) as Ph2.
    { assert (h2 ∈ h1 :: t1) as Hin by (rewrite Hperm; left).
      apply elem_of_cons in Hin as [->|Hin]; [exact Ph1|].
      now apply (proj1 (Forall_forall _ _) Pt1). }
    assert (R h1 h2) as R12.
    { assert (h2 ∈ h1 :: t1) as Hin by (rewrite Hperm; left).
      apply elem_of_cons in Hin as [->|Hin]; [now apply cmp_refl|].
      now apply F1. }
    assert (R h2 h1) as R21.
    { assert (h1 ∈ h2 :: t2) as Hin by (rewrite <- Hperm; left).
      apply elem_of_cons in Hin as [->|Hin]; [now apply cmp_refl|].
      now apply F2. }
    assert (h1 = h2) as <-.
    { pose proof (Hties h1 Ph1) as E.
      rewrite filter_cons_True in E
        by (unfold ties; now rewrite (cmp_refl h1 Ph1)).
      rewrite filter_cons_True in E
        by (unfold ties; unfold R in R12, R21; now rewrite R12, R21).
      now injection E. }
    f_equal. apply IH; try assumption.
    + now apply Permutation_cons_inv in Hperm.
    + intros x Px. pose proof (Hties x Px) as E.
      destruct (ties x h1) eqn:T.
      * rewrite !(filter_cons_True _ h1) in E by exact T. now injection E.
      * now rewrite !(filter_cons_False _ h1) in E by congruence.
Qed.
End StableOrder.

Lemma tied_class (x y z : FileCoverage) :
  finiteCounters x -> finiteCounters y -> finiteCounters z ->
  tied x y = true -> tied x z = true ->
  js_gt (compareFiles y z) (num 0) = false.
Proof.
  intros Fx Fy Fz [_ Hyx%negb_true_iff]%andb_prop
         [Hxz%negb_true_iff _]%andb_prop.
  now apply (compareFiles_trans y x z).
Qed.

(** X19.  On files with finite counters the table order does not depend
    on the algorithm of the engine: every list that holds the same files,
    is in the order of the comparator and keeps the files that the
    comparator ties in the order of the aggregate, is the list
    [sortedFiles]. *)
Theorem sortedFiles_unique (cov : Coverage) (ordered : list FileCoverage) :
  Forall finiteCounters (files cov) ->
  ordered ≡ₚ files cov ->
  StronglySorted (fun x y => js_gt (compareFiles x y) (num 0) = false)
                 ordered ->
  (forall x, finiteCounters x ->
     filter (fun y => tied x y = true) ordered
     = filter (fun y => tied x y = true) (files cov)) ->
  ordered = sortedFiles cov.
Proof.
  intros Hfin Hperm Hsorted Hstable. unfold sortedFiles.
  apply (stable_sorted_unique compareFiles finiteCounters compareFiles_asym).
  - now rewrite Hperm.
  - now rewrite Hperm, (sort_perm compareFiles).
  - exact Hsorted.
  - apply (sort_sorted compareFiles finiteCounters);
      [apply compareFiles_asym | apply compareFiles_trans | exact Hfin].
  - intros x Fx. pose proof (Hstable x Fx) as E. unfold tied in E.
    rewrite E. symmetry.
    apply (sort_stable_on compareFiles finiteCounters
             (fun y => tied x y) (files cov) Hfin).
    intros y z Fy Fz. now apply tied_class.
Qed.

Lemma sortedFiles_unique_witness :
  let ordered :=
    [entry "b.ex" 10 0; entry "c.ex" 4 2; entry "a.ex" 10 10;
     entry "none.ex" 0 0] in
  let cov :=
    {| total_found := num 24; total_hit := num 12; percentage := num 50;
       files := ordered |} in
  Forall finiteCounters (files cov) /\ ordered = sortedFiles cov.
Proof.
  cbn zeta.
  assert (Forall finiteCounters
            [entry "b.ex" 10 0; entry "c.ex" 4 2; entry "a.ex" 10 10;
             entry "none.ex" 0 0]) as Hfin by (repeat constructor).
  split; [exact Hfin|].
  apply (sortedFiles_unique
           {| total_found := num 24; total_hit := num 12;
              percentage := num 50;
              files := [entry "b.ex" 10 0; entry "c.ex" 4 2;
                        entry "a.ex" 10 10; entry "none.ex" 0 0] |}).
  - exact Hfin.
  - reflexivity.
  - repeat constructor.
  - reflexivity.
Defined.

(** * Further properties of the reconciliation *)

Lemma same_id_same_comment (store : list Comment) (c e : Comment) :
  NoDup (id <$> store) -> c ∈ store -> e ∈ store -> id c = id e -> c = e.
Proof.
  induction store as [|d store IH]; intros Hnd Hc He Hid;
    [now apply not_elem_of_nil in Hc|].
  rewrite fmap_cons in Hnd. apply NoDup_cons in Hnd as [Hd Hnd].
  apply elem_of_cons in Hc as [->|Hc], He as [->|He].
  - reflexivity.
  - exfalso. apply Hd. rewrite Hid. now apply list_elem_of_fmap_2.
  - exfalso. apply Hd. rewrite <- Hid. now apply list_elem_of_fmap_2.
  - now apply IH.
Qed.

Lemma updateComment_ids (store : list Comment) (k : Z) (doc : string) :
  id <$> updateComment store k doc = id <$> store.
Proof.
  unfold updateComment. rewrite <- list_fmap_compose.
  apply list_fmap_ext. intros i c _. cbn. now destruct (Z.eqb (id c) k).
Qed.

(** X11.  On a store whose comments have distinct identifiers, a
    reconciliation never removes or moves a comment, never changes a
    comment that does not bear the marker, keeps every identifier in its
    place, and adds at most one comment, at the end. *)
Theorem postComment_keeps_others
  (store after : list Comment) (doc : string) :
  NoDup (id <$> store) ->
  postComment None store doc = Ok after ->
  (forall i c, store !! i = Some c -> hasMarker c = false ->
               after !! i = Some c)
  /\ id <$> take (length store) after = id <$> store
  /\ (length store <= length after <= S (length store))%nat.
Proof.
  intros Hnd. unfold postComment.
  destruct (find hasMarker (listComments store)) as [e|] eqn:Hfind;
    intros [= <-].
  - apply find_some in Hfind as [Hin He].
    assert (e ∈ store) as Hstore.
    { apply list_elem_of_In in Hin. unfold listComments in Hin.
      now apply (subseteq_take MAX_FILES_PER_PAGE store). }
    split; [|split].
    + intros i c Hc Hno. unfold updateComment.
      rewrite list_lookup_fmap, Hc. cbn.
      destruct (Z.eqb_spec (id c) (id e)) as [Hid|]; [|reflexivity].
      assert (c = e) as -> by
        (eapply same_id_same_comment; eauto using list_elem_of_lookup_2).
      congruence.
    + rewrite firstn_all2; [apply updateComment_ids|].
      unfold updateComment. rewrite length_fmap. lia.
    + unfold updateComment. rewrite length_fmap. lia.
  - unfold createComment. split; [|split].
    + intros i c Hc _. now apply lookup_app_l_Some.
    + now rewrite take_app_length.
    + rewrite length_app. cbn. lia.
Qed.

Lemma postComment_keeps_others_witness :
  let store := [{| id := 41; body := Some "Looks good to me" |};
                {| id := 42; body := Some (LCOV_COMMENT_MARKER +:+ "old") |}] in
  let doc := LCOV_COMMENT_MARKER +:+ "new" in
  let after := [{| id := 41; body := Some "Looks good to me" |};
                {| id := 42; body := Some doc |}] in
  postComment None store doc = Ok after
  /\ (length store <= length after <= S (length store))%nat.
Proof.
  cbn zeta. split; [reflexivity|].
  eapply postComment_keeps_others; [|reflexivity].
  change (NoDup [41; 42]). apply NoDup_cons. split; [|apply NoDup_singleton].
  rewrite list_elem_of_singleton. discriminate.
Defined.

(** X12.  Only the first page is looked at: when no comment among the
    first [MAX_FILES_PER_PAGE] bears the marker, a new comment is created,
    and the store then has one marker-bearing comment more than before -
    also when it already had one further down. *)
Theorem postComment_beyond_first_page (store : list Comment) (doc : string) :
  Forall (fun c => hasMarker c = false) (listComments store) ->
  includes doc LCOV_COMMENT_MARKER = true ->
  postComment None store doc = Ok (createComment store doc)
  /\ length (markerComments (createComment store doc))
     = S (length (markerComments store)).
Proof.
  intros Hpage Hdoc. split; [now apply postComment_create|].
  unfold createComment, markerComments.
  rewrite filter_app, length_app.
  rewrite filter_cons_True by exact Hdoc. cbn. lia.
Qed.

Lemma postComment_beyond_first_page_witness :
  let old := {| id := 101; body := Some (LCOV_COMMENT_MARKER +:+ "old") |} in
  let doc := LCOV_COMMENT_MARKER +:+ "new" in
  length (markerComments (chatter 100 ++ [old])) = 1%nat
  /\ postComment None (chatter 100 ++ [old]) doc
     = Ok (chatter 100 ++ [old; {| id := 102; body := Some doc |}])
  /\ length (markerComments (createComment (chatter 100 ++ [old]) doc))
     = 2%nat.
Proof.
  cbn zeta.
  assert (Forall (fun c => hasMarker c = false)
            (listComments
               (chatter 100
                ++ [{| id := 101;
                       body := Some (LCOV_COMMENT_MARKER +:+ "old") |}])))
    as Hpage.
  { unfold listComments, MAX_FILES_PER_PAGE.
    rewrite take_app_length'
      by (unfold chatter; now rewrite length_fmap, length_seq).
    apply Forall_forall. intros c Hc.
    apply list_elem_of_fmap in Hc as (k & -> & _). reflexivity. }
  destruct (postComment_beyond_first_page _ (LCOV_COMMENT_MARKER +:+ "new")
              Hpage eq_refl) as [Hpost Hcount].
  split; [vm_compute; reflexivity|].
  split; [rewrite Hpost; vm_compute; reflexivity|].
  rewrite Hcount. vm_compute. reflexivity.
Defined.

(** The store after a reconciliation: the one marker-bearing comment,
    with the document as its body, between comments without the marker. *)
Lemma postComment_shape (store : list Comment) (doc : string) :
  NoDup (id <$> store) ->
  (length (markerComments store) <= 1)%nat ->
  pageSuffices store ->
  includes doc LCOV_COMMENT_MARKER = true ->
  exists l1 e l3,
    postComment None store doc = Ok (l1 ++ e :: l3)
    /\ body e = Some doc
    /\ NoDup (id <$> l1 ++ e :: l3)
    /\ Forall (fun c => hasMarker c = false) l1
    /\ Forall (fun c => hasMarker c = false) l3
    /\ (length l1 < MAX_FILES_PER_PAGE)%nat.
Proof.
  intros Hnd Hone [Hpage Hroom] Hdoc.
  destruct (find hasMarker (listComments store)) as [e|] eqn:Hfind.
  - apply find_some in Hfind as [Hin He].
    apply list_elem_of_In, list_elem_of_split in Hin as (l1 & l2 & Hsplit).
    assert (store = l1 ++ e :: (l2 ++ drop MAX_FILES_PER_PAGE store)) as Hstore.
    { rewrite <- (take_drop MAX_FILES_PER_PAGE store) at 1.
      unfold listComments in Hsplit. rewrite Hsplit.
      now rewrite <- app_assoc. }
    set (l3 := l2 ++ drop MAX_FILES_PER_PAGE store) in *.
    assert (length l1 < MAX_FILES_PER_PAGE)%nat as Hlen.
    { assert (length (listComments store) <= MAX_FILES_PER_PAGE)%nat as Hle
        by (unfold listComments; rewrite length_take; apply Nat.le_min_l).
      rewrite Hsplit, length_app in Hle. cbn [length] in Hle. lia. }
    assert (Forall (fun c => hasMarker c = false) l1
            /\ Forall (fun c => hasMarker c = false) l3) as [H1 H3].
    { rewrite Hstore in Hone. unfold markerComments in Hone.
      rewrite filter_app, filter_cons_True, length_app in Hone by exact He.
      cbn [length] in Hone.
      split; apply markerComments_nil_Forall; unfold markerComments.
      - destruct (filter _ l1); [reflexivity | cbn in Hone; lia].
      - destruct (filter _ l3); [reflexivity | cbn in Hone; lia]. }
    exists l1, {| id := id e; body := Some doc |}, l3.
    split; [|split; [reflexivity|split; [|auto]]].
    + rewrite Hstore. apply postComment_update; try assumption.
      now rewrite <- Hstore.
    + rewrite Hstore in Hnd. now rewrite !fmap_app, !fmap_cons in Hnd |- *.
  - apply find_none_Forall in Hfind.
    assert (markerComments store = []) as Hnil.
    { rewrite <- Hpage. now apply markerComments_nil_Forall. }
    specialize (Hroom Hnil). apply markerComments_nil_Forall in Hnil.
    exists store, {| id := freshId store; body := Some doc |}, [].
    split; [|split; [reflexivity|split; [|auto]]].
    + now apply postComment_create.
    + rewrite fmap_app. apply NoDup_app. split; [exact Hnd|].
      split; [|apply NoDup_singleton].
      intros k Hk Hin. apply list_elem_of_singleton in Hin. subst k.
      now apply freshId_new in Hk.
Qed.

Lemma evaluate_withComments (w : World) (discussion : list Comment)
  (i : Inputs) :
  evaluate (withComments w discussion) i = evaluate w i.
Proof. reflexivity. Qed.

(** X13.  Running the action again on the same pull request, with the
    same files and inputs, changes nothing: in a run that raises no error,
    the comments after the second run are the comments after the first, and
    among them exactly one bears the marker, with the rendered report as
    its body.  (The store has distinct identifiers, at most one
    marker-bearing comment, on its first page, and room on that page if it
    has none.) *)
Theorem run_twice_same_store
  (fmt : NumberFormat) (w : World) (i : Inputs) (c : Checked) :
  eventName w = "pull_request" ->
  commentsOutage w = None ->
  evaluate w i = Ok c ->
  NoDup (id <$> comments w) ->
  (length (markerComments (comments w)) <= 1)%nat ->
  pageSuffices (comments w) ->
  let first := run fmt w i in
  let second := run fmt (withComments w (store first)) i in
  store second = store first
  /\ failures second = failures first
  /\ exists posted,
       markerComments (store first) = [posted]
       /\ body posted
          = Some (buildComment fmt (allCoverage c) (changedCoverage c)
                    (allFilesMin c) (changedFilesMin c) (passed c)
                    (bool_decide (0 < size (changedFiles c))%nat)
                    (testSummary c)).
Proof.
  intros Hev Hup Hc Hnd Hone Hpage. cbn zeta.
  set (doc := buildComment fmt (allCoverage c) (changedCoverage c)
                (allFilesMin c) (changedFilesMin c) (passed c)
                (bool_decide (0 < size (changedFiles c))%nat)
                (testSummary c)).
  assert (includes doc LCOV_COMMENT_MARKER = true) as Hdoc
    by apply buildComment_hasMarker.
  destruct (postComment_shape (comments w) doc Hnd Hone Hpage Hdoc)
    as (l1 & e & l3 & Hpost & Hbody & Hnd1 & H1 & H3 & Hlen).
  assert (hasMarker e = true) as He by (unfold hasMarker; now rewrite Hbody).
  assert (run fmt w i
          = {| failures := if passed c then [] else [belowThreshold];
               store := l1 ++ e :: l3 |}) as Hfirst.
  { unfold run. rewrite Hc, Hev, Hup, String.eqb_refl.
    fold doc. now rewrite Hpost. }
  rewrite Hfirst. cbn [store failures].
  assert (postComment None (l1 ++ e :: l3) doc = Ok (l1 ++ e :: l3)) as Hagain.
  { rewrite (postComment_update l1 l3 e doc Hnd1 H1 He Hlen).
    destruct e as [k b]. cbn in Hbody |- *. now rewrite Hbody. }
  split; [|split].
  - unfold run. rewrite evaluate_withComments, Hc. cbn [eventName withComments
      commentsOutage comments]. rewrite Hev, Hup, String.eqb_refl.
    fold doc. now rewrite Hagain.
  - unfold run. rewrite evaluate_withComments, Hc. cbn [eventName withComments
      commentsOutage comments]. rewrite Hev, Hup, String.eqb_refl.
    fold doc. now rewrite Hagain.
  - exists e. split; [now apply markerComments_single | exact Hbody].
Qed.

Lemma run_twice_same_store_witness :
  let w := pullRequestWorld twoFilesText ["a.ex"]
             [{| id := 7; body := Some "Looks good to me" |}] in
  let i := lcovInputs (num 80) (num 0) in
  store (run exampleFormat (withComments w (store (run exampleFormat w i))) i)
  = store (run exampleFormat w i).
Proof.
  cbn zeta.
  eapply (run_twice_same_store exampleFormat
            (pullRequestWorld twoFilesText ["a.ex"]
               [{| id := 7; body := Some "Looks good to me" |}])
            (lcovInputs (num 80) (num 0))).
  - reflexivity.
  - reflexivity.
  - vm_compute. reflexivity.
  - apply NoDup_singleton.
  - vm_compute. lia.
  - split; [reflexivity|]. intros _. vm_compute. lia.
Defined.

(** * Further properties of [run] *)

Lemma calculateCoverage_empty_filter (coverage : list FileCoverage) :
  calculateCoverage coverage (Some ∅) = calculateCoverage coverage None.
Proof.
  rewrite calculateCoverage_filtered.
  rewrite bool_decide_eq_false_2; [reflexivity|].
  rewrite size_empty. lia.
Qed.

(** X14.  For an event other than a pull request the changed-file lister
    is not asked and the set of changed files is empty: the changed-files
    aggregate is the all-files aggregate, the changed half of the check
    passes, the exit status depends on the all-files threshold alone, and
    the comments are left as they are. *)
Theorem run_outside_pull_request
  (fmt : NumberFormat) (w : World) (i : Inputs) :
  eventName w <> "pull_request" ->
  getChangedFiles w = Ok ∅
  /\ store (run fmt w i) = comments w
  /\ (forall c, evaluate w i = Ok c ->
        changedFiles c = ∅
        /\ changedCoverage c = allCoverage c
        /\ changedPassed c = true
        /\ failed (run fmt w i) = negb (allPassed c)).
Proof.
  intros Hev.
  assert (String.eqb (eventName w) "pull_request" = false) as Heq
    by (now apply String.eqb_neq).
  assert (getChangedFiles w = Ok ∅) as Hchanged
    by (unfold getChangedFiles; now rewrite Heq).
  split; [exact Hchanged|]. split.
  - unfold run. destruct (evaluate w i); [|reflexivity]. now rewrite Heq.
  - intros c Hc.
    destruct (evaluate_inv w i c Hc)
      as (cov & ch & _ & Hch & Hall & Hcc & _ & _ & Hfiles & _ & Hb & Hpass).
    rewrite Hchanged in Hch. injection Hch as <-.
    rewrite calculateCoverage_empty_filter in Hcc.
    assert (changedPassed c = true) as Hcp.
    { rewrite Hb. rewrite bool_decide_eq_true_2; [reflexivity|].
      apply size_empty. }
    repeat split; try assumption; try congruence.
    rewrite (failed_run fmt w i c Hc) by (intros E; contradiction).
    now rewrite Hpass, Hcp, andb_true_r.
Qed.

Lemma run_outside_pull_request_witness :
  store (run exampleFormat (lcovWorld twoFilesText)
           (lcovInputs (num 80) (num 90)))
  = comments (lcovWorld twoFilesText).
Proof.
  apply (run_outside_pull_request exampleFormat (lcovWorld twoFilesText)).
  discriminate.
Defined.

Lemma js_or_unset (a : number) : truthy a = false -> js_or a (num 0) = num 0.
Proof. unfold js_or. now intros ->. Qed.

(** X15.  With both thresholds left unset (absent, unreadable or zero), a
    run that raises no error does not fail on a report whose counters are
    non-negative integers with sums below [2^53]: both halves of the check
    pass. *)
Theorem run_without_thresholds
  (fmt : NumberFormat) (w : World) (i : Inputs)
  (l : list (string * Z * Z)) (c : Checked) :
  parseLcovFile w (trim (lcov_file i)) = Ok (entries l) ->
  evaluate w i = Ok c ->
  (eventName w = "pull_request" -> commentsOutage w = None) ->
  safeCounters l ->
  truthy (all_files_minimum_coverage i) = false ->
  truthy (changed_files_minimum_coverage i) = false ->
  allPassed c = true /\ changedPassed c = true
  /\ failed (run fmt w i) = false.
Proof.
  intros Hparse Hc Hup Hsafe Hmin1 Hmin2.
  destruct (evaluate_inv w i c Hc)
    as (cov' & ch & Hp' & _ & Hall & Hcc & Ha & Hb & _ & Hap & Hcp & Hpass).
  rewrite Hparse in Hp'. injection Hp' as <-.
  assert (forall filter_,
    js_ge (percentage (calculateCoverage (entries l) filter_)) (num 0) = true)
    as Hge.
  { intros filter_.
    destruct (calculateCoverage_retained l filter_ Hsafe)
      as (kept & Skept & _ & ->).
    rewrite (calculateCoverage_safe kept Skept). cbn [percentage].
    destruct Skept as (Hk & HF & HH).
    destruct (totals_nonneg kept Hk) as [Tf Th].
    apply percentage_nonneg; lia. }
  assert (allPassed c = true) as H1
    by (rewrite Hap, Hall, Ha, (js_or_unset _ Hmin1); apply Hge).
  assert (changedPassed c = true) as H2.
  { rewrite Hcp, Hcc, Hb, (js_or_unset _ Hmin2), Hge. apply orb_true_r. }
  repeat split; try assumption.
  rewrite (failed_run fmt w i c Hc Hup). now rewrite Hpass, H1, H2.
Qed.

Lemma run_without_thresholds_witness :
  failed (run exampleFormat (pullRequestWorld twoFilesText ["b.ex"] [])
            (lcovInputs NaN (num 0))) = false.
Proof.
  eapply (run_without_thresholds exampleFormat
            (pullRequestWorld twoFilesText ["b.ex"] [])
            (lcovInputs NaN (num 0))
            [("a.ex", 10, 10); ("b.ex", 10, 0)]).
  - reflexivity.
  - vm_compute. reflexivity.
  - reflexivity.
  - split; [repeat constructor; lia|]. split; reflexivity.
  - reflexivity.
  - reflexivity.
Defined.

(** X16.  A configuration error stops the run before anything is parsed
    or posted: when a required input is not supplied or the LCOV file does
    not exist, the run fails with one message and the comments stay as they
    are, for a pull request too.  The message is the one of the first
    error: for an input that is not supplied it names the input, for a
    missing file it names the path, which is the input with the white space
    around it removed. *)
Theorem run_configuration_error
  (fmt : NumberFormat) (w : World) (i : Inputs) :
  lcov_file i = EmptyString \/ github_token i = EmptyString
  \/ fs w (trim (lcov_file i)) = None ->
  (exists e, run fmt w i
             = {| failures := [actionFailed e]; store := comments w |})
  /\ failed (run fmt w i) = true
  /\ (lcov_file i = EmptyString ->
      failures (run fmt w i)
      = [actionFailed
           (mkError w 11 "Input required and not supplied: lcov-file")])
  /\ (lcov_file i <> EmptyString -> github_token i = EmptyString ->
      failures (run fmt w i)
      = [actionFailed
           (mkError w 12 "Input required and not supplied: github-token")])
  /\ (lcov_file i <> EmptyString -> github_token i <> EmptyString ->
      fs w (trim (lcov_file i)) = None ->
      failures (run fmt w i)
      = [actionFailed
           (mkError w 18 ("LCOV file not found: " +:+ trim (lcov_file i)))]).
Proof.
  intros Hcfg.
  assert (exists e, evaluate w i = Throw e
            /\ (lcov_file i = EmptyString ->
                e = mkError w 11 "Input required and not supplied: lcov-file")
            /\ (lcov_file i <> EmptyString -> github_token i = EmptyString ->
                e = mkError w 12
                      "Input required and not supplied: github-token")
            /\ (lcov_file i <> EmptyString -> github_token i <> EmptyString ->
                fs w (trim (lcov_file i)) = None ->
                e = mkError w 18
                      ("LCOV file not found: " +:+ trim (lcov_file i))))
    as (e & He & Hmsg1 & Hmsg2 & Hmsg3).
  { unfold evaluate, getInput.
    destruct (String.eqb_spec (lcov_file i) EmptyString) as [E1|E1];
      [eexists; split; [reflexivity|]; repeat split; intros;
       congruence|].
    destruct (String.eqb_spec (github_token i) EmptyString) as [E2|E2];
      [eexists; split; [reflexivity|]; repeat split; intros;
       congruence|].
    destruct Hcfg as [?|[?|Hfs]]; try contradiction.
    cbn [andb bind]. unfold existsSync. rewrite Hfs.
    rewrite bool_decide_eq_false_2 by (intros [x Hx]; discriminate).
    eexists; split; [reflexivity|]. repeat split; intros; congruence. }
  assert (run fmt w i = {| failures := [actionFailed e]; store := comments w |})
    as Hrun by (unfold run; now rewrite He).
  split; [now exists e|]. rewrite Hrun. split; [reflexivity|].
  cbn [failures].
  split; [intros H1; now rewrite (Hmsg1 H1)|].
  split; [intros H1 H2; now rewrite (Hmsg2 H1 H2)|].
  intros H1 H2 H3. now rewrite (Hmsg3 H1 H2 H3).
Qed.

Lemma run_configuration_error_witness :
  let w := pullRequestWorld twoFilesText ["a.ex"] [] in
  failures (run exampleFormat w
              {| lcov_file := " missing.info "; github_token := "token";
                 test_summary_file := EmptyString;
                 all_files_minimum_coverage := num 0;
                 changed_files_minimum_coverage := num 0 |})
  = [actionFailed (mkError w 18 ("LCOV file not found: " +:+ "missing.info"))].
Proof.
  cbn zeta.
  apply (run_configuration_error exampleFormat
           (pullRequestWorld twoFilesText ["a.ex"] [])
           {| lcov_file := " missing.info "; github_token := "token";
              test_summary_file := EmptyString;
              all_files_minimum_coverage := num 0;
              changed_files_minimum_coverage := num 0 |});
    try discriminate; try reflexivity.
  right. right. reflexivity.
Defined.

(** X20.  The check is made on the percentage as computed: a report with
    [57] of [100] lines hit does not meet an all-files minimum of [57],
    because [(57 / 100) * 100] is the double below [57]; the run is marked
    failed, while a minimum of [56] is met. *)
Theorem run_rounds_below_minimum (fmt : NumberFormat) :
  let text :=
    "SF:a.ex" +:+ nl +:+ "LF:100" +:+ nl +:+ "LH:57" +:+ nl
    +:+ "end_of_record" in
  let report := parseLcov (cwd (lcovWorld text)) text in
  report = [entry "a.ex" 100 57]
  /\ js_lt (percentage (calculateCoverage report None)) (num 57) = true
  /\ failures (run fmt (lcovWorld text) (lcovInputs (num 57) (num 0)))
     = [belowThreshold]
  /\ failures (run fmt (lcovWorld text) (lcovInputs (num 56) (num 0))) = [].
Proof. cbn zeta. repeat split; vm_compute; reflexivity. Qed.

(** * Further properties of the renderer *)

Lemma append_assoc_eq (a b c : string) : (a +:+ b) +:+ c = a +:+ (b +:+ c).
Proof.
  induction a as [|x a IH]; [reflexivity|].
  change (String x ((a +:+ b) +:+ c) = String x (a +:+ (b +:+ c))).
  now rewrite IH.
Qed.

Lemma append_empty_r (a : string) : a +:+ EmptyString = a.
Proof.
  induction a as [|x a IH]; [reflexivity|].
  change (String x (a +:+ EmptyString) = String x a). now rewrite IH.
Qed.

(** X17.  The performance section is appended after the rest of the
    document and changes nothing else: the document with a summary is the
    document without one followed by the section, and an empty summary
    gives the document without one. *)
Theorem buildComment_performance
  (fmt : NumberFormat) (allCov changedCov : Coverage)
  (allMin changedMin : number) (passed hasChanged : bool)
  (summary : string) :
  buildComment fmt allCov changedCov allMin changedMin passed hasChanged
    (Some summary)
  = buildComment fmt allCov changedCov allMin changedMin passed hasChanged
      None
    +:+ buildPerformanceSection summary
  /\ buildComment fmt allCov changedCov allMin changedMin passed hasChanged
       (Some EmptyString)
     = buildComment fmt allCov changedCov allMin changedMin passed hasChanged
         None.
Proof.
  assert (forall s,
    buildComment fmt allCov changedCov allMin changedMin passed hasChanged
      (Some s)
    = buildComment fmt allCov changedCov allMin changedMin passed hasChanged
        None
      +:+ buildPerformanceSection s) as Happend.
  { intros s. unfold buildComment.
    replace (if String.eqb s EmptyString then EmptyString
             else buildPerformanceSection s)
      with (buildPerformanceSection s)
      by (unfold buildPerformanceSection;
          now destruct (String.eqb s EmptyString)).
    rewrite !append_assoc_eq. reflexivity. }
  split; [apply Happend|].
  rewrite Happend. apply append_empty_r.
Qed.

(** X18.  Failures of the GitHub endpoints are reported and nothing is
    posted.  When the changed-file lister fails for a pull request, the
    run stops there: the only message is that error, whatever the coverage
    is.  When the comment endpoints fail, the threshold message (if the
    check failed) comes first, the error message follows, and the comments
    stay as they are. *)
Theorem run_endpoint_failure
  (fmt : NumberFormat) (w : World) (i : Inputs) (e : error) :
  eventName w = "pull_request" ->
  (compareCommits w = Throw e ->
   lcov_file i <> EmptyString -> github_token i <> EmptyString ->
   (exists text, fs w (trim (lcov_file i)) = Some (FileNode text)) ->
   run fmt w i = {| failures := [actionFailed e]; store := comments w |})
  /\ (forall c,
        evaluate w i = Ok c -> commentsOutage w = Some e ->
        run fmt w i
        = {| failures := (if passed c then [] else [belowThreshold])
                         ++ [actionFailed e];
             store := comments w |}).
Proof.
  intros Hev. split.
  - intros Hapi H1 H2 [text Hfs].
    assert (evaluate w i = Throw e) as He.
    { unfold evaluate, getInput.
      rewrite (proj2 (String.eqb_neq _ _) H1), (proj2 (String.eqb_neq _ _) H2).
      cbn [andb bind]. unfold existsSync. rewrite Hfs.
      rewrite bool_decide_eq_true_2 by eauto. cbn [negb].
      unfold parseLcovFile, readFileSync. rewrite Hfs. cbn [bind].
      unfold getChangedFiles. rewrite Hev, Hapi. reflexivity. }
    unfold run. now rewrite He.
  - intros c Hc Hout. unfold run. rewrite Hc, Hev, Hout.
    rewrite String.eqb_refl. reflexivity.
Qed.

Lemma run_endpoint_failure_witness :
  let w :=
    {| fs := fs (pullRequestWorld twoFilesText ["a.ex"] []);
       cwd := "/home/runner/work/app";
       eventName := "pull_request";
       compareCommits := Throw deniedError;
       commentsOutage := None;
       comments := [];
       stackFrames := exampleFrames |} in
  run exampleFormat w (lcovInputs (num 80) (num 0))
  = {| failures := [actionFailed deniedError]; store := [] |}.
Proof.
  cbn zeta.
  apply (proj1 (run_endpoint_failure exampleFormat
                  {| fs := fs (pullRequestWorld twoFilesText ["a.ex"] []);
                     cwd := "/home/runner/work/app";
                     eventName := "pull_request";
                     compareCommits := Throw deniedError;
                     commentsOutage := None;
                     comments := [];
                     stackFrames := exampleFrames |}
                  (lcovInputs (num 80) (num 0))
                  deniedError
                  eq_refl));
    try discriminate; try reflexivity.
  eexists. reflexivity.
Defined.
